(** * A limit-order matching engine: order book, engine worker, SPSC queue

    Shallow embedding of [src/core/orderbook.cpp], [core/order.hpp],
    [src/core/matching_engine.cpp], [utils/spsc_queue.hpp] and
    [network/arbitrage_detector.hpp], followed by the properties of the
    specification that concern them.

    Conventions.
    - C++ integers are [Z]; arithmetic that can wrap is written with the
      explicit reductions [u32] and [u64].
    - [std::map] and [std::unordered_map] are [gmap]s.  The iteration order
      of a [std::map] only matters through [begin()], modelled by
      [map_begin] (the entry whose key comes first for the comparator).
    - A [std::shared_ptr<Order>] stored both in a level queue and in
      [order_map_] denotes one object.  The model stores the record in both
      places and performs every in-place mutation of the object on both.
    - Functions that mutate [*this] return the new state next to the C++
      return value.
    - A [double] is a primitive binary64 float, with the operations of
      [PrimFloat]. *)

From Stdlib Require Import ZArith List Lia Bool Ascii Floats Uint63.
From stdpp Require Import base decidable option list sorting gmap fin_maps.

#[local] Open Scope Z_scope.

(** ** Machine integers *)

Definition u32 (x : Z) : Z := x mod 2 ^ 32.
Definition u64 (x : Z) : Z := x mod 2 ^ 64.

(** ** core/order.hpp *)

Inductive Side := BUY | SELL.
Inductive OrderType := MARKET | LIMIT | STOP | STOP_LIMIT.
Inductive OrderStatus := NEW | PARTIALLY_FILLED | FILLED | CANCELLED | REJECTED.
Inductive TimeInForce := DAY | GTC | IOC | FOK | GTD.

Record Order := mkOrder {
  order_id : Z;            (* uint64_t *)
  symbol_id : Z;           (* uint64_t *)
  price : Z;               (* int64_t, fixed point *)
  quantity : Z;            (* uint32_t *)
  executed_quantity : Z;   (* uint32_t *)
  timestamp_ns : Z;        (* uint64_t *)
  client_id : Z;           (* uint64_t *)
  sequence_number : Z;     (* uint32_t *)
  side : Side;
  type : OrderType;
  status : OrderStatus;
  tif : TimeInForce
}.

#[global] Instance Side_eq_dec : EqDecision Side.
Proof. solve_decision. Defined.
#[global] Instance OrderType_eq_dec : EqDecision OrderType.
Proof. solve_decision. Defined.
#[global] Instance OrderStatus_eq_dec : EqDecision OrderStatus.
Proof. solve_decision. Defined.
#[global] Instance TimeInForce_eq_dec : EqDecision TimeInForce.
Proof. solve_decision. Defined.
#[global] Instance Order_eq_dec : EqDecision Order.
Proof. solve_decision. Defined.

(** Field assignments [o.quantity = q], [o.price = p], [o.timestamp_ns = t]. *)
Definition with_quantity (o : Order) (q : Z) : Order :=
  mkOrder (order_id o) (symbol_id o) (price o) q (executed_quantity o)
          (timestamp_ns o) (client_id o) (sequence_number o) (side o)
          (type o) (status o) (tif o).

Definition with_price (o : Order) (p : Z) : Order :=
  mkOrder (order_id o) (symbol_id o) p (quantity o) (executed_quantity o)
          (timestamp_ns o) (client_id o) (sequence_number o) (side o)
          (type o) (status o) (tif o).

Definition with_timestamp_ns (o : Order) (t : Z) : Order :=
  mkOrder (order_id o) (symbol_id o) (price o) (quantity o) (executed_quantity o)
          t (client_id o) (sequence_number o) (side o)
          (type o) (status o) (tif o).

(** The limit-order constructor [Order(id, symbol, px, qty, s, client)];
    [now] is the clock reading taken by the constructor. *)
Definition Order_new (id symbol px qty : Z) (s : Side) (client now : Z) : Order :=
  mkOrder id symbol px qty 0 now client 0 s LIMIT NEW DAY.

(** [Trade].  The constructor reads the steady clock for [timestamp_ns];
    that field and the two padding words are left out of the record. *)
Record Trade := mkTrade {
  trade_id : Z;
  buy_order_id : Z;
  sell_order_id : Z;
  trade_symbol_id : Z;
  trade_price : Z;
  trade_quantity : Z
}.

#[global] Instance Trade_eq_dec : EqDecision Trade.
Proof. solve_decision. Defined.

(** [Trade(id, buy, sell, exec_price, qty)] *)
Definition Trade_new (id : Z) (buy sell : Order) (exec_price qty : Z) : Trade :=
  mkTrade id (order_id buy) (order_id sell) (symbol_id buy) exec_price qty.

(** ** PriceLevelImpl *)

Record PriceLevelImpl := mkLevel {
  price_ : Z;
  orders_ : list Order;      (* std::queue, front first *)
  total_volume_ : Z          (* uint32_t *)
}.

Module Level.

Definition create (price : Z) : PriceLevelImpl := mkLevel price [] 0.

Definition add_order (l : PriceLevelImpl) (order : Order) : PriceLevelImpl :=
  mkLevel (price_ l) (orders_ l ++ [order])
          (u32 (total_volume_ l + quantity order)).

Definition peek_front (l : PriceLevelImpl) : option Order := head (orders_ l).

Definition remove_front (l : PriceLevelImpl) : PriceLevelImpl :=
  match orders_ l with
  | [] => l
  | front :: rest =>
      mkLevel (price_ l) rest (u32 (total_volume_ l - quantity front))
  end.

Definition remove_front_after_fill (l : PriceLevelImpl) (filled_quantity : Z)
  : PriceLevelImpl :=
  match orders_ l with
  | [] => l
  | _ :: rest => mkLevel (price_ l) rest (u32 (total_volume_ l - filled_quantity))
  end.

(** The draining loop of [remove_order]: [orders] is what is left of
    [orders_], [temp_queue] what has been kept so far. *)
Fixpoint remove_order_loop (id : Z) (orders temp_queue : list Order)
    (total_volume : Z) (found : bool) : list Order * Z * bool :=
  match orders with
  | [] => (temp_queue, total_volume, found)
  | order :: rest =>
      if order_id order =? id
      then remove_order_loop id rest temp_queue
                             (u32 (total_volume - quantity order)) true
      else remove_order_loop id rest (temp_queue ++ [order]) total_volume found
  end.

Definition remove_order (l : PriceLevelImpl) (id : Z) : bool * PriceLevelImpl :=
  let '(temp_queue, total_volume, found) :=
    remove_order_loop id (orders_ l) [] (total_volume_ l) false in
  (found, mkLevel (price_ l) temp_queue total_volume).

Definition update_front_quantity (l : PriceLevelImpl) (new_quantity : Z)
  : PriceLevelImpl :=
  match orders_ l with
  | [] => l
  | front :: _ =>
      mkLevel (price_ l) (orders_ l)
              (u32 (u32 (total_volume_ l - quantity front) + new_quantity))
  end.

Definition update_volume_after_partial_fill (l : PriceLevelImpl)
    (filled_quantity : Z) : PriceLevelImpl :=
  mkLevel (price_ l) (orders_ l) (u32 (total_volume_ l - filled_quantity)).

Definition empty (l : PriceLevelImpl) : bool :=
  match orders_ l with [] => true | _ => false end.

Definition order_count (l : PriceLevelImpl) : nat := length (orders_ l).
Definition volume (l : PriceLevelImpl) : Z := total_volume_ l.
Definition price (l : PriceLevelImpl) : Z := price_ l.

(** In-place mutation of the order at the front of the queue, seen through
    the queue's pointer to it. *)
Definition write_front (l : PriceLevelImpl) (o : Order) : PriceLevelImpl :=
  match orders_ l with
  | [] => l
  | _ :: rest => mkLevel (price_ l) (o :: rest) (total_volume_ l)
  end.

End Level.

(** ** OrderBookImpl *)

Record OrderBookImpl := mkBook {
  symbol_id_ : Z;
  buy_levels_ : gmap Z PriceLevelImpl;   (* std::map, std::greater *)
  sell_levels_ : gmap Z PriceLevelImpl;  (* std::map, std::less *)
  order_map_ : gmap Z Order;
  next_trade_id_ : Z                     (* uint64_t *)
}.

(** [OrderBookImpl(symbol_id)] *)
Definition OrderBookImpl_new (symbol_id : Z) : OrderBookImpl :=
  mkBook symbol_id ∅ ∅ ∅ 1.

(** The level map of one side, and assignment to it. *)
Definition levels (s : Side) (b : OrderBookImpl) : gmap Z PriceLevelImpl :=
  match s with BUY => buy_levels_ b | SELL => sell_levels_ b end.

Definition set_levels (s : Side) (m : gmap Z PriceLevelImpl) (b : OrderBookImpl)
  : OrderBookImpl :=
  match s with
  | BUY => mkBook (symbol_id_ b) m (sell_levels_ b) (order_map_ b) (next_trade_id_ b)
  | SELL => mkBook (symbol_id_ b) (buy_levels_ b) m (order_map_ b) (next_trade_id_ b)
  end.

Definition set_order_map (m : gmap Z Order) (b : OrderBookImpl) : OrderBookImpl :=
  mkBook (symbol_id_ b) (buy_levels_ b) (sell_levels_ b) m (next_trade_id_ b).

Definition set_next_trade_id (n : Z) (b : OrderBookImpl) : OrderBookImpl :=
  mkBook (symbol_id_ b) (buy_levels_ b) (sell_levels_ b) (order_map_ b) n.

Definition opposite (s : Side) : Side :=
  match s with BUY => SELL | SELL => BUY end.

(** The comparator of a side's map: [std::greater] for bids, [std::less]
    for asks. *)
Definition key_before (s : Side) : Z → Z → bool :=
  match s with BUY => Z.gtb | SELL => Z.ltb end.

(** [m.begin()]: the entry whose key precedes every other key. *)
Definition map_begin {V} (before : Z → Z → bool) (m : gmap Z V) : option (Z * V) :=
  map_fold (λ k v acc,
              match acc with
              | None => Some (k, v)
              | Some (k', _) => if before k k' then Some (k, v) else acc
              end) None m.

(** [generate_trade]: builds the trade and post-increments [next_trade_id_]. *)
Definition generate_trade (b : OrderBookImpl) (aggressive_order passive_order : Order)
    (quantity price : Z) : Trade * OrderBookImpl :=
  (Trade_new (next_trade_id_ b) aggressive_order passive_order price quantity,
   set_next_trade_id (u64 (next_trade_id_ b + 1)) b).

(** The test that ends the matching loop without a trade:
    [buy_order->price < best_ask_price] for an incoming buy,
    [sell_order->price > best_bid_price] for an incoming sell. *)
Definition no_match (s : Side) (p best : Z) : bool :=
  match s with BUY => p <? best | SELL => p >? best end.

(** One turn of the [while] loop of [match_buy_order] ([s = BUY], walking
    [sell_levels_]) and of [match_sell_order] ([s = SELL], walking
    [buy_levels_]); the two C++ functions are the same text up to the side.
    [None] means the loop is left (condition false, or [break]); otherwise
    the new book, the incoming order after its in-place update, and the
    trades pushed in this turn. *)
Definition match_iteration (s : Side) (b : OrderBookImpl) (incoming : Order)
  : option (OrderBookImpl * Order * list Trade) :=
  let lv := levels (opposite s) b in
  if negb (0 <? quantity incoming) then None
  else
    match map_begin (key_before (opposite s)) lv with
    | None => None
    | Some (best_price, best_level) =>
        if no_match s (price incoming) best_price then None
        else
          match Level.peek_front best_level with
          | None => Some (set_levels (opposite s) (delete best_price lv) b, incoming, [])
          | Some resting =>
              let match_quantity := Z.min (quantity incoming) (quantity resting) in
              let '(trade, b1) :=
                generate_trade b incoming resting match_quantity best_price in
              let incoming' :=
                with_quantity incoming (u32 (quantity incoming - match_quantity)) in
              (* resting->quantity -= match_quantity, on the shared object *)
              let resting' :=
                with_quantity resting (u32 (quantity resting - match_quantity)) in
              let level1 := Level.write_front best_level resting' in
              let om1 := alter (λ _, resting') (order_id resting) (order_map_ b1) in
              if quantity resting' =? 0 then
                let om2 := delete (order_id resting') om1 in
                let level2 := Level.remove_front_after_fill level1 match_quantity in
                let lv2 := if Level.empty level2 then delete best_price lv
                           else <[best_price := level2]> lv in
                Some (set_levels (opposite s) lv2 (set_order_map om2 b1),
                      incoming', [trade])
              else
                let level2 :=
                  Level.update_volume_after_partial_fill level1 match_quantity in
                Some (set_levels (opposite s) (<[best_price := level2]> lv)
                                 (set_order_map om1 b1),
                      incoming', [trade])
          end
    end.

(** The loop itself, bounded by [fuel] turns. *)
Fixpoint match_loop (s : Side) (fuel : nat) (b : OrderBookImpl) (incoming : Order)
    (trades : list Trade) : OrderBookImpl * Order * list Trade :=
  match fuel with
  | O => (b, incoming, trades)
  | S fuel' =>
      match match_iteration s b incoming with
      | None => (b, incoming, trades)
      | Some (b', incoming', ts) => match_loop s fuel' b' incoming' (trades ++ ts)
      end
  end.

(** A bound on the number of turns: every turn that does not leave the loop
    removes a level or a resting order, except a last one that exhausts the
    incoming order. *)
Definition levels_weight (m : gmap Z PriceLevelImpl) : nat :=
  map_fold (λ _ l acc, S (length (orders_ l) + acc)%nat) O m.

Definition match_fuel (s : Side) (b : OrderBookImpl) : nat :=
  S (levels_weight (levels (opposite s) b)).

Definition match_buy_order (b : OrderBookImpl) (buy_order : Order)
  : OrderBookImpl * Order * list Trade :=
  match_loop BUY (match_fuel BUY b) b buy_order [].

Definition match_sell_order (b : OrderBookImpl) (sell_order : Order)
  : OrderBookImpl * Order * list Trade :=
  match_loop SELL (match_fuel SELL b) b sell_order [].

(** [add_to_book]: [levels_[price]] default-inserts an empty slot that is
    filled with a fresh level before use. *)
Definition add_to_book (b : OrderBookImpl) (order : Order) : OrderBookImpl :=
  let lv := levels (side order) b in
  let level := match lv !! price order with
               | Some l => l
               | None => Level.create (price order)
               end in
  let b1 := set_levels (side order)
                       (<[price order := Level.add_order level order]> lv) b in
  set_order_map (<[order_id order := order]> (order_map_ b1)) b1.

Definition add_order (b : OrderBookImpl) (order : Order)
  : list Trade * OrderBookImpl :=
  if (quantity order =? 0) || (price order <=? 0) then ([], b)
  else
    match order_map_ b !! order_id order with
    | Some _ => ([], b)
    | None =>
        let '(b1, order_ptr, trades) :=
          match side order with
          | BUY => match_buy_order b order
          | SELL => match_sell_order b order
          end in
        let b2 := if 0 <? quantity order_ptr then add_to_book b1 order_ptr else b1 in
        (trades, b2)
    end.

Definition cancel_order (b : OrderBookImpl) (id : Z) : bool * OrderBookImpl :=
  match order_map_ b !! id with
  | None => (false, b)
  | Some order =>
      let b1 := set_order_map (delete id (order_map_ b)) b in
      let lv := levels (side order) b1 in
      let lv' :=
        match lv !! price order with
        | None => lv
        | Some level =>
            let level' := snd (Level.remove_order level id) in
            if Level.empty level' then delete (price order) lv
            else <[price order := level']> lv
        end in
      (true, set_levels (side order) lv' b1)
  end.

(** [now] is the steady-clock reading stored in the new order. *)
Definition modify_order (b : OrderBookImpl) (id new_price new_quantity now : Z)
  : option Order * OrderBookImpl :=
  match order_map_ b !! id with
  | None => (None, b)
  | Some old_order =>
      let '(cancelled, b1) := cancel_order b id in
      if negb cancelled then (None, b1)
      else
        let new_order :=
          with_timestamp_ns
            (with_quantity (with_price old_order new_price) new_quantity) now in
        let '(_, b2) := add_order b1 new_order in
        (Some new_order, b2)
  end.

Definition best_bid (b : OrderBookImpl) : option Z :=
  fst <$> map_begin (key_before BUY) (buy_levels_ b).

Definition best_ask (b : OrderBookImpl) : option Z :=
  fst <$> map_begin (key_before SELL) (sell_levels_ b).

Definition volume_at_price (b : OrderBookImpl) (price : Z) (side : Side) : Z :=
  match levels side b !! price with
  | Some l => Level.volume l
  | None => 0
  end.

(** The level's [size_t] count is returned as a [uint32_t]. *)
Definition order_count_at_price (b : OrderBookImpl) (price : Z) (side : Side) : Z :=
  match levels side b !! price with
  | Some l => u32 (Z.of_nat (Level.order_count l))
  | None => 0
  end.

Definition book_total_orders (b : OrderBookImpl) : nat := size (order_map_ b).

Definition clear (b : OrderBookImpl) : OrderBookImpl :=
  mkBook (symbol_id_ b) ∅ ∅ ∅ (next_trade_id_ b).


(** ** MatchingEngineImpl (worker side) *)

(** The counters are [std::atomic<uint64_t>]; [fetch_add] wraps. *)
Record MatchingEngineStats := mkStats {
  total_orders : Z;
  total_trades : Z;
  total_volume : Z;
  rejected_orders : Z;
  cancelled_orders : Z;
  modified_orders : Z
}.

(** One invocation of a callback, with its arguments. *)
Inductive CallbackEvent :=
| OrderCallback (order : Order) (accepted : bool)
| TradeCallback (trade : Trade).

(** The state the worker thread owns.  A callback field is [true] when the
    [std::function] holds a target; the calls made are returned as the list
    of events, in call order. *)
Record MatchingEngineImpl := mkEngine {
  order_books_ : gmap Z OrderBookImpl;
  stats_ : MatchingEngineStats;
  trade_callback_ : bool;
  order_callback_ : bool
}.

Definition set_stats (st : MatchingEngineStats) (e : MatchingEngineImpl)
  : MatchingEngineImpl :=
  mkEngine (order_books_ e) st (trade_callback_ e) (order_callback_ e).

Definition set_order_books (m : gmap Z OrderBookImpl) (e : MatchingEngineImpl)
  : MatchingEngineImpl :=
  mkEngine m (stats_ e) (trade_callback_ e) (order_callback_ e).

Definition add_total_orders (n : Z) (st : MatchingEngineStats) :=
  mkStats (u64 (total_orders st + n)) (total_trades st) (total_volume st)
          (rejected_orders st) (cancelled_orders st) (modified_orders st).
Definition add_total_trades (n : Z) (st : MatchingEngineStats) :=
  mkStats (total_orders st) (u64 (total_trades st + n)) (total_volume st)
          (rejected_orders st) (cancelled_orders st) (modified_orders st).
Definition add_total_volume (n : Z) (st : MatchingEngineStats) :=
  mkStats (total_orders st) (total_trades st) (u64 (total_volume st + n))
          (rejected_orders st) (cancelled_orders st) (modified_orders st).
Definition add_rejected_orders (n : Z) (st : MatchingEngineStats) :=
  mkStats (total_orders st) (total_trades st) (total_volume st)
          (u64 (rejected_orders st + n)) (cancelled_orders st) (modified_orders st).
Definition add_cancelled_orders (n : Z) (st : MatchingEngineStats) :=
  mkStats (total_orders st) (total_trades st) (total_volume st)
          (rejected_orders st) (u64 (cancelled_orders st + n)) (modified_orders st).
Definition add_modified_orders (n : Z) (st : MatchingEngineStats) :=
  mkStats (total_orders st) (total_trades st) (total_volume st)
          (rejected_orders st) (cancelled_orders st) (u64 (modified_orders st + n)).

(** The [for] loop over the generated trades in [process_new_order]. *)
Fixpoint process_trades (trade_callback : bool) (trades : list Trade)
    (st : MatchingEngineStats) : MatchingEngineStats * list CallbackEvent :=
  match trades with
  | [] => (st, [])
  | trade :: rest =>
      let st1 := add_total_volume (trade_quantity trade) (add_total_trades 1 st) in
      let ev := if trade_callback then [TradeCallback trade] else [] in
      let '(st2, evs) := process_trades trade_callback rest st1 in
      (st2, ev ++ evs)
  end.

Definition process_new_order (e : MatchingEngineImpl) (order : Order)
  : MatchingEngineImpl * list CallbackEvent :=
  let e1 := set_stats (add_total_orders 1 (stats_ e)) e in
  match order_books_ e1 !! symbol_id order with
  | None =>
      let e2 := set_stats (add_rejected_orders 1 (stats_ e1)) e1 in
      (e2, if order_callback_ e2 then [OrderCallback order false] else [])
  | Some book =>
      let '(trades, book') := add_order book order in
      let e2 := set_order_books (<[symbol_id order := book']> (order_books_ e1)) e1 in
      let ev := if order_callback_ e2 then [OrderCallback order true] else [] in
      let '(st, evs) := process_trades (trade_callback_ e2) trades (stats_ e2) in
      (set_stats st e2, ev ++ evs)
  end.

Definition process_cancel_order (e : MatchingEngineImpl) (symbol_id order_id : Z)
  : MatchingEngineImpl :=
  match order_books_ e !! symbol_id with
  | None => e
  | Some book =>
      let '(cancelled, book') := cancel_order book order_id in
      let e1 := set_order_books (<[symbol_id := book']> (order_books_ e)) e in
      if cancelled then set_stats (add_cancelled_orders 1 (stats_ e1)) e1 else e1
  end.

Definition process_modify_order (e : MatchingEngineImpl)
    (symbol_id order_id new_price new_quantity now : Z) : MatchingEngineImpl :=
  match order_books_ e !! symbol_id with
  | None => e
  | Some book =>
      let '(modified, book') :=
        modify_order book order_id new_price new_quantity now in
      let e1 := set_order_books (<[symbol_id := book']> (order_books_ e)) e in
      match modified with
      | Some _ => set_stats (add_modified_orders 1 (stats_ e1)) e1
      | None => e1
      end
  end.

Inductive OrderRequest :=
| NEW_ORDER (order : Order)
| CANCEL_ORDER (symbol_id order_id : Z)
| MODIFY_ORDER (symbol_id order_id new_price new_quantity : Z).

(** [now] is the clock reading a modification would store. *)
Definition process_order_request (e : MatchingEngineImpl) (now : Z)
    (request : OrderRequest) : MatchingEngineImpl * list CallbackEvent :=
  match request with
  | NEW_ORDER order => process_new_order e order
  | CANCEL_ORDER symbol_id order_id => (process_cancel_order e symbol_id order_id, [])
  | MODIFY_ORDER symbol_id order_id new_price new_quantity =>
      (process_modify_order e symbol_id order_id new_price new_quantity now, [])
  end.

(** [MatchingEngineImpl()] and [register_symbol]. *)
Definition MatchingEngineImpl_new : MatchingEngineImpl :=
  mkEngine ∅ (mkStats 0 0 0 0 0 0) false false.

Definition register_symbol (e : MatchingEngineImpl) (symbol_id : Z)
  : bool * MatchingEngineImpl :=
  match order_books_ e !! symbol_id with
  | Some _ => (false, e)
  | None =>
      (true, set_order_books (<[symbol_id := OrderBookImpl_new symbol_id]>
                                (order_books_ e)) e)
  end.

Definition set_trade_callback (e : MatchingEngineImpl) : MatchingEngineImpl :=
  mkEngine (order_books_ e) (stats_ e) true (order_callback_ e).

Definition set_order_callback (e : MatchingEngineImpl) : MatchingEngineImpl :=
  mkEngine (order_books_ e) (stats_ e) (trade_callback_ e) true.

(** ** SPSCQueue<T> (utils/spsc_queue.hpp), used from one thread at a time *)

(** Nodes live in a heap indexed by addresses.  An operation returns [None]
    when it dereferences an address that holds no node, which is undefined
    behaviour in the source. *)
Module SPSCQueue.
Section Queue.
Context {T : Type}.

Record Node := mkNode {
  next : option nat;   (* nullptr is [None] *)
  data : T
}.

Record t := mkQueue {
  heap : gmap nat Node;
  head_ : nat;
  tail_ : nat;
  cached_head_ : nat;   (* read and written by [dequeue] *)
  cached_tail_ : nat    (* read and written by [enqueue] *)
}.

(** [new Node(...)]: an address that holds no node yet. *)
Definition alloc (h : gmap nat Node) (n : Node) : nat * gmap nat Node :=
  let p := fresh (dom h) in (p, <[p := n]> h).

(** [SPSCQueue()]; [default_value] is [T()], the payload of the dummy. *)
Definition create (default_value : T) : t :=
  let '(dummy, h) := alloc ∅ (mkNode None default_value) in
  mkQueue h dummy dummy dummy dummy.

Definition enqueue (q : t) (value : T) : option (bool * t) :=
  let '(new_node, h1) := alloc (heap q) (mkNode None value) in
  (* cached_tail_->next.store(new_node) *)
  match h1 !! cached_tail_ q with
  | None => None
  | Some tl =>
      let h2 := <[cached_tail_ q := mkNode (Some new_node) (data tl)]> h1 in
      Some (true, mkQueue h2 (head_ q) new_node (cached_head_ q) new_node)
  end.

(** The end of [dequeue], from "Read data before updating head" on. *)
Definition take (q : t) (head next : nat) : option (option T * t) :=
  match heap q !! next with
  | None => None
  | Some n =>
      Some (Some (data n),
            mkQueue (delete head (heap q)) next (tail_ q) next (cached_tail_ q))
  end.

Definition dequeue (q : t) : option (option T * t) :=
  let head := cached_head_ q in
  match heap q !! head with
  | None => None
  | Some hn =>
      match next hn with
      | Some next => take q head next
      | None =>
          let head := head_ q in
          if decide (head = cached_head_ q) then Some (None, q)
          else
            let q1 := mkQueue (heap q) (head_ q) (tail_ q) head (cached_tail_ q) in
            match heap q !! head with
            | None => None
            | Some hn =>
                match next hn with
                | None => Some (None, q1)
                | Some next => take q1 head next
                end
            end
      end
  end.

Definition empty (q : t) : option bool :=
  match heap q !! head_ q with
  | None => None
  | Some hn => Some (match next hn with None => true | Some _ => false end)
  end.

(** The loop of [size_approx], entered with [current] not null; [count] is
    a [size_t]. *)
Fixpoint size_approx_loop (fuel : nat) (h : gmap nat Node) (current : nat)
    (count : Z) : option Z :=
  match fuel with
  | O => None
  | S fuel' =>
      match h !! current with
      | None => None
      | Some n =>
          match next n with
          | None => Some count
          | Some nx => size_approx_loop fuel' h nx (u64 (count + 1))
          end
      end
  end.

Definition size_approx (fuel : nat) (q : t) : option Z :=
  size_approx_loop fuel (heap q) (head_ q) 0.



End Queue.
Arguments Node : clear implicits.
Arguments t : clear implicits.
End SPSCQueue.

(** ** network/market_data.hpp and network/arbitrage_detector.hpp *)

(** [static_cast<double>] of an [int64_t]: the nearest binary64, ties to
    even.  [of_uint63] does this for 0 .. 2^63 - 1; negative values go
    through their magnitude, and -2^63 is a power of two. *)
Definition int64_to_double (x : Z) : float :=
  if 0 <=? x then of_uint63 (Uint63.of_Z x)
  else if x =? - 2 ^ 63 then (- 9223372036854775808)%float
  else (- of_uint63 (Uint63.of_Z (- x)))%float.

(** Two's-complement wrap of an [int64_t] result, and [std::abs] on it. *)
Definition s64 (x : Z) : Z := (x + 2 ^ 63) mod 2 ^ 64 - 2 ^ 63.
Definition abs64 (x : Z) : Z := s64 (Z.abs x).

Record Quote := mkQuote {
  quote_symbol_id : Z;         (* uint64_t *)
  bid_price : Z;               (* int64_t *)
  ask_price : Z;               (* int64_t *)
  bid_size : Z;                (* uint32_t *)
  ask_size : Z;                (* uint32_t *)
  quote_timestamp_ns : Z;      (* uint64_t *)
  quote_sequence_number : Z;   (* uint64_t *)
  feed_id : ascii              (* 'A' or 'B' *)
}.

Record ArbitrageOpportunity := mkOpportunity {
  opp_symbol_id : Z;
  fast_feed : ascii;
  slow_feed : ascii;
  price_difference : Z;        (* int64_t *)
  latency_difference_ns : Z;   (* uint64_t *)
  opp_timestamp_ns : Z;        (* uint64_t *)
  feed_a_bid : Z;              (* int64_t *)
  feed_a_ask : Z;
  feed_b_bid : Z;
  feed_b_ask : Z
}.

(** In the first branch both prices are positive and [feed_b_bid] is the
    larger, so the [int64_t] subtraction is exact; likewise in the second. *)
Definition profit_basis_points (o : ArbitrageOpportunity) : float :=
  if (0 <? feed_a_ask o) && (0 <? feed_b_bid o) && (feed_a_ask o <? feed_b_bid o)
  then
    (int64_to_double (feed_b_bid o - feed_a_ask o)
     / int64_to_double (feed_a_ask o) * int64_to_double 10000)%float
  else if (0 <? feed_b_ask o) && (0 <? feed_a_bid o)
          && (feed_b_ask o <? feed_a_bid o)
  then
    (int64_to_double (feed_a_bid o - feed_b_ask o)
     / int64_to_double (feed_b_ask o) * int64_to_double 10000)%float
  else 0%float.

Definition is_profitable (o : ArbitrageOpportunity) : bool :=
  PrimFloat.ltb 0 (profit_basis_points o).

Record ArbitrageStats := mkArbitrageStats {
  opportunities_detected : Z;    (* uint64_t *)
  profitable_opportunities : Z;
  missed_opportunities : Z;
  total_profit_bps : float;
  max_latency_diff_ns : Z;
  total_latency_diff_ns : Z
}.

Definition record_opportunity (st : ArbitrageStats) (opp : ArbitrageOpportunity)
  : ArbitrageStats :=
  let profitable := is_profitable opp in
  mkArbitrageStats
    (u64 (opportunities_detected st + 1))
    (if profitable then u64 (profitable_opportunities st + 1)
     else profitable_opportunities st)
    (missed_opportunities st)
    (if profitable then (total_profit_bps st + profit_basis_points opp)%float
     else total_profit_bps st)
    (Z.max (max_latency_diff_ns st) (latency_difference_ns opp))
    (u64 (total_latency_diff_ns st + latency_difference_ns opp)).

Record SymbolState := mkSymbolState {
  feed_a_quote : Quote;
  feed_b_quote : Quote;
  has_feed_a : bool;
  has_feed_b : bool
}.

Definition update_quote (state : SymbolState) (feed : ascii) (quote : Quote)
  : SymbolState :=
  if Ascii.eqb feed "A"
  then mkSymbolState quote (feed_b_quote state) true (has_feed_b state)
  else mkSymbolState (feed_a_quote state) quote (has_feed_a state) true.

Definition has_both_feeds (state : SymbolState) : bool :=
  has_feed_a state && has_feed_b state.

(** The part of the detector that quotes touch (the mutex and the trade
    timestamps are left out).  [arbitrage_callback_] is [true] when a
    callback is set; the opportunities passed to it are returned. *)
Record ArbitrageDetector := mkDetector {
  symbol_states_ : gmap Z SymbolState;
  recent_opportunities_ : list ArbitrageOpportunity;
  arbitrage_stats_ : ArbitrageStats;
  arbitrage_callback_ : bool
}.

(** [now] is the clock reading stored in a recorded opportunity. *)
Definition check_arbitrage (d : ArbitrageDetector) (symbol_id : Z)
    (state : SymbolState) (now : Z)
  : ArbitrageDetector * list ArbitrageOpportunity :=
  let a := feed_a_quote state in
  let b := feed_b_quote state in
  let has_opportunity :=
    if (0 <? ask_price a) && (0 <? bid_price b) && (ask_price a <? bid_price b)
    then true
    else if (0 <? ask_price b) && (0 <? bid_price a)
            && (ask_price b <? bid_price a)
    then true
    else false in
  let bid_diff := abs64 (s64 (bid_price a - bid_price b)) in
  let ask_diff := abs64 (s64 (ask_price a - ask_price b)) in
  if (0 <? bid_diff) || (0 <? ask_diff) || has_opportunity then
    let a_first := quote_timestamp_ns a <? quote_timestamp_ns b in
    let opp :=
      mkOpportunity symbol_id
        (if a_first then "A" else "B")%char
        (if a_first then "B" else "A")%char
        (Z.max bid_diff ask_diff)
        (if a_first then quote_timestamp_ns b - quote_timestamp_ns a
         else quote_timestamp_ns a - quote_timestamp_ns b)
        now
        (bid_price a) (ask_price a) (bid_price b) (ask_price b) in
    let recent := recent_opportunities_ d ++ [opp] in
    let recent := if (1000 <? length recent)%nat then tail recent else recent in
    (mkDetector (symbol_states_ d) recent
                (record_opportunity (arbitrage_stats_ d) opp)
                (arbitrage_callback_ d),
     if arbitrage_callback_ d then [opp] else [])
  else (d, []).

Definition process_quote (d : ArbitrageDetector) (feed : ascii) (quote : Quote)
    (now : Z) : ArbitrageDetector * list ArbitrageOpportunity :=
  let zero_quote := mkQuote 0 0 0 0 0 0 0 "000"%char in
  let state0 :=
    match symbol_states_ d !! quote_symbol_id quote with
    | Some st => st
    | None => mkSymbolState zero_quote zero_quote false false
    end in
  let state := update_quote state0 feed quote in
  let d1 := mkDetector (<[quote_symbol_id quote := state]> (symbol_states_ d))
                       (recent_opportunities_ d) (arbitrage_stats_ d)
                       (arbitrage_callback_ d) in
  if has_both_feeds state
  then check_arbitrage d1 (quote_symbol_id quote) state now
  else (d1, []).

Definition ArbitrageDetector_new : ArbitrageDetector :=
  mkDetector ∅ [] (mkArbitrageStats 0 0 0 0%float 0 0) false.

(** ** MatchingEngineImpl (caller side and worker loop) *)

(** [unregister_symbol] clears the book, then erases its entry. *)
Definition unregister_symbol (e : MatchingEngineImpl) (symbol_id : Z)
  : bool * MatchingEngineImpl :=
  match order_books_ e !! symbol_id with
  | None => (false, e)
  | Some book =>
      let books1 := <[symbol_id := clear book]> (order_books_ e) in
      (true, set_order_books (delete symbol_id books1) e)
  end.

(** [nullptr] is [None]. *)
Definition get_order_book (e : MatchingEngineImpl) (symbol_id : Z)
  : option OrderBookImpl :=
  order_books_ e !! symbol_id.

Definition get_stats (e : MatchingEngineImpl) : MatchingEngineStats := stats_ e.

Definition clear_all_books (e : MatchingEngineImpl) : MatchingEngineImpl :=
  set_order_books (clear <$> order_books_ e) e.

(** The engine with its request queue and its [running_] flag.  Each queue
    operation and each turn of the worker is taken as one atomic step. *)
Record EngineState := mkEngineState {
  impl_ : MatchingEngineImpl;
  order_queue_ : SPSCQueue.t OrderRequest;
  running_ : bool
}.

(** What a call of the public interface does: it returns, it throws
    [std::runtime_error], or it dereferences a dangling node of the queue. *)
Inductive Outcome (A : Type) :=
| Returned (a : A)
| RuntimeError
| Undefined.
Arguments Returned {A} a.
Arguments RuntimeError {A}.
Arguments Undefined {A}.

(** [while (!order_queue_.enqueue(std::move(request))) yield();] *)
Fixpoint enqueue_retry (fuel : nat) (q : SPSCQueue.t OrderRequest)
    (request : OrderRequest) : option (SPSCQueue.t OrderRequest) :=
  match fuel with
  | O => None
  | S fuel' =>
      match SPSCQueue.enqueue q request with
      | None => None
      | Some (true, q') => Some q'
      | Some (false, q') => enqueue_retry fuel' q' request
      end
  end.

(** The body shared by [submit_order], [cancel_order] and [modify_order]
    of the engine, which differ in the request they build. *)
Definition submit_request (fuel : nat) (s : EngineState) (request : OrderRequest)
  : Outcome EngineState :=
  if negb (running_ s) then RuntimeError
  else
    match enqueue_retry fuel (order_queue_ s) request with
    | None => Undefined
    | Some q' => Returned (mkEngineState (impl_ s) q' (running_ s))
    end.

Definition submit_order (fuel : nat) (s : EngineState) (order : Order)
  : Outcome EngineState :=
  submit_request fuel s (NEW_ORDER order).

Definition engine_cancel_order (fuel : nat) (s : EngineState)
    (symbol_id order_id : Z) : Outcome EngineState :=
  submit_request fuel s (CANCEL_ORDER symbol_id order_id).

Definition engine_modify_order (fuel : nat) (s : EngineState)
    (symbol_id order_id new_price new_quantity : Z) : Outcome EngineState :=
  submit_request fuel s (MODIFY_ORDER symbol_id order_id new_price new_quantity).

(** [start]: [running_.exchange(true)] and the launch of the worker. *)
Definition start (s : EngineState) : Outcome EngineState :=
  if running_ s then RuntimeError
  else Returned (mkEngineState (impl_ s) (order_queue_ s) true).

Definition is_running (s : EngineState) : bool := running_ s.

(** One turn of the first loop of [worker_loop], entered while [running_]
    holds; [now] is the clock reading a modification would store. *)
Definition worker_turn (s : EngineState) (now : Z)
  : option (EngineState * list CallbackEvent) :=
  match SPSCQueue.dequeue (order_queue_ s) with
  | None => None
  | Some (None, q') => Some (mkEngineState (impl_ s) q' (running_ s), [])
  | Some (Some request, q') =>
      let '(e', events) := process_order_request (impl_ s) now request in
      Some (mkEngineState e' q' (running_ s), events)
  end.

(** The second loop of [worker_loop], "process remaining orders before
    shutdown"; [clock k] is the clock reading of its [k]-th turn. *)
Fixpoint drain (fuel : nat) (clock : nat → Z) (q : SPSCQueue.t OrderRequest)
    (e : MatchingEngineImpl)
  : option (SPSCQueue.t OrderRequest * MatchingEngineImpl * list CallbackEvent) :=
  match fuel with
  | O => None
  | S fuel' =>
      match SPSCQueue.dequeue q with
      | None => None
      | Some (None, q') => Some (q', e, [])
      | Some (Some request, q') =>
          let '(e', events) := process_order_request e (clock O) request in
          match drain fuel' (λ k, clock (S k)) q' e' with
          | None => None
          | Some (q'', e'', events') => Some (q'', e'', events ++ events')
          end
      end
  end.

(** [stop]: [running_.exchange(false)], then the join, during which the
    worker leaves its first loop and runs the second. *)
Definition stop (fuel : nat) (clock : nat → Z) (s : EngineState)
  : option (EngineState * list CallbackEvent) :=
  if negb (running_ s) then Some (s, [])
  else
    match drain fuel clock (order_queue_ s) (impl_ s) with
    | None => None
    | Some (q', e', events) => Some (mkEngineState e' q' false, events)
    end.

(** [create_matching_engine()]; [default_request] is the payload of the
    queue's dummy node. *)
Definition create_matching_engine (default_request : OrderRequest) : EngineState :=
  mkEngineState MatchingEngineImpl_new (SPSCQueue.create default_request) false.

(** ** MPMCQueue<T, Size> (utils/mpmc_queue.hpp), used from one thread at a time *)

(** The difference of two [intptr_t]; signed overflow is undefined
    behaviour, which is [None]. *)
Definition intptr_sub (a b : Z) : option Z :=
  let d := a - b in
  if (- 2 ^ 63 <=? d) && (d <? 2 ^ 63) then Some d else None.

Module MPMCQueue.
Section Queue.
Context {T : Type}.
(** The template parameter; the [static_assert] wants a power of two. *)
Variable Size : Z.

Record Cell := mkCell {
  sequence : Z;   (* size_t *)
  data : T
}.

Record t := mkQueue {
  buffer_ : list Cell;
  enqueue_pos_ : Z;   (* size_t *)
  dequeue_pos_ : Z    (* size_t *)
}.

Definition MASK : Z := u64 (Size - 1).

(** [buffer_[pos & MASK]] *)
Definition index (pos : Z) : nat := Z.to_nat (Z.land pos MASK).

(** [MPMCQueue()]; [default_value] is [T()], the payload of a fresh cell. *)
Definition create (default_value : T) : t :=
  mkQueue ((λ i, mkCell (Z.of_nat i) default_value) <$> seq 0 (Z.to_nat Size)) 0 0.

(** The [for (;;)] of [try_enqueue].  With one thread the
    compare-exchange fails only if [pos] is stale; a failed exchange
    reloads [pos]. *)
Fixpoint try_enqueue_loop (fuel : nat) (q : t) (pos : Z) (value : T)
  : option (bool * t) :=
  match fuel with
  | O => None
  | S fuel' =>
      match buffer_ q !! index pos with
      | None => None
      | Some cell =>
          match intptr_sub (s64 (sequence cell)) (s64 pos) with
          | None => None
          | Some diff =>
              if diff =? 0 then
                if enqueue_pos_ q =? pos then
                  let cell' := mkCell (u64 (pos + 1)) value in
                  Some (true,
                        mkQueue (<[index pos := cell']> (buffer_ q))
                                (u64 (pos + 1)) (dequeue_pos_ q))
                else try_enqueue_loop fuel' q (enqueue_pos_ q) value
              else if diff <? 0 then Some (false, q)
              else try_enqueue_loop fuel' q (enqueue_pos_ q) value
          end
      end
  end.

Definition try_enqueue (fuel : nat) (q : t) (value : T) : option (bool * t) :=
  try_enqueue_loop fuel q (enqueue_pos_ q) value.

(** The [for (;;)] of [try_dequeue].  The cell keeps its payload after
    [std::move]. *)
Fixpoint try_dequeue_loop (fuel : nat) (q : t) (pos : Z) : option (option T * t) :=
  match fuel with
  | O => None
  | S fuel' =>
      match buffer_ q !! index pos with
      | None => None
      | Some cell =>
          match intptr_sub (s64 (sequence cell)) (s64 (u64 (pos + 1))) with
          | None => None
          | Some diff =>
              if diff =? 0 then
                if dequeue_pos_ q =? pos then
                  let cell' := mkCell (u64 (pos + Size)) (data cell) in
                  Some (Some (data cell),
                        mkQueue (<[index pos := cell']> (buffer_ q))
                                (enqueue_pos_ q) (u64 (pos + 1)))
                else try_dequeue_loop fuel' q (dequeue_pos_ q)
              else if diff <? 0 then Some (None, q)
              else try_dequeue_loop fuel' q (dequeue_pos_ q)
          end
      end
  end.

Definition try_dequeue (fuel : nat) (q : t) : option (option T * t) :=
  try_dequeue_loop fuel q (dequeue_pos_ q).

(** [enqueue(value, max_retries)]; the pause between attempts changes
    nothing. *)
Fixpoint enqueue (fuel : nat) (q : t) (value : T) (max_retries : nat)
  : option (bool * t) :=
  match max_retries with
  | O => Some (false, q)
  | S retries =>
      match try_enqueue fuel q value with
      | None => None
      | Some (true, q') => Some (true, q')
      | Some (false, q') => enqueue fuel q' value retries
      end
  end.

(** [dequeue(max_retries)] *)
Fixpoint dequeue (fuel : nat) (q : t) (max_retries : nat) : option (option T * t) :=
  match max_retries with
  | O => Some (None, q)
  | S retries =>
      match try_dequeue fuel q with
      | None => None
      | Some (Some v, q') => Some (Some v, q')
      | Some (None, q') => dequeue fuel q' retries
      end
  end.

Definition empty (q : t) : bool := enqueue_pos_ q =? dequeue_pos_ q.

Definition size_approx (q : t) : Z :=
  Z.land (u64 (enqueue_pos_ q - dequeue_pos_ q)) MASK.


End Queue.
Arguments Cell : clear implicits.
Arguments t : clear implicits.
End MPMCQueue.

(** ** core/order.hpp: the member functions of [Order] *)

Definition is_buy (o : Order) : bool := bool_decide (side o = BUY).

Definition is_sell (o : Order) : bool := bool_decide (side o = SELL).

Definition remaining_quantity (o : Order) : Z :=
  u32 (quantity o - executed_quantity o).

Definition is_filled (o : Order) : bool := quantity o <=? executed_quantity o.

Definition can_match (o other : Order) : bool :=
  if negb (symbol_id o =? symbol_id other) then false
  else if bool_decide (side o = side other) then false
  else if is_buy o then price other <=? price o
  else price o <=? price other.

(** [execute]: [executed_quantity += fill_quantity], then the status. *)
Definition execute (o : Order) (fill_quantity : Z) : Order :=
  let o1 :=
    mkOrder (order_id o) (symbol_id o) (price o) (quantity o)
            (u32 (executed_quantity o + fill_quantity))
            (timestamp_ns o) (client_id o) (sequence_number o) (side o)
            (type o) (status o) (tif o) in
  mkOrder (order_id o1) (symbol_id o1) (price o1) (quantity o1)
          (executed_quantity o1)
          (timestamp_ns o1) (client_id o1) (sequence_number o1) (side o1)
          (type o1) (if is_filled o1 then FILLED else PARTIALLY_FILLED) (tif o1).

(** ** network/arbitrage_detector.hpp: the readers of the detector *)

Definition set_arbitrage_callback (d : ArbitrageDetector) : ArbitrageDetector :=
  mkDetector (symbol_states_ d) (recent_opportunities_ d) (arbitrage_stats_ d) true.

Definition get_arbitrage_stats (d : ArbitrageDetector) : ArbitrageStats :=
  arbitrage_stats_ d.

Definition get_recent_opportunities (d : ArbitrageDetector) (count : nat)
  : list ArbitrageOpportunity :=
  let size := length (recent_opportunities_ d) in
  let start := if (count <? size)%nat then (size - count)%nat else O in
  drop start (recent_opportunities_ d).

(** ** network/market_data.hpp: [FeedStats] *)

Record FeedStats := mkFeedStats {
  messages_received : Z;   (* uint64_t *)
  messages_dropped : Z;
  latency_sum_ns : Z;
  latency_min_ns : Z;
  latency_max_ns : Z;
  jitter_events : Z;
  last_sequence : Z;
  last_update : Z          (* time_point, as its count *)
}.

Definition UINT64_MAX : Z := 2 ^ 64 - 1.

Definition FeedStats_new : FeedStats := mkFeedStats 0 0 0 UINT64_MAX 0 0 0 0.

Definition update_latency (st : FeedStats) (latency_ns : Z) : FeedStats :=
  mkFeedStats (u64 (messages_received st + 1)) (messages_dropped st)
              (u64 (latency_sum_ns st + latency_ns))
              (Z.min (latency_min_ns st) latency_ns)
              (Z.max (latency_max_ns st) latency_ns)
              (jitter_events st) (last_sequence st) (last_update st).

(** ** core/orderbook.hpp: [MarketDataSnapshot] *)

Record MarketDataSnapshot := mkSnapshot {
  snapshot_symbol_id : Z;
  snapshot_best_bid : option Z;
  snapshot_best_ask : option Z;
  bid_volume : Z;   (* uint32_t, volume at the best bid *)
  ask_volume : Z;
  bid_orders : Z;   (* uint32_t, number of orders at the best bid *)
  ask_orders : Z;
  snapshot_timestamp_ns : Z
}.

(** [MarketDataSnapshot(book)]; [now] is the clock reading it stores. *)
Definition MarketDataSnapshot_new (book : OrderBookImpl) (now : Z)
  : MarketDataSnapshot :=
  let bid := best_bid book in
  let ask := best_ask book in
  mkSnapshot (symbol_id_ book) bid ask
    (match bid with Some p => volume_at_price book p BUY | None => 0 end)
    (match ask with Some p => volume_at_price book p SELL | None => 0 end)
    (match bid with Some p => order_count_at_price book p BUY | None => 0 end)
    (match ask with Some p => order_count_at_price book p SELL | None => 0 end)
    now.

(** ** Sample data *)

Definition sell_1 := Order_new 1 1 100 10 SELL 0 0.
Definition sell_2 := Order_new 2 1 100 15 SELL 0 0.
Definition sell_3 := Order_new 3 1 101 20 SELL 0 0.
Definition buy_4 := Order_new 4 1 101 30 BUY 0 0.
Definition buy_5 := Order_new 5 1 99 10 BUY 0 0.
Definition buy_6 := Order_new 6 1 100 10 BUY 0 0.
Definition buy_7_no_quantity := Order_new 7 1 100 0 BUY 0 0.

(** The book of symbol 1 after [add_order] of each order of [os] in turn. *)
Definition book_after (os : list Order) : OrderBookImpl :=
  foldl (λ b o, snd (add_order b o)) (OrderBookImpl_new 1) os.

(** An engine with symbol 1 registered and both callbacks set. *)
Definition engine_1 : MatchingEngineImpl :=
  set_order_callback
    (set_trade_callback (snd (register_symbol MatchingEngineImpl_new 1))).

(** The two-feed quotes of the specification's scenarios 7 and 8. *)
Definition quote_a := mkQuote 1 10000 10010 100 100 1000 1 "A".
Definition quote_b_crossed := mkQuote 1 10020 10030 100 100 2000 1 "B".
Definition quote_b_disparity := mkQuote 1 9990 10005 100 100 2000 1 "B".

Definition opportunity_crossed : ArbitrageOpportunity :=
  mkOpportunity 1 "A" "B" 20 1000 0 10000 10010 10020 10030.

Definition opportunity_disparity : ArbitrageOpportunity :=
  mkOpportunity 1 "A" "B" 10 1000 0 10000 10010 9990 10005.
(** * Properties *)

(** ** Machine integers *)

Lemma u32_range x : 0 ≤ u32 x < 2 ^ 32.
Proof. unfold u32. apply Z.mod_pos_bound. lia. Qed.

Lemma u32_small x : 0 ≤ x < 2 ^ 32 → u32 x = x.
Proof. intros. unfold u32. apply Z.mod_small. lia. Qed.

Lemma u32_add_sub x y : 0 ≤ x < 2 ^ 32 → u32 (u32 (x + y) - y) = x.
Proof.
  intros Hx. unfold u32.
  rewrite Zminus_mod_idemp_l. replace (x + y - y) with x by lia.
  apply Z.mod_small. lia.
Qed.

(** ** [begin()] of a level map *)

(** [key_le s k k']: [k] is not after [k'] in the order of side [s]'s map. *)
Definition key_le (s : Side) (k k' : Z) : Prop :=
  match s with BUY => k' ≤ k | SELL => k ≤ k' end.

Section MapBegin.
Context {V : Type}.
Implicit Types (m : gmap Z V).

Lemma map_begin_inv s m :
  match map_begin (key_before s) m with
  | None => m = ∅
  | Some (k, v) => m !! k = Some v ∧ ∀ k', is_Some (m !! k') → key_le s k k'
  end.
Proof.
  unfold map_begin.
  apply (map_fold_weak_ind
           (λ r m, match r with
                   | None => m = ∅
                   | Some (k, v) =>
                       m !! k = Some v ∧ ∀ k', is_Some (m !! k') → key_le s k k'
                   end)); [done|].
  intros i x m' r Hi IH. destruct r as [[k v]|].
  - destruct IH as [Hk Hmin].
    assert (i ≠ k) by congruence.
    destruct (key_before s i k) eqn:Hb.
    + split; [apply lookup_insert_eq|].
      intros k' Hk'. destruct (decide (k' = i)) as [->|Hne].
      * destruct s; simpl; lia.
      * rewrite lookup_insert_ne in Hk' by done.
        specialize (Hmin k' Hk'). destruct s; simpl in *; lia.
    + split; [by rewrite lookup_insert_ne|].
      intros k' Hk'. destruct (decide (k' = i)) as [->|Hne].
      * destruct s; simpl in *; lia.
      * rewrite lookup_insert_ne in Hk' by done. auto.
  - subst m'. split; [apply lookup_insert_eq|].
    intros k' Hk'. destruct (decide (k' = i)) as [->|Hne].
    + destruct s; simpl; lia.
    + rewrite lookup_insert_ne, lookup_empty in Hk' by done.
      by destruct Hk'.
Qed.

Lemma map_begin_Some s m k v :
  map_begin (key_before s) m = Some (k, v) →
  m !! k = Some v ∧ ∀ k', is_Some (m !! k') → key_le s k k'.
Proof. intros H. pose proof (map_begin_inv s m) as Hi. by rewrite H in Hi. Qed.

Lemma map_begin_None s m : map_begin (key_before s) m = None → m = ∅.
Proof. intros H. pose proof (map_begin_inv s m) as Hi. by rewrite H in Hi. Qed.

Lemma map_begin_empty s : map_begin (key_before s) (∅ : gmap Z V) = None.
Proof. unfold map_begin. apply map_fold_empty. Qed.
End MapBegin.

(** ** Accessors *)

Lemma levels_set_levels s m b : levels s (set_levels s m b) = m.
Proof. by destruct s. Qed.

Lemma levels_set_levels_opp s m b :
  levels s (set_levels (opposite s) m b) = levels s b.
Proof. by destruct s. Qed.

Lemma levels_set_levels_opp' s m b :
  levels (opposite s) (set_levels s m b) = levels (opposite s) b.
Proof. by destruct s. Qed.

Lemma opposite_involutive s : opposite (opposite s) = s.
Proof. by destruct s. Qed.

Lemma opposite_ne s : opposite s ≠ s.
Proof. by destruct s. Qed.

(** ** The weight that bounds the matching loop *)

Lemma levels_weight_empty : levels_weight ∅ = O.
Proof. unfold levels_weight. apply map_fold_empty. Qed.

Lemma levels_weight_delete m k l :
  m !! k = Some l →
  levels_weight m = S (length (orders_ l) + levels_weight (delete k m))%nat.
Proof.
  intros Hk. unfold levels_weight.
  rewrite (map_fold_delete_L _ _ k l m); [done| |done].
  intros; lia.
Qed.

Lemma levels_weight_insert m k l l' :
  m !! k = Some l →
  levels_weight (<[k := l']> m)
  = S (length (orders_ l') + levels_weight (delete k m))%nat.
Proof.
  intros Hk. rewrite <- insert_delete_eq. unfold levels_weight.
  rewrite map_fold_insert_L; [done| |apply lookup_delete_eq].
  intros; lia.
Qed.

(** ** Case analysis of one turn of the matching loop *)

(** The book after a turn that fills the resting order [resting] completely,
    and after a turn that fills it partially. *)
Definition after_full_fill (s : Side) (b : OrderBookImpl) (best_price : Z)
    (best_level : PriceLevelImpl) (resting : Order) (rest : list Order) (m : Z)
  : OrderBookImpl :=
  let lv := levels (opposite s) b in
  set_levels (opposite s)
    (match rest with
     | [] => delete best_price lv
     | _ => <[best_price := mkLevel (price_ best_level) rest
                                    (u32 (total_volume_ best_level - m))]> lv
     end)
    (set_order_map (delete (order_id resting) (order_map_ b))
                   (set_next_trade_id (u64 (next_trade_id_ b + 1)) b)).

Definition after_partial_fill (s : Side) (b : OrderBookImpl) (best_price : Z)
    (best_level : PriceLevelImpl) (resting : Order) (rest : list Order) (m : Z)
  : OrderBookImpl :=
  let lv := levels (opposite s) b in
  let resting' := with_quantity resting (u32 (quantity resting - m)) in
  set_levels (opposite s)
    (<[best_price := mkLevel (price_ best_level) (resting' :: rest)
                             (u32 (total_volume_ best_level - m))]> lv)
    (set_order_map (alter (λ _, resting') (order_id resting) (order_map_ b))
                   (set_next_trade_id (u64 (next_trade_id_ b + 1)) b)).

Inductive iteration_case (s : Side) (b : OrderBookImpl) (o : Order)
  : OrderBookImpl → Order → list Trade → Prop :=
| it_empty_level best_price best_level :
    0 < quantity o →
    map_begin (key_before (opposite s)) (levels (opposite s) b)
      = Some (best_price, best_level) →
    no_match s (price o) best_price = false →
    orders_ best_level = [] →
    iteration_case s b o
      (set_levels (opposite s) (delete best_price (levels (opposite s) b)) b) o []
| it_full_fill best_price best_level resting rest :
    let m := Z.min (quantity o) (quantity resting) in
    0 < quantity o →
    map_begin (key_before (opposite s)) (levels (opposite s) b)
      = Some (best_price, best_level) →
    no_match s (price o) best_price = false →
    orders_ best_level = resting :: rest →
    u32 (quantity resting - m) = 0 →
    iteration_case s b o
      (after_full_fill s b best_price best_level resting rest m)
      (with_quantity o (u32 (quantity o - m)))
      [Trade_new (next_trade_id_ b) o resting best_price m]
| it_partial_fill best_price best_level resting rest :
    let m := Z.min (quantity o) (quantity resting) in
    0 < quantity o →
    map_begin (key_before (opposite s)) (levels (opposite s) b)
      = Some (best_price, best_level) →
    no_match s (price o) best_price = false →
    orders_ best_level = resting :: rest →
    u32 (quantity resting - m) ≠ 0 →
    iteration_case s b o
      (after_partial_fill s b best_price best_level resting rest m)
      (with_quantity o (u32 (quantity o - m)))
      [Trade_new (next_trade_id_ b) o resting best_price m].

Lemma match_iteration_Some s b o b' o' ts :
  match_iteration s b o = Some (b', o', ts) → iteration_case s b o b' o' ts.
Proof.
  unfold match_iteration.
  destruct (0 <? quantity o) eqn:Hq; simpl; [|done].
  apply Z.ltb_lt in Hq.
  destruct (map_begin _ _) as [[best_price best_level]|] eqn:Hbegin; [|done].
  destruct (no_match s (price o) best_price) eqn:Hnm; [done|].
  unfold Level.peek_front.
  destruct (orders_ best_level) as [|resting rest] eqn:Horders; simpl.
  { intros [= <- <- <-]. by eapply it_empty_level. }
  destruct (u32 (quantity resting - Z.min (quantity o) (quantity resting)) =? 0)
    eqn:Hfull.
  - apply Z.eqb_eq in Hfull. intros [= <- <- <-].
    replace (set_levels _ _ _)
      with (after_full_fill s b best_price best_level resting rest
              (Z.min (quantity o) (quantity resting))).
    { by eapply it_full_fill. }
    unfold after_full_fill, Level.remove_front_after_fill, Level.write_front,
      Level.empty. rewrite Horders; simpl.
    rewrite delete_alter_eq. destruct s, rest; reflexivity.
  - apply Z.eqb_neq in Hfull. intros [= <- <- <-].
    replace (set_levels _ _ _)
      with (after_partial_fill s b best_price best_level resting rest
              (Z.min (quantity o) (quantity resting))).
    { by eapply it_partial_fill. }
    unfold after_partial_fill, Level.update_volume_after_partial_fill,
      Level.write_front. rewrite Horders; simpl.
    destruct s; reflexivity.
Qed.

Lemma match_iteration_no_quantity s b o :
  quantity o ≤ 0 → match_iteration s b o = None.
Proof.
  intros Hq. unfold match_iteration.
  destruct (0 <? quantity o) eqn:E; [apply Z.ltb_lt in E; lia|done].
Qed.

Lemma match_iteration_no_levels s b o :
  levels (opposite s) b = ∅ → match_iteration s b o = None.
Proof.
  intros He. unfold match_iteration. rewrite He, map_begin_empty.
  by destruct (negb _).
Qed.

(** What is known when the loop is left. *)
Lemma match_iteration_None s b o :
  match_iteration s b o = None →
  quantity o ≤ 0 ∨ levels (opposite s) b = ∅ ∨
  ∃ best_price best_level,
    map_begin (key_before (opposite s)) (levels (opposite s) b)
      = Some (best_price, best_level) ∧
    no_match s (price o) best_price = true.
Proof.
  unfold match_iteration.
  destruct (0 <? quantity o) eqn:Hq; simpl.
  2:{ apply Z.ltb_ge in Hq. auto. }
  destruct (map_begin _ _) as [[best_price best_level]|] eqn:Hbegin.
  2:{ apply map_begin_None in Hbegin. auto. }
  destruct (no_match s (price o) best_price) eqn:Hnm.
  { intros _. right; right. eauto. }
  destruct (Level.peek_front best_level); [|done].
  simpl. by destruct (_ =? 0).
Qed.

(** ** Termination of the matching loop *)

Lemma iteration_progress s b o b' o' ts :
  iteration_case s b o b' o' ts →
  (levels_weight (levels (opposite s) b') < levels_weight (levels (opposite s) b))%nat
  ∨ quantity o' = 0.
Proof.
  destruct 1 as [p l Hq Hb Hn Ho | p l r rest m Hq Hb Hn Ho Hf
                | p l r rest m Hq Hb Hn Ho Hf];
    apply map_begin_Some in Hb as [Hl _].
  - left. rewrite levels_set_levels, (levels_weight_delete _ _ _ Hl). lia.
  - left. unfold after_full_fill. rewrite levels_set_levels.
    rewrite (levels_weight_delete _ _ _ Hl), Ho.
    destruct rest; simpl.
    + lia.
    + rewrite (levels_weight_insert _ _ _ _ Hl); simpl. lia.
  - right. simpl. subst m.
    destruct (Z.min_spec (quantity o) (quantity r)) as [[_ ->]|[_ E]].
    + by rewrite Z.sub_diag.
    + rewrite E, Z.sub_diag in Hf. by destruct Hf.
Qed.

Lemma match_loop_exit s fuel : ∀ b o acc b' o' ts,
  (levels_weight (levels (opposite s) b) ≤ fuel)%nat →
  match_loop s fuel b o acc = (b', o', ts) →
  match_iteration s b' o' = None.
Proof.
  induction fuel as [|fuel IH]; intros b o acc b' o' ts Hw; simpl.
  - intros [= <- <- <-]. apply match_iteration_no_levels.
    destruct (map_begin (key_before (opposite s)) (levels (opposite s) b))
      as [[k l]|] eqn:Hb.
    + apply map_begin_Some in Hb as [Hl _].
      rewrite (levels_weight_delete _ _ _ Hl) in Hw. lia.
    + by apply map_begin_None in Hb.
  - destruct (match_iteration s b o) as [[[b1 o1] ts1]|] eqn:Hit.
    2:{ by intros [= <- <- <-]. }
    destruct (iteration_progress _ _ _ _ _ _ (match_iteration_Some _ _ _ _ _ _ Hit))
      as [Hlt|Hz].
    + apply IH. lia.
    + intros Hloop.
      assert (Hn : match_iteration s b1 o1 = None)
        by (apply match_iteration_no_quantity; lia).
      destruct fuel; simpl in Hloop; [|rewrite Hn in Hloop];
        by injection Hloop as <- <- <-.
Qed.

(** The loop of [add_order] always runs to its exit. *)
Lemma match_loop_fuel_exit s b o b' o' ts :
  match_loop s (match_fuel s b) b o [] = (b', o', ts) →
  match_iteration s b' o' = None.
Proof. apply match_loop_exit. unfold match_fuel. lia. Qed.

(** ** Invariants of the matching loop *)

Lemma match_loop_invariant (P : OrderBookImpl → Order → list Trade → Prop) s :
  (∀ b o acc b' o' ts,
      P b o acc → iteration_case s b o b' o' ts → P b' o' (acc ++ ts)) →
  ∀ fuel b o acc b' o' ts,
    P b o acc → match_loop s fuel b o acc = (b', o', ts) → P b' o' ts.
Proof.
  intros Hstep. induction fuel as [|fuel IH]; intros b o acc b' o' ts HP; simpl.
  - by intros [= <- <- <-].
  - destruct (match_iteration s b o) as [[[b1 o1] ts1]|] eqn:Hit.
    + apply IH. eapply Hstep; [done|]. by apply match_iteration_Some.
    + by intros [= <- <- <-].
Qed.

Lemma levels_set_order_map s m b : levels s (set_order_map m b) = levels s b.
Proof. by destruct s. Qed.

Lemma levels_set_next_trade_id s n b : levels s (set_next_trade_id n b) = levels s b.
Proof. by destruct s. Qed.

Lemma levels_set_levels_ne s s' m b :
  s' ≠ s → levels s' (set_levels s m b) = levels s' b.
Proof. by destruct s, s'. Qed.

Lemma levels_after_full_fill_same s b p l r rest m :
  levels s (after_full_fill s b p l r rest m) = levels s b.
Proof.
  unfold after_full_fill.
  by rewrite levels_set_levels_opp, levels_set_order_map, levels_set_next_trade_id.
Qed.

Lemma levels_after_partial_fill_same s b p l r rest m :
  levels s (after_partial_fill s b p l r rest m) = levels s b.
Proof.
  unfold after_partial_fill.
  by rewrite levels_set_levels_opp, levels_set_order_map, levels_set_next_trade_id.
Qed.

(** A turn leaves the aggressor's side alone and only removes price levels
    from the other side. *)
Lemma iteration_same_side s b o b' o' ts :
  iteration_case s b o b' o' ts → levels s b' = levels s b.
Proof.
  destruct 1.
  - apply levels_set_levels_opp.
  - apply levels_after_full_fill_same.
  - apply levels_after_partial_fill_same.
Qed.

Lemma iteration_opposite_keys s b o b' o' ts k :
  iteration_case s b o b' o' ts →
  is_Some (levels (opposite s) b' !! k) → is_Some (levels (opposite s) b !! k).
Proof.
  destruct 1 as [p l Hq Hb Hn Ho | p l r rest m Hq Hb Hn Ho Hf
                | p l r rest m Hq Hb Hn Ho Hf];
    apply map_begin_Some in Hb as [Hl _].
  - rewrite levels_set_levels, lookup_delete_is_Some. tauto.
  - unfold after_full_fill. rewrite levels_set_levels.
    destruct rest.
    + rewrite lookup_delete_is_Some. tauto.
    + rewrite lookup_insert_is_Some. intros [<-|[_ ?]]; eauto.
  - unfold after_partial_fill. rewrite levels_set_levels.
    rewrite lookup_insert_is_Some. intros [<-|[_ ?]]; eauto.
Qed.

Lemma iteration_incoming s b o b' o' ts :
  iteration_case s b o b' o' ts →
  order_id o' = order_id o ∧ price o' = price o ∧ side o' = side o ∧
  symbol_id o' = symbol_id o.
Proof. by destruct 1. Qed.

Lemma match_loop_incoming s fuel b o acc b' o' ts :
  match_loop s fuel b o acc = (b', o', ts) →
  order_id o' = order_id o ∧ price o' = price o ∧ side o' = side o ∧
  symbol_id o' = symbol_id o.
Proof.
  apply (match_loop_invariant
           (λ _ o1 _, order_id o1 = order_id o ∧ price o1 = price o ∧
                      side o1 = side o ∧ symbol_id o1 = symbol_id o)); [|done].
  intros ?????? (?&?&?&?) Hc. apply iteration_incoming in Hc.
  destruct Hc as (->&->&->&->). done.
Qed.

Lemma match_loop_same_side s fuel b o acc b' o' ts :
  match_loop s fuel b o acc = (b', o', ts) → levels s b' = levels s b.
Proof.
  apply (match_loop_invariant (λ b1 _ _, levels s b1 = levels s b)); [|done].
  intros ?????? <- Hc. by apply iteration_same_side in Hc.
Qed.

Lemma match_loop_opposite_keys s fuel b o acc b' o' ts k :
  match_loop s fuel b o acc = (b', o', ts) →
  is_Some (levels (opposite s) b' !! k) → is_Some (levels (opposite s) b !! k).
Proof.
  apply (match_loop_invariant
           (λ b1 _ _, is_Some (levels (opposite s) b1 !! k) →
                      is_Some (levels (opposite s) b !! k))); [|done].
  intros ?????? IH Hc ?. eapply IH, iteration_opposite_keys; done.
Qed.

(** ** The book is never crossed *)

Definition no_cross (b : OrderBookImpl) : Prop :=
  ∀ pb pa, is_Some (buy_levels_ b !! pb) → is_Some (sell_levels_ b !! pa) → pb < pa.

(** [side_lt s k k']: a price [k] of side [s] is strictly on its own side of
    a price [k'] of the other side. *)
Definition side_lt (s : Side) (k k' : Z) : Prop :=
  match s with BUY => k < k' | SELL => k' < k end.

Lemma no_cross_side s b :
  no_cross b ↔
  ∀ k k', is_Some (levels s b !! k) → is_Some (levels (opposite s) b !! k') →
          side_lt s k k'.
Proof. unfold no_cross. destruct s; simpl; split; intros H ??; auto. Qed.

Lemma no_cross_shrink b b' :
  (∀ s k, is_Some (levels s b' !! k) → is_Some (levels s b !! k)) →
  no_cross b → no_cross b'.
Proof.
  intros Hk Hb pb pa Hpb Hpa. apply Hb.
  - apply (Hk BUY), Hpb.
  - apply (Hk SELL), Hpa.
Qed.

Lemma no_cross_new sym : no_cross (OrderBookImpl_new sym).
Proof. intros pb pa [? H]. simpl in H. by rewrite lookup_empty in H. Qed.

Lemma no_cross_clear b : no_cross (clear b).
Proof. intros pb pa [? H]. simpl in H. by rewrite lookup_empty in H. Qed.

Lemma cancel_order_keys b id s k :
  is_Some (levels s (snd (cancel_order b id)) !! k) → is_Some (levels s b !! k).
Proof.
  unfold cancel_order. destruct (order_map_ b !! id) as [order|]; simpl; [|done].
  destruct (decide (s = side order)) as [->|Hne].
  2:{ by rewrite levels_set_levels_ne, levels_set_order_map. }
  rewrite levels_set_levels, levels_set_order_map.
  destruct (levels (side order) b !! price order) as [level|] eqn:Hl; [|done].
  destruct (Level.empty _).
  - rewrite lookup_delete_is_Some. tauto.
  - rewrite lookup_insert_is_Some. intros [<-|[_ ?]]; eauto.
Qed.

Lemma no_cross_cancel b id : no_cross b → no_cross (snd (cancel_order b id)).
Proof. apply no_cross_shrink. intros s k. apply cancel_order_keys. Qed.

(** When the loop is left with quantity to rest, the incoming price does
    not reach any price of the other side. *)
Lemma loop_exit_no_reach s b o k' :
  match_iteration s b o = None → 0 < quantity o →
  is_Some (levels (opposite s) b !! k') → side_lt s (price o) k'.
Proof.
  intros Hn Hq Hk'. apply match_iteration_None in Hn as [?|[He|Hn]]; [lia| |].
  - rewrite He, lookup_empty in Hk'. by destruct Hk'.
  - destruct Hn as (best & l & Hb & Hm).
    apply map_begin_Some in Hb as [_ Hmin]. specialize (Hmin k' Hk').
    destruct s; simpl in *; lia.
Qed.

Lemma add_to_book_keys b o s k :
  is_Some (levels s (add_to_book b o) !! k) →
  (s = side o ∧ k = price o) ∨ is_Some (levels s b !! k).
Proof.
  unfold add_to_book. rewrite levels_set_order_map.
  destruct (decide (s = side o)) as [->|Hne].
  - rewrite levels_set_levels, lookup_insert_is_Some. intros [<-|[_ ?]]; auto.
  - rewrite levels_set_levels_ne by done. auto.
Qed.

Lemma no_cross_add_to_book b o :
  no_cross b →
  (∀ k', is_Some (levels (opposite (side o)) b !! k') → side_lt (side o) (price o) k') →
  no_cross (add_to_book b o).
Proof.
  intros Hb Ho. apply (no_cross_side (side o)). intros k k' Hk Hk'.
  apply add_to_book_keys in Hk', Hk.
  destruct Hk' as [[Hs _]|Hk']; [by destruct (side o)|].
  destruct Hk as [[_ ->]|Hk]; [by apply Ho|].
  by apply (no_cross_side (side o) b).
Qed.

Lemma match_loop_no_cross s fuel b o acc b' o' ts :
  match_loop s fuel b o acc = (b', o', ts) → no_cross b → no_cross b'.
Proof.
  intros Hloop. apply no_cross_shrink. intros s' k.
  destruct (decide (s' = s)) as [->|Hne].
  - by rewrite (match_loop_same_side _ _ _ _ _ _ _ _ Hloop).
  - replace s' with (opposite s) by (by destruct s, s').
    by apply (match_loop_opposite_keys _ _ _ _ _ _ _ _ _ Hloop).
Qed.

(** [add_order] seen as the loop of the order's side followed by the
    conditional [add_to_book]. *)
Lemma add_order_accepted b o :
  quantity o ≠ 0 → 0 < price o → order_map_ b !! order_id o = None →
  ∃ b1 o1 ts,
    match_loop (side o) (match_fuel (side o) b) b o [] = (b1, o1, ts) ∧
    add_order b o = (ts, if 0 <? quantity o1 then add_to_book b1 o1 else b1).
Proof.
  intros Hq Hp Hid. unfold add_order.
  destruct (quantity o =? 0) eqn:E1; [apply Z.eqb_eq in E1; lia|].
  destruct (price o <=? 0) eqn:E2; [apply Z.leb_le in E2; lia|].
  rewrite Hid. cbn [orb]. unfold match_buy_order, match_sell_order.
  destruct (side o);
    destruct (match_loop _ _ b o []) as [[b1 o1] ts]; by exists b1, o1, ts.
Qed.

Lemma add_order_rejected_eq b o :
  quantity o = 0 ∨ price o ≤ 0 ∨ is_Some (order_map_ b !! order_id o) →
  add_order b o = ([], b).
Proof.
  intros H. unfold add_order.
  destruct (quantity o =? 0) eqn:E1; [done|].
  destruct (price o <=? 0) eqn:E2; [done|].
  apply Z.eqb_neq in E1. apply Z.leb_gt in E2.
  destruct H as [?|[?|[x Hx]]]; [lia..|]. by rewrite Hx.
Qed.

Lemma add_order_cases b o :
  add_order b o = ([], b) ∨
  (quantity o ≠ 0 ∧ 0 < price o ∧ order_map_ b !! order_id o = None).
Proof.
  destruct (decide (quantity o = 0)); [left; apply add_order_rejected_eq; auto|].
  destruct (decide (price o ≤ 0)); [left; apply add_order_rejected_eq; auto|].
  destruct (order_map_ b !! order_id o) eqn:E;
    [left; apply add_order_rejected_eq; rewrite E; eauto|].
  right. repeat split; [done|lia].
Qed.

Lemma no_cross_add b o : no_cross b → no_cross (snd (add_order b o)).
Proof.
  intros Hb. destruct (add_order_cases b o) as [->|(Hq & Hp & Hid)]; [done|].
  destruct (add_order_accepted b o Hq Hp Hid) as (b1 & o1 & ts & Hloop & ->).
  simpl. pose proof (match_loop_no_cross _ _ _ _ _ _ _ _ Hloop Hb) as Hb1.
  destruct (0 <? quantity o1) eqn:Hq1; [|done].
  apply Z.ltb_lt in Hq1.
  apply no_cross_add_to_book; [done|].
  destruct (match_loop_incoming _ _ _ _ _ _ _ _ Hloop) as (_ & _ & Hs & _).
  rewrite Hs. intros k'. apply loop_exit_no_reach; [|done].
  by apply (match_loop_fuel_exit _ _ _ _ _ _ Hloop).
Qed.

Lemma modify_order_eq b id new_price new_quantity now :
  modify_order b id new_price new_quantity now =
  match order_map_ b !! id with
  | None => (None, b)
  | Some old_order =>
      let new_order :=
        with_timestamp_ns
          (with_quantity (with_price old_order new_price) new_quantity) now in
      (Some new_order, snd (add_order (snd (cancel_order b id)) new_order))
  end.
Proof.
  unfold modify_order.
  destruct (order_map_ b !! id) as [old|] eqn:Hid; [|done].
  unfold cancel_order at 1. rewrite Hid. simpl.
  unfold cancel_order. rewrite Hid. simpl.
  by destruct (add_order _ _).
Qed.

Lemma no_cross_modify b id np nq now :
  no_cross b → no_cross (snd (modify_order b id np nq now)).
Proof.
  intros Hb. rewrite modify_order_eq.
  destruct (order_map_ b !! id); [|done]. simpl.
  by apply no_cross_add, no_cross_cancel.
Qed.

(** ** The representation invariant of the book *)

(** The quantity of an order is a [uint32_t]. *)
Definition order_typed (o : Order) : Prop := 0 ≤ quantity o < 2 ^ 32.

(** A level stored under key [p] on side [s]: it has that price, is not
    empty, holds each order id once, and every queued order is a live order
    of that side and price which [order_map_] resolves by its id. *)
Record wf_level (b : OrderBookImpl) (s : Side) (p : Z) (l : PriceLevelImpl)
  : Prop := {
  wl_price : price_ l = p;
  wl_nonempty : orders_ l ≠ [];
  wl_volume : 0 ≤ total_volume_ l < 2 ^ 32;
  wl_nodup : NoDup (order_id <$> orders_ l);
  wl_orders : ∀ o, o ∈ orders_ l →
    order_map_ b !! order_id o = Some o ∧ side o = s ∧ price o = p ∧
    0 < quantity o < 2 ^ 32
}.

(** Every level is well formed, and every indexed order is filed under its
    own id and queued in the level of its side and price. *)
Record wf_book (b : OrderBookImpl) : Prop := {
  wf_levels : ∀ s p l, levels s b !! p = Some l → wf_level b s p l;
  wf_index : ∀ id o, order_map_ b !! id = Some o →
    order_id o = id ∧
    ∃ l, levels (side o) b !! price o = Some l ∧ o ∈ orders_ l
}.

Lemma wf_book_new sym : wf_book (OrderBookImpl_new sym).
Proof.
  split.
  - intros s p l H. destruct s; simpl in H; by rewrite lookup_empty in H.
  - intros id o H. simpl in H. by rewrite lookup_empty in H.
Qed.

Lemma wf_book_clear b : wf_book (clear b).
Proof.
  split.
  - intros s p l H. destruct s; simpl in H; by rewrite lookup_empty in H.
  - intros id o H. simpl in H. by rewrite lookup_empty in H.
Qed.

Lemma wf_level_index_eq b b' s p l :
  wf_level b s p l →
  (∀ o, o ∈ orders_ l → order_map_ b' !! order_id o = order_map_ b !! order_id o) →
  wf_level b' s p l.
Proof.
  intros [] Heq. split; try done.
  intros o Ho. rewrite (Heq o Ho). auto.
Qed.

(** A change of the book that touches one level, [(t, p)], and one entry of
    the index, [rid], keeps the invariant when that level and that entry
    are consistent afterwards. *)
Lemma wf_book_update b b' t p rid :
  wf_book b →
  (∀ s k, (s, k) ≠ (t, p) → levels s b' !! k = levels s b !! k) →
  (∀ id, id ≠ rid → order_map_ b' !! id = order_map_ b !! id) →
  (∀ o, order_map_ b !! rid = Some o → side o = t ∧ price o = p) →
  (∀ l', levels t b' !! p = Some l' → wf_level b' t p l') →
  (∀ o, order_map_ b' !! rid = Some o →
        order_id o = rid ∧
        ∃ l, levels (side o) b' !! price o = Some l ∧ o ∈ orders_ l) →
  (∀ o l, order_id o ≠ rid → levels t b !! p = Some l → o ∈ orders_ l →
          ∃ l', levels t b' !! p = Some l' ∧ o ∈ orders_ l') →
  wf_book b'.
Proof.
  intros [Hlv Hix] Hl Hm Hloc Hnew Hrid Hkeep. split.
  - intros s k l' Hl'. destruct (decide ((s, k) = (t, p))) as [[= -> ->]|Hne].
    { by apply Hnew. }
    rewrite Hl in Hl' by done. apply Hlv in Hl'.
    eapply wf_level_index_eq; [done|]. intros o Ho. apply Hm. intros Hr.
    destruct (wl_orders _ _ _ _ Hl' o Ho) as (Ho1 & Hs & Hp & _).
    rewrite Hr in Ho1. destruct (Hloc _ Ho1). congruence.
  - intros id o Ho. destruct (decide (id = rid)) as [->|Hne].
    { by apply Hrid. }
    rewrite Hm in Ho by done. destruct (Hix _ _ Ho) as [Hid (l & Hl0 & Hin)].
    split; [done|].
    destruct (decide ((side o, price o) = (t, p))) as [[= Hs Hp]|Hne'].
    + rewrite Hs, Hp in *. eapply Hkeep; [congruence|done..].
    + exists l. by rewrite Hl.
Qed.

(** *** [Level.remove_order] *)

Definition not_id (id : Z) (o : Order) : Prop := order_id o ≠ id.

#[global] Instance not_id_dec id o : Decision (not_id id o).
Proof. unfold not_id. apply _. Defined.

Lemma remove_order_loop_spec id orders : ∀ temp_queue tv found,
  Level.remove_order_loop id orders temp_queue tv found
  = (temp_queue ++ filter (not_id id) orders,
     foldl (λ v o, if order_id o =? id then u32 (v - quantity o) else v) tv orders,
     found || existsb (λ o, order_id o =? id) orders).
Proof.
  induction orders as [|o orders IH]; intros temp_queue tv found; simpl.
  - by rewrite app_nil_r, orb_false_r.
  - rewrite filter_cons.
    destruct (order_id o =? id) eqn:E.
    + apply Z.eqb_eq in E. rewrite IH.
      rewrite decide_False by (unfold not_id; tauto).
      by rewrite orb_true_r.
    + apply Z.eqb_neq in E. rewrite IH.
      rewrite decide_True by (unfold not_id; done).
      by rewrite <- app_assoc.
Qed.

Lemma remove_order_orders l id :
  orders_ (snd (Level.remove_order l id)) = filter (not_id id) (orders_ l).
Proof. unfold Level.remove_order. by rewrite remove_order_loop_spec. Qed.

Lemma remove_order_price l id : price_ (snd (Level.remove_order l id)) = price_ l.
Proof. unfold Level.remove_order. by rewrite remove_order_loop_spec. Qed.

Lemma remove_volume_range id orders : ∀ tv,
  0 ≤ tv < 2 ^ 32 →
  0 ≤ foldl (λ v o, if order_id o =? id then u32 (v - quantity o) else v) tv orders
    < 2 ^ 32.
Proof.
  induction orders as [|o orders IH]; intros tv Htv; simpl; [done|].
  apply IH. destruct (_ =? _); [apply u32_range|done].
Qed.

Lemma remove_order_volume_range l id :
  0 ≤ total_volume_ l < 2 ^ 32 →
  0 ≤ total_volume_ (snd (Level.remove_order l id)) < 2 ^ 32.
Proof.
  unfold Level.remove_order. rewrite remove_order_loop_spec. simpl.
  apply remove_volume_range.
Qed.

Lemma NoDup_fmap_filter {A B} (f : A → B) (P : A → Prop)
    `{!∀ x, Decision (P x)} (l : list A) :
  NoDup (f <$> l) → NoDup (f <$> filter P l).
Proof.
  induction l as [|x l IH]; [done|]. rewrite filter_cons, fmap_cons.
  rewrite NoDup_cons. intros [Hx Hl]. destruct (decide (P x)); [|auto].
  rewrite fmap_cons, NoDup_cons. split; [|auto].
  rewrite list_elem_of_fmap in Hx |- *. intros (y & Hy & Hin).
  apply list_elem_of_filter in Hin as [_ Hin]. eauto.
Qed.

Lemma level_empty_false l : Level.empty l = false ↔ orders_ l ≠ [].
Proof. unfold Level.empty. by destruct (orders_ l). Qed.

Lemma level_empty_true l : Level.empty l = true ↔ orders_ l = [].
Proof. unfold Level.empty. by destruct (orders_ l). Qed.

(** *** [cancel_order] *)

Lemma order_map_set_levels s m b : order_map_ (set_levels s m b) = order_map_ b.
Proof. by destruct s. Qed.

Lemma wf_book_cancel b id : wf_book b → wf_book (snd (cancel_order b id)).
Proof.
  intros Hwf. unfold cancel_order.
  destruct (order_map_ b !! id) as [order|] eqn:Hid; [|done]. simpl.
  destruct (wf_index _ Hwf _ _ Hid) as [Hoid (l & Hl & Hin)].
  rewrite levels_set_order_map, Hl.
  pose proof (wf_levels _ Hwf _ _ _ Hl) as Hwl.
  apply (wf_book_update b _ (side order) (price order) id); [done|..].
  - intros s k Hne. destruct (decide (s = side order)) as [->|Hs].
    + rewrite levels_set_levels.
      assert (price order ≠ k) by congruence.
      destruct (Level.empty _);
        by rewrite ?lookup_delete_ne, ?lookup_insert_ne by done.
    + by rewrite levels_set_levels_ne, levels_set_order_map.
  - intros id' Hne. rewrite order_map_set_levels. simpl.
    by rewrite lookup_delete_ne.
  - intros o Ho. by simplify_eq.
  - intros l'. rewrite levels_set_levels.
    destruct (Level.empty _) eqn:He.
    { by rewrite lookup_delete_eq. }
    rewrite lookup_insert_eq. intros [= <-].
    apply level_empty_false in He. destruct Hwl. split.
    + by rewrite remove_order_price.
    + done.
    + by apply remove_order_volume_range.
    + rewrite remove_order_orders. by apply NoDup_fmap_filter.
    + intros o. rewrite remove_order_orders, list_elem_of_filter.
      intros [Hne Ho]. rewrite order_map_set_levels. simpl.
      rewrite lookup_delete_ne by (unfold not_id in Hne; congruence). auto.
  - intros o. rewrite order_map_set_levels. simpl. by rewrite lookup_delete_eq.
  - intros o l0 Hne Hl0 Ho. rewrite Hl in Hl0. injection Hl0 as <-.
    rewrite levels_set_levels.
    assert (Hin' : o ∈ orders_ (snd (Level.remove_order l id))).
    { rewrite remove_order_orders, list_elem_of_filter. done. }
    destruct (Level.empty _) eqn:He.
    { apply level_empty_true in He. rewrite He in Hin'. by apply elem_of_nil in Hin'. }
    rewrite lookup_insert_eq. eauto.
Qed.

(** *** [add_to_book] *)

Lemma wf_book_add_to_book b o :
  wf_book b → order_map_ b !! order_id o = None → 0 < quantity o < 2 ^ 32 →
  wf_book (add_to_book b o).
Proof.
  intros Hwf Hid Hq. unfold add_to_book.
  apply (wf_book_update b _ (side o) (price o) (order_id o)); [done|..].
  - intros s k Hne. rewrite levels_set_order_map.
    destruct (decide (s = side o)) as [->|Hs].
    + rewrite levels_set_levels. rewrite lookup_insert_ne; [done|congruence].
    + by rewrite levels_set_levels_ne.
  - intros id' Hne. simpl. rewrite order_map_set_levels.
    by rewrite lookup_insert_ne.
  - intros o'. by rewrite Hid.
  - intros l'. rewrite levels_set_order_map, levels_set_levels, lookup_insert_eq.
    intros [= <-]. simpl. rewrite order_map_set_levels.
    assert (Hold : ∀ l o', levels (side o) b !! price o = Some l → o' ∈ orders_ l →
                   order_id o' ≠ order_id o).
    { intros l o' Hl Ho' Heq.
      destruct (wl_orders _ _ _ _ (wf_levels _ Hwf _ _ _ Hl) o' Ho') as [Hm _].
      congruence. }
    split; simpl.
    + destruct (levels (side o) b !! price o) as [l|] eqn:Hl; [|done].
      apply (wl_price _ _ _ _ (wf_levels _ Hwf _ _ _ Hl)).
    + by destruct (orders_ _).
    + apply u32_range.
    + rewrite fmap_app, NoDup_app. simpl. split_and!.
      * destruct (levels (side o) b !! price o) as [l|] eqn:Hl; [|constructor].
        apply (wl_nodup _ _ _ _ (wf_levels _ Hwf _ _ _ Hl)).
      * intros id'. rewrite list_elem_of_fmap, list_elem_of_singleton.
        intros (o' & -> & Ho') Heq.
        destruct (levels (side o) b !! price o) as [l|] eqn:Hl;
          [|by apply elem_of_nil in Ho'].
        by eapply Hold.
      * apply NoDup_singleton.
    + intros o'. rewrite elem_of_app, list_elem_of_singleton.
      intros [Ho'| ->].
      * destruct (levels (side o) b !! price o) as [l|] eqn:Hl;
          [|by apply elem_of_nil in Ho'].
        rewrite lookup_insert_ne by (apply not_eq_sym; by eapply Hold).
        apply (wl_orders _ _ _ _ (wf_levels _ Hwf _ _ _ Hl) o' Ho').
      * by rewrite lookup_insert_eq.
  - intros o'. simpl. rewrite order_map_set_levels, lookup_insert_eq.
    intros [= <-]. split; [done|].
    rewrite levels_set_order_map, levels_set_levels, lookup_insert_eq.
    eexists; split; [done|]. simpl. rewrite elem_of_app, list_elem_of_singleton.
    by right.
  - intros o' l Hne Hl Ho'.
    rewrite levels_set_order_map, levels_set_levels, lookup_insert_eq, Hl.
    eexists; split; [done|]. simpl. rewrite elem_of_app. by left.
Qed.

(** *** The matching loop *)

Lemma order_map_after_full_fill s b p l r rest m :
  order_map_ (after_full_fill s b p l r rest m) = delete (order_id r) (order_map_ b).
Proof. unfold after_full_fill. by rewrite order_map_set_levels. Qed.

Lemma order_map_after_partial_fill s b p l r rest m :
  order_map_ (after_partial_fill s b p l r rest m)
  = alter (λ _, with_quantity r (u32 (quantity r - m))) (order_id r) (order_map_ b).
Proof. unfold after_partial_fill. by rewrite order_map_set_levels. Qed.

Lemma levels_after_full_fill_opp s b p l r rest m :
  levels (opposite s) (after_full_fill s b p l r rest m)
  = match rest with
    | [] => delete p (levels (opposite s) b)
    | _ => <[p := mkLevel (price_ l) rest (u32 (total_volume_ l - m))]>
             (levels (opposite s) b)
    end.
Proof. unfold after_full_fill. by rewrite levels_set_levels. Qed.

Lemma levels_after_partial_fill_opp s b p l r rest m :
  levels (opposite s) (after_partial_fill s b p l r rest m)
  = <[p := mkLevel (price_ l)
                   (with_quantity r (u32 (quantity r - m)) :: rest)
                   (u32 (total_volume_ l - m))]> (levels (opposite s) b).
Proof. unfold after_partial_fill. by rewrite levels_set_levels. Qed.

Lemma levels_after_full_fill_ne s s' b p l r rest m k :
  (s', k) ≠ (opposite s, p) →
  levels s' (after_full_fill s b p l r rest m) !! k = levels s' b !! k.
Proof.
  intros Hne. destruct (decide (s' = opposite s)) as [->|Hs].
  - rewrite levels_after_full_fill_opp. assert (p ≠ k) by congruence.
    destruct rest; by rewrite ?lookup_delete_ne, ?lookup_insert_ne.
  - replace s' with s by (by destruct s, s').
    by rewrite levels_after_full_fill_same.
Qed.

Lemma levels_after_partial_fill_ne s s' b p l r rest m k :
  (s', k) ≠ (opposite s, p) →
  levels s' (after_partial_fill s b p l r rest m) !! k = levels s' b !! k.
Proof.
  intros Hne. destruct (decide (s' = opposite s)) as [->|Hs].
  - rewrite levels_after_partial_fill_opp. assert (p ≠ k) by congruence.
    by rewrite lookup_insert_ne.
  - replace s' with s by (by destruct s, s').
    by rewrite levels_after_partial_fill_same.
Qed.

(** The resting order at the front of a well-formed level. *)
Lemma wf_front b s p l r rest :
  wf_level b s p l → orders_ l = r :: rest →
  order_map_ b !! order_id r = Some r ∧ side r = s ∧ price r = p ∧
  0 < quantity r < 2 ^ 32 ∧
  (∀ o, o ∈ rest → order_id o ≠ order_id r) ∧
  NoDup (order_id <$> rest).
Proof.
  intros [_ _ _ Hnd Ho] Hl. rewrite Hl in Hnd, Ho.
  destruct (Ho r) as (?&?&?&?); [by left|].
  rewrite fmap_cons, NoDup_cons in Hnd. destruct Hnd as [Hnot Hnd].
  split_and!; try done; try lia.
  intros o Hin Heq. apply Hnot. rewrite <- Heq. by apply list_elem_of_fmap_2.
Qed.

Lemma wf_book_iteration s b o b' o' ts :
  wf_book b → iteration_case s b o b' o' ts → wf_book b'.
Proof.
  intros Hwf.
  destruct 1 as [p l Hq Hb Hn Ho | p l r rest m Hq Hb Hn Ho Hf
                | p l r rest m Hq Hb Hn Ho Hf];
    apply map_begin_Some in Hb as [Hl _];
    pose proof (wf_levels _ Hwf _ _ _ Hl) as Hwl.
  - by destruct (wl_nonempty _ _ _ _ Hwl).
  - destruct (wf_front _ _ _ _ _ _ Hwl Ho) as (Hr & Hs & Hp & Hqr & Hids & Hnd).
    apply (wf_book_update b _ (opposite s) p (order_id r)); [done|..].
    + intros. by apply levels_after_full_fill_ne.
    + intros id Hne. rewrite order_map_after_full_fill.
      by rewrite lookup_delete_ne.
    + intros x Hx. by simplify_eq.
    + intros l'. rewrite levels_after_full_fill_opp.
      destruct rest as [|o1 rest1] eqn:Hrest; [by rewrite lookup_delete_eq|].
      rewrite <- Hrest in *. rewrite lookup_insert_eq. intros [= <-].
      split; simpl.
      * apply (wl_price _ _ _ _ Hwl).
      * by rewrite Hrest.
      * apply u32_range.
      * done.
      * intros x Hx. rewrite order_map_after_full_fill.
        rewrite lookup_delete_ne by (apply not_eq_sym; auto).
        apply (wl_orders _ _ _ _ Hwl). rewrite Ho. by right.
    + intros x. rewrite order_map_after_full_fill. by rewrite lookup_delete_eq.
    + intros x l0 Hne Hl0 Hx. rewrite Hl in Hl0. injection Hl0 as <-.
      rewrite Ho in Hx. apply elem_of_cons in Hx as [->|Hx]; [done|].
      rewrite levels_after_full_fill_opp.
      destruct rest as [|o1 rest1] eqn:Hrest; [by apply elem_of_nil in Hx|].
      rewrite lookup_insert_eq. eauto.
  - destruct (wf_front _ _ _ _ _ _ Hwl Ho) as (Hr & Hs & Hp & Hqr & Hids & Hnd).
    set (r' := with_quantity r (u32 (quantity r - m))) in *.
    apply (wf_book_update b _ (opposite s) p (order_id r)); [done|..].
    + intros. by apply levels_after_partial_fill_ne.
    + intros id Hne. rewrite order_map_after_partial_fill.
      by rewrite lookup_alter_ne.
    + intros x Hx. by simplify_eq.
    + intros l'. rewrite levels_after_partial_fill_opp, lookup_insert_eq.
      intros [= <-]. split; simpl.
      * apply (wl_price _ _ _ _ Hwl).
      * done.
      * apply u32_range.
      * pose proof (wl_nodup _ _ _ _ Hwl) as Hnd'. by rewrite Ho in Hnd'.
      * intros x. rewrite order_map_after_partial_fill, elem_of_cons.
        intros [->|Hx].
        -- simpl. rewrite lookup_alter_eq, Hr. simpl. fold r'.
           split_and!; try done.
           ++ pose proof (u32_range (quantity r - m)). lia.
           ++ apply u32_range.
        -- rewrite lookup_alter_ne by (apply not_eq_sym; auto).
           apply (wl_orders _ _ _ _ Hwl). rewrite Ho. by right.
    + intros x. rewrite order_map_after_partial_fill, lookup_alter_eq, Hr.
      simpl. intros [= <-]. split; [done|]. simpl. rewrite Hs, Hp.
      rewrite levels_after_partial_fill_opp, lookup_insert_eq.
      eexists; split; [done|]. simpl. by left.
    + intros x l0 Hne Hl0 Hx. rewrite Hl in Hl0. injection Hl0 as <-.
      rewrite Ho in Hx. apply elem_of_cons in Hx as [->|Hx]; [done|].
      rewrite levels_after_partial_fill_opp, lookup_insert_eq.
      eexists; split; [done|]. simpl. by right.
Qed.

(** With no empty level in the book, every turn of the loop trades. *)
Lemma wf_iteration_trades s b o b' o' ts :
  wf_book b → iteration_case s b o b' o' ts →
  ∃ p l r rest,
    map_begin (key_before (opposite s)) (levels (opposite s) b) = Some (p, l) ∧
    orders_ l = r :: rest ∧
    no_match s (price o) p = false ∧
    0 < quantity o ∧
    ts = [Trade_new (next_trade_id_ b) o r p (Z.min (quantity o) (quantity r))] ∧
    o' = with_quantity o (u32 (quantity o - Z.min (quantity o) (quantity r))).
Proof.
  intros Hwf.
  destruct 1 as [p l Hq Hb Hn Ho | p l r rest m Hq Hb Hn Ho Hf
                | p l r rest m Hq Hb Hn Ho Hf].
  - apply map_begin_Some in Hb as [Hl _].
    by destruct (wl_nonempty _ _ _ _ (wf_levels _ Hwf _ _ _ Hl)).
  - by exists p, l, r, rest.
  - by exists p, l, r, rest.
Qed.

(** The index only loses entries in a turn, and an entry that stays keeps
    its identity, side and price. *)
Definition same_order (x y : Order) : Prop :=
  order_id x = order_id y ∧ side x = side y ∧ price x = price y.

Lemma iteration_index s b o b' o' ts id x' :
  wf_book b → iteration_case s b o b' o' ts →
  order_map_ b' !! id = Some x' →
  ∃ x, order_map_ b !! id = Some x ∧ same_order x x'.
Proof.
  intros Hwf.
  destruct 1 as [p l Hq Hb Hn Ho | p l r rest m Hq Hb Hn Ho Hf
                | p l r rest m Hq Hb Hn Ho Hf].
  - rewrite order_map_set_levels. intros. by exists x'.
  - rewrite order_map_after_full_fill, lookup_delete_Some.
    intros [_ ?]. by exists x'.
  - apply map_begin_Some in Hb as [Hl _].
    destruct (wf_front _ _ _ _ _ _ (wf_levels _ Hwf _ _ _ Hl) Ho) as (Hr & _).
    rewrite order_map_after_partial_fill, lookup_alter_Some.
    intros [[<- (x & Hx & ->)]|[_ ?]]; [|by exists x'].
    exists r. split; [done|]. by rewrite Hr in Hx.
Qed.

Lemma wf_book_match_loop s fuel b o acc b' o' ts :
  wf_book b → match_loop s fuel b o acc = (b', o', ts) → wf_book b'.
Proof.
  intros Hwf. apply (match_loop_invariant (λ b1 _ _, wf_book b1)); [|done].
  intros. by eapply wf_book_iteration.
Qed.

Lemma match_loop_index s fuel b o acc b' o' ts :
  wf_book b → match_loop s fuel b o acc = (b', o', ts) →
  ∀ id x', order_map_ b' !! id = Some x' →
           ∃ x, order_map_ b !! id = Some x ∧ same_order x x'.
Proof.
  intros Hwf Hloop.
  apply (match_loop_invariant
           (λ b1 _ _, wf_book b1 ∧
                      ∀ id x', order_map_ b1 !! id = Some x' →
                               ∃ x, order_map_ b !! id = Some x ∧ same_order x x')
           s) in Hloop; [by destruct Hloop| |].
  - intros b1 o1 acc1 b2 o2 ts2 [Hwf1 IH] Hc. split.
    { by eapply wf_book_iteration. }
    intros id x2 Hx2.
    destruct (iteration_index _ _ _ _ _ _ _ _ Hwf1 Hc Hx2) as (x1 & Hx1 & E1).
    destruct (IH _ _ Hx1) as (x & Hx & E). exists x. split; [done|].
    unfold same_order in *. intuition congruence.
  - split; [done|]. intros id x' ?. exists x'. by split.
Qed.

(** The quantity left on the incoming order stays a [uint32_t]. *)
Lemma iteration_typed s b o b' o' ts :
  iteration_case s b o b' o' ts → order_typed o → order_typed o'.
Proof. destruct 1; [done|..]; intros _; apply u32_range. Qed.

Lemma match_loop_typed s fuel b o acc b' o' ts :
  order_typed o → match_loop s fuel b o acc = (b', o', ts) → order_typed o'.
Proof.
  intros Ht. apply (match_loop_invariant (λ _ o1 _, order_typed o1)); [|done].
  intros. by eapply iteration_typed.
Qed.

(** *** [add_order], [modify_order] *)

Lemma wf_book_add b o :
  wf_book b → order_typed o → wf_book (snd (add_order b o)).
Proof.
  intros Hwf Ht. destruct (add_order_cases b o) as [->|(Hq & Hp & Hid)]; [done|].
  destruct (add_order_accepted b o Hq Hp Hid) as (b1 & o1 & ts & Hloop & ->).
  simpl. pose proof (wf_book_match_loop _ _ _ _ _ _ _ _ Hwf Hloop) as Hwf1.
  destruct (0 <? quantity o1) eqn:Hq1; [|done]. apply Z.ltb_lt in Hq1.
  apply wf_book_add_to_book; [done| |].
  - destruct (match_loop_incoming _ _ _ _ _ _ _ _ Hloop) as (-> & _).
    destruct (order_map_ b1 !! order_id o) as [x'|] eqn:E; [|done].
    destruct (match_loop_index _ _ _ _ _ _ _ _ Hwf Hloop _ _ E) as (x & Hx & _).
    congruence.
  - pose proof (match_loop_typed _ _ _ _ _ _ _ _ Ht Hloop) as Ht1.
    unfold order_typed in Ht1. lia.
Qed.

Lemma wf_book_modify b id np nq now :
  wf_book b → 0 ≤ nq < 2 ^ 32 → wf_book (snd (modify_order b id np nq now)).
Proof.
  intros Hwf Hnq. rewrite modify_order_eq.
  destruct (order_map_ b !! id); [|done]. simpl.
  apply wf_book_add; [by apply wf_book_cancel|done].
Qed.

(** ** Reachable books *)

(** The states an [OrderBookImpl] object can be in: built by the
    constructor, then changed by the public member functions only. *)
Inductive reachable : OrderBookImpl → Prop :=
| reach_new sym : reachable (OrderBookImpl_new sym)
| reach_add b o : reachable b → order_typed o → reachable (snd (add_order b o))
| reach_cancel b id : reachable b → reachable (snd (cancel_order b id))
| reach_modify b id new_price new_quantity now :
    reachable b → 0 ≤ new_quantity < 2 ^ 32 →
    reachable (snd (modify_order b id new_price new_quantity now))
| reach_clear b : reachable b → reachable (clear b).

Lemma reachable_wf b : reachable b → wf_book b.
Proof.
  induction 1;
    auto using wf_book_new, wf_book_add, wf_book_cancel, wf_book_modify,
      wf_book_clear.
Qed.

Lemma reachable_no_cross b : reachable b → no_cross b.
Proof.
  induction 1;
    auto using no_cross_new, no_cross_add, no_cross_cancel, no_cross_modify,
      no_cross_clear.
Qed.

(** ** The trades of one [add_order] *)

Definition total_quantity (ts : list Trade) : Z :=
  foldr (λ t acc, trade_quantity t + acc) 0 ts.

Lemma total_quantity_app ts1 ts2 :
  total_quantity (ts1 ++ ts2) = total_quantity ts1 + total_quantity ts2.
Proof. induction ts1 as [|t ts1 IH]; simpl; lia. Qed.

(** What one trade of an incoming order [o] against the book [b] is: the
    aggressor is [o], the passive order is a live order of the other side,
    indexed under its id and queued in the level whose key is the trade
    price, and the incoming limit reaches that price. *)
Record trade_against (b : OrderBookImpl) (o : Order) (t : Trade) : Prop := {
  ta_aggressor : buy_order_id t = order_id o;
  ta_symbol : trade_symbol_id t = symbol_id o;
  ta_reaches : no_match (side o) (price o) (trade_price t) = false;
  ta_positive : 0 < trade_quantity t;
  ta_passive : ∃ resting level,
    order_map_ b !! sell_order_id t = Some resting ∧
    levels (opposite (side o)) b !! trade_price t = Some level ∧
    resting ∈ orders_ level ∧
    side resting = opposite (side o) ∧
    price resting = trade_price t
}.

Lemma iteration_trade s b o b' o' ts :
  wf_book b → order_typed o → iteration_case s b o b' o' ts →
  ∃ t r l,
    ts = [t] ∧
    buy_order_id t = order_id o ∧ sell_order_id t = order_id r ∧
    trade_symbol_id t = symbol_id o ∧
    levels (opposite s) b !! trade_price t = Some l ∧ r ∈ orders_ l ∧
    order_map_ b !! order_id r = Some r ∧
    side r = opposite s ∧ price r = trade_price t ∧
    (∀ k, is_Some (levels (opposite s) b !! k) →
          key_le (opposite s) (trade_price t) k) ∧
    no_match s (price o) (trade_price t) = false ∧
    0 < trade_quantity t ∧
    quantity o' = quantity o - trade_quantity t.
Proof.
  intros Hwf Ht Hc.
  destruct (wf_iteration_trades _ _ _ _ _ _ Hwf Hc)
    as (p & l & r & rest & Hb & Ho & Hn & Hq & -> & ->).
  apply map_begin_Some in Hb as [Hl Hmin].
  destruct (wf_front _ _ _ _ _ _ (wf_levels _ Hwf _ _ _ Hl) Ho)
    as (Hr & Hs & Hp & Hqr & _).
  eexists _, r, l. split; [done|]. simpl. split_and!; try done.
  - rewrite Ho. by left.
  - lia.
  - unfold order_typed in Ht. apply u32_small. lia.
Qed.

Section Trades.
Variables (s : Side) (b0 : OrderBookImpl) (o0 : Order).
Hypothesis Hside : side o0 = s.
Hypothesis Hwf0 : wf_book b0.

(** The invariant of the loop: [acc] holds the trades made so far. *)
Record trades_inv (b : OrderBookImpl) (o : Order) (acc : list Trade) : Prop := {
  ti_wf : wf_book b;
  ti_typed : order_typed o;
  ti_same : order_id o = order_id o0 ∧ price o = price o0 ∧
            symbol_id o = symbol_id o0;
  ti_index : ∀ id x', order_map_ b !! id = Some x' →
                      ∃ x, order_map_ b0 !! id = Some x ∧ same_order x x';
  ti_quantity : total_quantity acc + quantity o = quantity o0;
  ti_trades : Forall (trade_against b0 o0) acc;
  ti_sorted : StronglySorted (key_le (opposite s)) (trade_price <$> acc);
  ti_bound : ∀ t k, t ∈ acc → is_Some (levels (opposite s) b !! k) →
                    key_le (opposite s) (trade_price t) k
}.

Lemma trades_inv_init : order_typed o0 → trades_inv b0 o0 [].
Proof.
  intros Ht. split; try done.
  - intros id x' ?. exists x'. by split.
  - constructor.
  - intros t k Hin. by apply elem_of_nil in Hin.
Qed.

Lemma trades_inv_step b o acc b' o' ts :
  trades_inv b o acc → iteration_case s b o b' o' ts →
  trades_inv b' o' (acc ++ ts).
Proof.
  intros [Hwf Ht (Hid & Hp & Hsym) Hix Hq Htr Hso Hbd] Hc.
  destruct (iteration_trade _ _ _ _ _ _ Hwf Ht Hc)
    as (t & r & l & -> & Hagg & Hpas & Htsym & Hl & Hin & Hr & Hsr & Hpr
        & Hmin & Hnm & Hpos & Hq').
  destruct (iteration_incoming _ _ _ _ _ _ Hc) as (Hid' & Hp' & _ & Hsym').
  split.
  - by eapply wf_book_iteration.
  - by eapply iteration_typed.
  - split_and!; congruence.
  - intros id x2 Hx2.
    destruct (iteration_index _ _ _ _ _ _ _ _ Hwf Hc Hx2) as (x1 & Hx1 & E1).
    destruct (Hix _ _ Hx1) as (x & Hx & E). exists x. split; [done|].
    unfold same_order in *. intuition congruence.
  - rewrite total_quantity_app. simpl. lia.
  - apply Forall_app. split; [done|]. constructor; [|constructor].
    destruct (Hix _ _ Hr) as (x & Hx & Hxid & Hxs & Hxp).
    destruct (wf_index _ Hwf0 _ _ Hx) as [_ (l0 & Hl0 & Hin0)].
    split.
    + congruence.
    + congruence.
    + rewrite Hside. congruence.
    + done.
    + exists x, l0. rewrite Hside, Hpas.
      rewrite Hxs, Hsr, Hxp, Hpr in Hl0. split_and!; congruence.
  - rewrite fmap_app. apply StronglySorted_app_2; [|done|].
    + intros p1 p2 Hp1. simpl. rewrite list_elem_of_singleton. intros ->.
      apply list_elem_of_fmap in Hp1 as (t1 & -> & Ht1).
      apply (Hbd t1 _ Ht1). eauto.
    + simpl. repeat constructor.
  - intros t1 k. rewrite elem_of_app, list_elem_of_singleton.
    intros [Ht1| ->] Hk;
      pose proof (iteration_opposite_keys _ _ _ _ _ _ _ Hc Hk) as Hk0; auto.
Qed.

Lemma trades_inv_loop fuel b o acc b' o' ts :
  trades_inv b o acc → match_loop s fuel b o acc = (b', o', ts) →
  trades_inv b' o' ts.
Proof. apply match_loop_invariant. apply trades_inv_step. Qed.
End Trades.

(** The properties of the trades returned for an accepted order, over a
    well-formed book. *)
Lemma add_order_trades_wf b o :
  wf_book b → order_typed o →
  quantity o ≠ 0 → 0 < price o → order_map_ b !! order_id o = None →
  let trades := fst (add_order b o) in
  Forall (trade_against b o) trades ∧
  0 ≤ total_quantity trades ≤ quantity o ∧
  StronglySorted (key_le (opposite (side o))) (trade_price <$> trades).
Proof.
  intros Hwf Ht Hq Hp Hid.
  destruct (add_order_accepted b o Hq Hp Hid) as (b1 & o1 & ts & Hloop & ->).
  simpl.
  destruct (trades_inv_loop (side o) b o eq_refl Hwf _ _ _ _ _ _ _
              (trades_inv_init _ _ _ Hwf Ht) Hloop)
    as [_ Ht1 _ _ Hsum Htr Hso _].
  split_and!; try done.
  - clear -Htr. induction Htr as [|t ts [_ _ _ Hpos _] _ IH]; simpl; lia.
  - unfold order_typed in Ht1. lia.
Qed.

(** ** Adding an order that does not trade, then cancelling it *)

Lemma book_ext b b' :
  symbol_id_ b = symbol_id_ b' →
  (∀ s, levels s b = levels s b') →
  order_map_ b = order_map_ b' →
  next_trade_id_ b = next_trade_id_ b' →
  b = b'.
Proof.
  destruct b, b'; simpl. intros -> Hl -> ->.
  pose proof (Hl BUY) as H1. pose proof (Hl SELL) as H2. simpl in *.
  by subst.
Qed.

Lemma match_loop_acc s fuel : ∀ b o acc b' o' ts,
  match_loop s fuel b o acc = (b', o', ts) → ∃ more, ts = acc ++ more.
Proof.
  induction fuel as [|fuel IH]; intros b o acc b' o' ts; simpl.
  - intros [= <- <- <-]. exists []. by rewrite app_nil_r.
  - destruct (match_iteration s b o) as [[[b1 o1] ts1]|].
    + intros Hloop. apply IH in Hloop as [more ->].
      exists (ts1 ++ more). by rewrite app_assoc.
    + intros [= <- <- <-]. exists []. by rewrite app_nil_r.
Qed.

Lemma match_loop_no_trades s fuel b o b' o' :
  wf_book b → match_loop s fuel b o [] = (b', o', []) → b' = b ∧ o' = o.
Proof.
  intros Hwf. destruct fuel as [|fuel]; simpl; [by intros [= <- <-]|].
  destruct (match_iteration s b o) as [[[b1 o1] ts1]|] eqn:Hit;
    [|by intros [= <- <-]].
  apply match_iteration_Some in Hit.
  destruct (wf_iteration_trades _ _ _ _ _ _ Hwf Hit)
    as (p & l & r & rest & _ & _ & _ & _ & -> & _).
  intros Hloop. apply match_loop_acc in Hloop as [more Hm]. done.
Qed.

Lemma cancel_order_found b id order :
  order_map_ b !! id = Some order →
  cancel_order b id =
  (true,
   set_levels (side order)
     match levels (side order) b !! price order with
     | None => levels (side order) b
     | Some level =>
         let level' := snd (Level.remove_order level id) in
         if Level.empty level' then delete (price order) (levels (side order) b)
         else <[price order := level']> (levels (side order) b)
     end
     (set_order_map (delete id (order_map_ b)) b)).
Proof.
  intros Hid. unfold cancel_order. rewrite Hid. by rewrite levels_set_order_map.
Qed.

Lemma cancel_order_absent b id :
  order_map_ b !! id = None → cancel_order b id = (false, b).
Proof. intros Hid. unfold cancel_order. by rewrite Hid. Qed.

(** Removing the order just pushed at the back of a level gives the level
    back. *)
Lemma remove_added_order l o :
  (∀ o', o' ∈ orders_ l → order_id o' ≠ order_id o) →
  0 ≤ total_volume_ l < 2 ^ 32 →
  snd (Level.remove_order (Level.add_order l o) (order_id o)) = l.
Proof.
  intros Hids Htv. unfold Level.remove_order, Level.add_order. simpl.
  rewrite remove_order_loop_spec. simpl.
  assert (Hf : filter (not_id (order_id o)) (orders_ l) = orders_ l).
  { clear -Hids. induction (orders_ l) as [|x xs IH]; [done|].
    rewrite filter_cons, decide_True by (apply Hids; by left).
    f_equal. apply IH. intros o' Ho'. apply Hids. by right. }
  assert (Hv : ∀ v, foldl (λ v o', if order_id o' =? order_id o
                                   then u32 (v - quantity o') else v) v (orders_ l)
                    = v).
  { clear -Hids. induction (orders_ l) as [|x xs IH]; intros v; [done|]. simpl.
    destruct (order_id x =? order_id o) eqn:E.
    - apply Z.eqb_eq in E. destruct (Hids x); [by left|done].
    - apply IH. intros o' Ho'. apply Hids. by right. }
  rewrite filter_app, Hf, foldl_app, Hv. simpl.
  rewrite filter_cons, decide_False by (unfold not_id; tauto).
  rewrite Z.eqb_refl, app_nil_r, u32_add_sub by done.
  by destruct l.
Qed.

Lemma cancel_add_to_book b o :
  wf_book b → order_map_ b !! order_id o = None →
  snd (cancel_order (add_to_book b o) (order_id o)) = b.
Proof.
  intros Hwf Hid.
  assert (Hmap : order_map_ (add_to_book b o) !! order_id o = Some o).
  { unfold add_to_book. simpl. by rewrite order_map_set_levels, lookup_insert_eq. }
  rewrite (cancel_order_found _ _ _ Hmap). simpl.
  assert (Hlv : levels (side o) (add_to_book b o)
                = <[price o := Level.add_order
                      (match levels (side o) b !! price o with
                       | Some l => l
                       | None => Level.create (price o)
                       end) o]> (levels (side o) b)).
  { unfold add_to_book. by rewrite levels_set_order_map, levels_set_levels. }
  rewrite Hlv, lookup_insert_eq.
  apply book_ext.
  - unfold add_to_book. by destruct (side o).
  - intros s. destruct (decide (s = side o)) as [->|Hne].
    2:{ rewrite levels_set_levels_ne, levels_set_order_map by done.
        unfold add_to_book.
        by rewrite levels_set_order_map, levels_set_levels_ne. }
    rewrite levels_set_levels.
    destruct (levels (side o) b !! price o) as [l|] eqn:Hl.
    + pose proof (wf_levels _ Hwf _ _ _ Hl) as Hwl.
      rewrite remove_added_order.
      * destruct (Level.empty l) eqn:He.
        { apply level_empty_true in He. by destruct (wl_nonempty _ _ _ _ Hwl). }
        by rewrite insert_insert_eq, insert_id.
      * intros o' Ho' Heq.
        destruct (wl_orders _ _ _ _ Hwl o' Ho') as [Hm _]. congruence.
      * apply (wl_volume _ _ _ _ Hwl).
    + rewrite remove_added_order; simpl; [|by intros ? ?%elem_of_nil|lia].
      by rewrite delete_insert_id.
  - rewrite order_map_set_levels. simpl. unfold add_to_book. simpl.
    rewrite order_map_set_levels. by rewrite delete_insert_id.
  - unfold add_to_book. by destruct (side o).
Qed.

Lemma add_then_cancel_wf b o :
  wf_book b → order_map_ b !! order_id o = None →
  fst (add_order b o) = [] →
  snd (cancel_order (snd (add_order b o)) (order_id o)) = b.
Proof.
  intros Hwf Hid Hts.
  destruct (add_order_cases b o) as [E|(Hq & Hp & _)].
  { rewrite E. simpl. by rewrite cancel_order_absent. }
  destruct (add_order_accepted b o Hq Hp Hid) as (b1 & o1 & ts & Hloop & E).
  rewrite E in Hts |- *. cbn [fst snd] in *. subst ts.
  destruct (match_loop_no_trades _ _ _ _ _ _ Hwf Hloop) as [-> ->].
  destruct (0 <? quantity o).
  - by apply cancel_add_to_book.
  - by rewrite cancel_order_absent.
Qed.

(** ** The order book: properties of the specification *)

Example sweep_trades :
  fst (add_order (book_after [sell_1; sell_2; sell_3]) buy_4)
  = [mkTrade 1 4 1 1 100 10; mkTrade 2 4 2 1 100 15; mkTrade 3 4 3 1 101 5].
Proof. vm_compute. reflexivity. Qed.

Example partial_match_volume :
  volume_at_price
    (snd (add_order (book_after [Order_new 1 1 100 20 SELL 0 0])
                    (Order_new 2 1 100 15 BUY 0 0))) 100 SELL = 5.
Proof. vm_compute. reflexivity. Qed.

Lemma reachable_book_after os :
  Forall order_typed os → reachable (book_after os).
Proof.
  unfold book_after. generalize (reach_new 1).
  generalize (OrderBookImpl_new 1) as b.
  induction os as [|o os IH]; intros b Hb Hos; simpl; [done|].
  apply Forall_cons in Hos as [Ho Hos]. apply IH; [|done]. by apply reach_add.
Qed.

Lemma order_typed_new id sym px qty s client now :
  0 ≤ qty < 2 ^ 32 → order_typed (Order_new id sym px qty s client now).
Proof. done. Qed.

(** C1. For every book the code can reach and every incoming order, each
    trade returned by [add_order] has as passive order a resting order of
    the other side, indexed under the trade's passive id and queued in the
    level whose key is the trade price, which is also that order's own
    price; the trade quantities sum to at most the incoming quantity; for
    an incoming buy every trade price is at most the incoming price and the
    prices never decrease along the list, for an incoming sell every trade
    price is at least the incoming price and the prices never increase.
    (An order that [add_order] rejects returns no trade.) *)
Theorem add_order_trades b o :
  reachable b → order_typed o →
  let trades := fst (add_order b o) in
  (∀ t, t ∈ trades →
        ∃ resting level,
          order_map_ b !! sell_order_id t = Some resting ∧
          levels (opposite (side o)) b !! trade_price t = Some level ∧
          resting ∈ orders_ level ∧
          price resting = trade_price t) ∧
  total_quantity trades ≤ quantity o ∧
  (side o = BUY →
   Forall (λ t, trade_price t ≤ price o) trades ∧
   StronglySorted Z.le (trade_price <$> trades)) ∧
  (side o = SELL →
   Forall (λ t, price o ≤ trade_price t) trades ∧
   StronglySorted (flip Z.le) (trade_price <$> trades)).
Proof.
  intros Hr Ht trades. subst trades.
  destruct (add_order_cases b o) as [->|(Hq & Hp & Hid)].
  { simpl. unfold order_typed in Ht. split_and!.
    - by intros t ?%elem_of_nil.
    - lia.
    - intros _. split; constructor.
    - intros _. split; constructor. }
  destruct (add_order_trades_wf b o (reachable_wf _ Hr) Ht Hq Hp Hid)
    as (Htr & Hsum & Hso).
  split_and!.
  - intros t Hin. rewrite Forall_forall in Htr.
    destruct (ta_passive _ _ _ (Htr t Hin)) as (r & l & ? & ? & ? & _ & ?).
    by exists r, l.
  - lia.
  - intros Hs. rewrite Hs in Hso. split; [|exact Hso].
    eapply Forall_impl; [exact Htr|]. intros t [_ _ Hre _ _]. simpl in Hre.
    rewrite Hs in Hre. simpl in Hre. lia.
  - intros Hs. rewrite Hs in Hso. split; [|exact Hso].
    eapply Forall_impl; [exact Htr|]. intros t [_ _ Hre _ _]. simpl in Hre.
    rewrite Hs in Hre. simpl in Hre. lia.
Qed.

Lemma add_order_trades_witness :
  reachable (book_after [sell_1; sell_2; sell_3]) ∧ order_typed buy_4 ∧
  let trades := fst (add_order (book_after [sell_1; sell_2; sell_3]) buy_4) in
  (∀ t, t ∈ trades →
        ∃ resting level,
          order_map_ (book_after [sell_1; sell_2; sell_3]) !! sell_order_id t
            = Some resting ∧
          levels (opposite (side buy_4)) (book_after [sell_1; sell_2; sell_3])
            !! trade_price t = Some level ∧
          resting ∈ orders_ level ∧
          price resting = trade_price t) ∧
  total_quantity trades ≤ quantity buy_4 ∧
  (side buy_4 = BUY →
   Forall (λ t, trade_price t ≤ price buy_4) trades ∧
   StronglySorted Z.le (trade_price <$> trades)) ∧
  (side buy_4 = SELL →
   Forall (λ t, price buy_4 ≤ trade_price t) trades ∧
   StronglySorted (flip Z.le) (trade_price <$> trades)).
Proof.
  assert (Hr : reachable (book_after [sell_1; sell_2; sell_3])).
  { apply reachable_book_after. repeat constructor; simpl; lia. }
  assert (Ht : order_typed buy_4) by (split; simpl; lia).
  split; [exact Hr|]. split; [exact Ht|].
  exact (add_order_trades _ _ Hr Ht).
Defined.

(** C2. In every book reachable from the empty book by [add_order],
    [cancel_order], [modify_order] (and [clear]), when [best_bid] and
    [best_ask] are both defined the best bid is strictly below the best
    ask. *)
Theorem reachable_not_crossed b bid ask :
  reachable b → best_bid b = Some bid → best_ask b = Some ask → bid < ask.
Proof.
  intros Hr Hbid Hask. apply (reachable_no_cross _ Hr).
  - unfold best_bid in Hbid.
    destruct (map_begin _ _) as [[k l]|] eqn:Hb; [|done].
    injection Hbid as <-. apply map_begin_Some in Hb as [Hl _]. eauto.
  - unfold best_ask in Hask.
    destruct (map_begin _ _) as [[k l]|] eqn:Hb; [|done].
    injection Hask as <-. apply map_begin_Some in Hb as [Hl _]. eauto.
Qed.

Lemma reachable_not_crossed_witness :
  reachable (book_after [buy_5; sell_1]) ∧
  best_bid (book_after [buy_5; sell_1]) = Some 99 ∧
  best_ask (book_after [buy_5; sell_1]) = Some 100 ∧
  99 < 100.
Proof.
  assert (Hr : reachable (book_after [buy_5; sell_1])).
  { apply reachable_book_after. repeat constructor; simpl; lia. }
  assert (Hb : best_bid (book_after [buy_5; sell_1]) = Some 99)
    by (vm_compute; reflexivity).
  assert (Ha : best_ask (book_after [buy_5; sell_1]) = Some 100)
    by (vm_compute; reflexivity).
  split; [exact Hr|]. split; [exact Hb|]. split; [exact Ha|].
  exact (reachable_not_crossed _ _ _ Hr Hb Ha).
Defined.

(** C3. For every book and every order whose quantity is 0, whose price is
    not positive, or whose id is already in the index, [add_order] returns
    no trade and the very same book: levels, index and next trade id. *)
Theorem add_order_rejected b o :
  quantity o = 0 ∨ price o ≤ 0 ∨ is_Some (order_map_ b !! order_id o) →
  add_order b o = ([], b).
Proof. apply add_order_rejected_eq. Qed.

Lemma add_order_rejected_witness :
  (quantity buy_7_no_quantity = 0 ∨ price buy_7_no_quantity ≤ 0 ∨
   is_Some (order_map_ (book_after [sell_1]) !! order_id buy_7_no_quantity)) ∧
  add_order (book_after [sell_1]) buy_7_no_quantity = ([], book_after [sell_1]).
Proof.
  assert (H : quantity buy_7_no_quantity = 0 ∨ price buy_7_no_quantity ≤ 0 ∨
              is_Some (order_map_ (book_after [sell_1])
                         !! order_id buy_7_no_quantity))
    by (left; reflexivity).
  split; [exact H|]. exact (add_order_rejected _ _ H).
Defined.

(** The specification's reading of [modify_order]: cancel the resting
    order, then add an order with the same identity fields, the new price
    and quantity, and the timestamp [now]; the result is that new order.
    An unknown id gives no order and leaves the book alone. *)
Definition modify_as_cancel_then_add (b : OrderBookImpl)
    (id new_price new_quantity now : Z) : option Order * OrderBookImpl :=
  match order_map_ b !! id with
  | None => (None, b)
  | Some resting =>
      let new_order :=
        mkOrder (order_id resting) (symbol_id resting) new_price new_quantity
                (executed_quantity resting) now (client_id resting)
                (sequence_number resting) (side resting) (type resting)
                (status resting) (tif resting) in
      let after_cancel := snd (cancel_order b id) in
      (Some new_order, snd (add_order after_cancel new_order))
  end.

(** C4. For every book, [modify_order] returns what cancel-then-add
    returns and leaves the book in the state cancel-then-add leaves it in;
    for an id that is not in the book it returns no order and changes
    nothing. *)
Theorem modify_order_is_cancel_then_add b id new_price new_quantity now :
  modify_order b id new_price new_quantity now
  = modify_as_cancel_then_add b id new_price new_quantity now.
Proof.
  rewrite modify_order_eq. unfold modify_as_cancel_then_add.
  by destruct (order_map_ b !! id).
Qed.

(** C5 as stated fails: an order that trades on arrival is not undone by
    cancelling it.  Adding the buy 6 (10 at 100) to a book holding the sell
    1 (10 at 100) fills both; the cancel then finds nothing and the sell is
    gone. *)
Lemma add_then_cancel_counterexample :
  reachable (book_after [sell_1]) ∧
  order_map_ (book_after [sell_1]) !! order_id buy_6 = None ∧
  snd (cancel_order (snd (add_order (book_after [sell_1]) buy_6)) (order_id buy_6))
  ≠ book_after [sell_1].
Proof.
  split; [|split].
  - apply reachable_book_after. repeat constructor; simpl; lia.
  - vm_compute. reflexivity.
  - intros H. apply (f_equal book_total_orders) in H. vm_compute in H.
    discriminate H.
Qed.

(** C5, amended. For every reachable book and every order whose id is not
    in the book, when [add_order] returns no trade, [cancel_order] of that
    id right after gives back the book as it was before: same levels, same
    index, same next trade id. *)
Theorem add_then_cancel b o :
  reachable b → order_map_ b !! order_id o = None →
  fst (add_order b o) = [] →
  snd (cancel_order (snd (add_order b o)) (order_id o)) = b.
Proof. intros Hr. apply add_then_cancel_wf. by apply reachable_wf. Qed.

Lemma add_then_cancel_witness :
  reachable (book_after [sell_1]) ∧
  order_map_ (book_after [sell_1]) !! order_id buy_5 = None ∧
  fst (add_order (book_after [sell_1]) buy_5) = [] ∧
  snd (cancel_order (snd (add_order (book_after [sell_1]) buy_5)) (order_id buy_5))
  = book_after [sell_1].
Proof.
  assert (Hr : reachable (book_after [sell_1])).
  { apply reachable_book_after. repeat constructor; simpl; lia. }
  assert (Hid : order_map_ (book_after [sell_1]) !! order_id buy_5 = None)
    by (vm_compute; reflexivity).
  assert (Hts : fst (add_order (book_after [sell_1]) buy_5) = [])
    by (vm_compute; reflexivity).
  split; [exact Hr|]. split; [exact Hid|]. split; [exact Hts|].
  exact (add_then_cancel _ _ Hr Hid Hts).
Defined.

(** ** The engine worker *)

(** The calls of each callback among a list of events, in call order. *)
Definition order_calls (events : list CallbackEvent) : list (Order * bool) :=
  omap (λ ev, match ev with
              | OrderCallback o accepted => Some (o, accepted)
              | TradeCallback _ => None
              end) events.

Definition trade_calls (events : list CallbackEvent) : list Trade :=
  omap (λ ev, match ev with
              | OrderCallback _ _ => None
              | TradeCallback t => Some t
              end) events.

Lemma process_trades_events trades : ∀ st,
  snd (process_trades true trades st) = TradeCallback <$> trades.
Proof.
  induction trades as [|t trades IH]; intros st; simpl; [done|].
  specialize (IH (add_total_volume (trade_quantity t) (add_total_trades 1 st))).
  destruct (process_trades true trades _). simpl in *. by rewrite IH.
Qed.

Lemma process_trades_other_counters cb trades : ∀ st,
  let st' := fst (process_trades cb trades st) in
  total_orders st' = total_orders st ∧
  rejected_orders st' = rejected_orders st ∧
  cancelled_orders st' = cancelled_orders st ∧
  modified_orders st' = modified_orders st.
Proof.
  induction trades as [|t trades IH]; intros st; simpl; [done|].
  specialize (IH (add_total_volume (trade_quantity t) (add_total_trades 1 st))).
  destruct (process_trades cb trades _). simpl in *. done.
Qed.

Lemma order_calls_trades trades : order_calls (TradeCallback <$> trades) = [].
Proof.
  induction trades as [|t trades IH]; [done|].
  rewrite fmap_cons. unfold order_calls in *. cbn [omap list_omap]. done.
Qed.

Lemma trade_calls_trades trades : trade_calls (TradeCallback <$> trades) = trades.
Proof.
  induction trades as [|t trades IH]; [done|].
  rewrite fmap_cons. unfold trade_calls in *. cbn [omap list_omap].
  by rewrite IH.
Qed.

(** The specification's sentence on local validation errors, for one
    order: the error shows as an order callback with [accepted = false], or
    as counters that did not move. *)
Definition validation_error_surfaces (e : MatchingEngineImpl) (order : Order)
  : Prop :=
  OrderCallback order false ∈ snd (process_new_order e order) ∨
  stats_ (fst (process_new_order e order)) = stats_ e.

(** C6 as stated fails on its middle part: an order with quantity 0 sent
    to a registered symbol is rejected by the book, yet the worker calls
    the order callback with [accepted = true] and has already counted the
    order in [total_orders]. *)
Lemma validation_error_counterexample :
  quantity buy_7_no_quantity = 0 ∧
  order_callback_ engine_1 = true ∧
  snd (process_new_order engine_1 buy_7_no_quantity)
    = [OrderCallback buy_7_no_quantity true] ∧
  ¬ validation_error_surfaces engine_1 buy_7_no_quantity.
Proof.
  split; [reflexivity|]. split; [reflexivity|]. split; [vm_compute; reflexivity|].
  unfold validation_error_surfaces. intros [H|H].
  - assert (E : snd (process_new_order engine_1 buy_7_no_quantity)
                = [OrderCallback buy_7_no_quantity true])
      by (vm_compute; reflexivity).
    rewrite E in H. apply list_elem_of_singleton in H. discriminate H.
  - apply (f_equal total_orders) in H. vm_compute in H. discriminate H.
Qed.

(** C6, amended. With both callbacks set, the worker calls the order
    callback exactly once for a new order, with [accepted = false] exactly
    when the symbol has no book; for a registered symbol it then calls the
    trade callback once per trade that [add_order] returned, in that order,
    all after the order callback.  An order that the book rejects (zero
    quantity, non-positive price, id already resting) on a registered symbol
    is reported with [accepted = true], produces no trade callback, and
    changes neither the books nor any counter but [total_orders]. *)
Theorem process_new_order_callbacks e order :
  order_callback_ e = true → trade_callback_ e = true →
  let events := snd (process_new_order e order) in
  let e' := fst (process_new_order e order) in
  order_calls events
    = [(order, bool_decide (is_Some (order_books_ e !! symbol_id order)))] ∧
  match order_books_ e !! symbol_id order with
  | None => events = [OrderCallback order false]
  | Some book =>
      events = OrderCallback order true
                 :: (TradeCallback <$> fst (add_order book order)) ∧
      trade_calls events = fst (add_order book order) ∧
      (quantity order = 0 ∨ price order ≤ 0 ∨
       is_Some (order_map_ book !! order_id order) →
       events = [OrderCallback order true] ∧
       order_books_ e' = order_books_ e ∧
       stats_ e' = add_total_orders 1 (stats_ e))
  end.
Proof.
  intros Hoc Htc. unfold process_new_order. simpl.
  destruct (order_books_ e !! symbol_id order) as [book|] eqn:Hbook.
  2:{ simpl. by rewrite Hoc. }
  assert (Hev : ∀ trades book' st,
             snd (let '(st', evs) := process_trades (trade_callback_ e) trades st in
                  (set_stats st' (set_order_books book' (set_stats
                     (add_total_orders 1 (stats_ e)) e)),
                   (if order_callback_ e then [OrderCallback order true] else [])
                     ++ evs))
             = OrderCallback order true :: (TradeCallback <$> trades)).
  { intros trades book' st. rewrite Hoc, Htc.
    pose proof (process_trades_events trades st) as E.
    destruct (process_trades true trades st). simpl in *. by rewrite E. }
  destruct (add_order book order) as [trades book'] eqn:Hadd. simpl.
  rewrite Hev. split_and!.
  - simpl. by rewrite order_calls_trades.
  - done.
  - unfold trade_calls. simpl. apply trade_calls_trades.
  - intros Hrej. rewrite (add_order_rejected_eq _ _ Hrej) in Hadd.
    injection Hadd as <- <-. simpl. split_and!; [done| |done].
    by rewrite insert_id.
Qed.

Lemma process_new_order_callbacks_witness :
  order_callback_ engine_1 = true ∧ trade_callback_ engine_1 = true ∧
  let events := snd (process_new_order engine_1 buy_7_no_quantity) in
  let e' := fst (process_new_order engine_1 buy_7_no_quantity) in
  order_calls events
    = [(buy_7_no_quantity,
        bool_decide (is_Some (order_books_ engine_1
                                !! symbol_id buy_7_no_quantity)))] ∧
  match order_books_ engine_1 !! symbol_id buy_7_no_quantity with
  | None => events = [OrderCallback buy_7_no_quantity false]
  | Some book =>
      events = OrderCallback buy_7_no_quantity true
                 :: (TradeCallback <$> fst (add_order book buy_7_no_quantity)) ∧
      trade_calls events = fst (add_order book buy_7_no_quantity) ∧
      (quantity buy_7_no_quantity = 0 ∨ price buy_7_no_quantity ≤ 0 ∨
       is_Some (order_map_ book !! order_id buy_7_no_quantity) →
       events = [OrderCallback buy_7_no_quantity true] ∧
       order_books_ e' = order_books_ engine_1 ∧
       stats_ e' = add_total_orders 1 (stats_ engine_1))
  end.
Proof.
  assert (H1 : order_callback_ engine_1 = true) by reflexivity.
  assert (H2 : trade_callback_ engine_1 = true) by reflexivity.
  split; [exact H1|]. split; [exact H2|].
  exact (process_new_order_callbacks engine_1 buy_7_no_quantity H1 H2).
Defined.

(** C10. For every engine state and every new order, the worker adds one
    to [total_orders], whatever becomes of the order; when the symbol has
    no book it also adds one to [rejected_orders] and leaves the books
    alone, and when the symbol has a book [rejected_orders] does not move,
    even if the book rejects the order. *)
Theorem process_new_order_counts e order :
  let e' := fst (process_new_order e order) in
  total_orders (stats_ e') = u64 (total_orders (stats_ e) + 1) ∧
  match order_books_ e !! symbol_id order with
  | None =>
      rejected_orders (stats_ e') = u64 (rejected_orders (stats_ e) + 1) ∧
      order_books_ e' = order_books_ e
  | Some _ => rejected_orders (stats_ e') = rejected_orders (stats_ e)
  end.
Proof.
  unfold process_new_order. simpl.
  destruct (order_books_ e !! symbol_id order) as [book|]; [|done].
  destruct (add_order book order) as [trades book']. simpl.
  pose proof (process_trades_other_counters (trade_callback_ e) trades
                (add_total_orders 1 (stats_ e))) as (H1 & H2 & _).
  destruct (process_trades _ trades _). simpl in *. by rewrite H1, H2.
Qed.



(** ** The SPSC queue *)

Section SPSC.
Context {T : Type}.
Import SPSCQueue.
Implicit Types (h : gmap nat (Node T)) (q : SPSCQueue.t T).

(** [chain h p d cells]: the node at [p] holds [d], and following [next]
    from it visits the addresses and payloads of [cells] and then stops. *)
Fixpoint chain h (p : nat) (d : T) (cells : list (nat * T)) : Prop :=
  match cells with
  | [] => h !! p = Some (mkNode None d)
  | (p', v) :: rest => h !! p = Some (mkNode (Some p') d) ∧ chain h p' v rest
  end.

Fixpoint last_cell (p : nat) (cells : list (nat * T)) : nat :=
  match cells with
  | [] => p
  | (p', _) :: rest => last_cell p' rest
  end.

(** The queue [q] holds the values [vs], oldest first: they are the
    payloads of the nodes after the dummy at [head_]. *)
Definition holds q (vs : list T) : Prop :=
  ∃ d cells,
    chain (heap q) (head_ q) d cells ∧
    NoDup (head_ q :: cells.*1) ∧
    vs = cells.*2 ∧
    tail_ q = last_cell (head_ q) cells ∧
    cached_head_ q = head_ q ∧
    cached_tail_ q = tail_ q.

Lemma chain_allocated h p d cells x :
  chain h p d cells → x ∈ p :: cells.*1 → is_Some (h !! x).
Proof.
  revert p d. induction cells as [|[p' v] rest IH]; intros p d; simpl.
  - intros Hp ->%list_elem_of_singleton. eauto.
  - intros [Hp Hc]. rewrite elem_of_cons. intros [->|Hx]; eauto.
Qed.

Lemma chain_head h p d cells :
  chain h p d cells → ∃ n, h !! p = Some n ∧ data n = d.
Proof. destruct cells as [|[p' v] rest]; simpl; [|intros [? _]]; eauto. Qed.

Lemma last_cell_in p cells : last_cell p cells ∈ p :: cells.*1.
Proof.
  revert p. induction cells as [|[p' v] rest IH]; intros p; simpl.
  - by left.
  - right. apply IH.
Qed.

Lemma last_cell_snoc p cells x v : last_cell p (cells ++ [(x, v)]) = x.
Proof. revert p. induction cells as [|[p' v'] rest IH]; intros p; simpl; auto. Qed.

Lemma chain_delete h p d cells x :
  chain h p d cells → x ∉ p :: cells.*1 → chain (delete x h) p d cells.
Proof.
  revert p d. induction cells as [|[p' v] rest IH]; intros p d; simpl.
  - intros Hp Hx. rewrite lookup_delete_ne; [done|].
    intros ->. apply Hx. by left.
  - intros [Hp Hc] Hx. split.
    + rewrite lookup_delete_ne; [done|]. intros ->. apply Hx. by left.
    + apply IH; [done|]. intros Hin. apply Hx. by right.
Qed.

Lemma chain_snoc h p d cells x v :
  chain h p d cells → NoDup (p :: cells.*1) → h !! x = None →
  ∃ dt, h !! last_cell p cells = Some (mkNode None dt) ∧
        chain (<[last_cell p cells := mkNode (Some x) dt]>
                 (<[x := mkNode None v]> h))
              p d (cells ++ [(x, v)]).
Proof.
  revert p d. induction cells as [|[p' v'] rest IH]; intros p d; simpl.
  - intros Hp _ Hx. exists d. split; [done|]. split.
    + apply lookup_insert_eq.
    + rewrite lookup_insert_ne by congruence. apply lookup_insert_eq.
  - intros [Hp Hc] [Hnot Hnd]%NoDup_cons Hx.
    destruct (IH _ _ Hc Hnd Hx) as (dt & Hlast & Hchain).
    exists dt. split; [done|]. split; [|done].
    rewrite !lookup_insert_ne; [done|congruence|].
    intros E. apply Hnot. rewrite <- E. apply last_cell_in.
Qed.

Lemma holds_create default_value : holds (create default_value) [].
Proof.
  exists default_value, []. unfold create, alloc. simpl.
  split_and!; try done; try apply lookup_insert_eq.
  apply NoDup_singleton.
Qed.

Lemma enqueue_holds q vs v :
  holds q vs → ∃ q', enqueue q v = Some (true, q') ∧ holds q' (vs ++ [v]).
Proof.
  intros (d & cells & Hc & Hnd & -> & Htail & Hch & Hct).
  assert (Hfresh : heap q !! fresh (dom (heap q)) = None)
    by apply not_elem_of_dom, is_fresh.
  destruct (chain_snoc _ _ _ _ _ v Hc Hnd Hfresh) as (dt & Hlast & Hchain).
  unfold enqueue, alloc. rewrite Hct, Htail.
  rewrite lookup_insert_ne by congruence. rewrite Hlast. simpl.
  eexists. split; [done|].
  exists d, (cells ++ [(fresh (dom (heap q)), v)]). simpl.
  split_and!; try done.
  - rewrite fmap_app. simpl.
    change (head_ q :: cells.*1 ++ [fresh (dom (heap q))])
      with ((head_ q :: cells.*1) ++ [fresh (dom (heap q))]).
    apply NoDup_app. split_and!; [done| |apply NoDup_singleton].
    intros x Hx ->%list_elem_of_singleton.
    destruct (chain_allocated _ _ _ _ _ Hc Hx) as [n Hn]. congruence.
  - by rewrite fmap_app.
  - by rewrite last_cell_snoc.
Qed.

Lemma dequeue_holds q vs :
  holds q vs → ∃ q', dequeue q = Some (head vs, q') ∧ holds q' (tail vs).
Proof.
  intros (d & cells & Hc & Hnd & -> & Htail & Hch & Hct).
  unfold dequeue. rewrite Hch.
  destruct cells as [|[p' v] rest]; simpl in *.
  - rewrite Hc. simpl. rewrite decide_True by done.
    eexists. split; [done|]. by exists d, [].
  - destruct Hc as [Hp Hc]. rewrite Hp. simpl. unfold take.
    destruct (chain_head _ _ _ _ Hc) as (n & Hn & Hd). rewrite Hn, Hd.
    eexists. split; [done|].
    apply NoDup_cons in Hnd as [Hnot Hnd].
    exists v, rest. simpl. split_and!; try done.
    by apply chain_delete.
Qed.



End SPSC.


Example spsc_run :
  let q0 := SPSCQueue.create 0 in
  (q1 ← snd <$> SPSCQueue.enqueue q0 7;
   q2 ← snd <$> SPSCQueue.enqueue q1 8;
   '(r1, q3) ← SPSCQueue.dequeue q2;
   '(r2, q4) ← SPSCQueue.dequeue q3;
   '(r3, _) ← SPSCQueue.dequeue q4;
   Some [r1; r2; r3]) = Some [Some 7; Some 8; None].
Proof. vm_compute. reflexivity. Qed.

(** ** Binary64 arithmetic on positive numbers *)

Lemma digits2_pos_size p : digits2_pos p = Pos.size p.
Proof. induction p; simpl; congruence. Qed.

Lemma Zdigits2_log2 m : 0 < m → Zdigits2 m = Z.log2 m + 1.
Proof.
  destruct m as [|p|p]; try lia. intros _. simpl. rewrite digits2_pos_size.
  destruct p; simpl; lia.
Qed.

Lemma shr_1_m mrs : 0 ≤ shr_m mrs → shr_m (shr_1 mrs) = shr_m mrs / 2.
Proof.
  destruct mrs as [m r s]. simpl. intros Hm. rewrite <- Z.div2_div.
  destruct m as [|[p|p|]|p]; try reflexivity. lia.
Qed.

Lemma shr_iter_m n : ∀ mrs, 0 ≤ shr_m mrs →
  shr_m (SpecFloat.iter_pos shr_1 n mrs) = shr_m mrs / 2 ^ Z.pos n.
Proof.
  assert (Hnn : ∀ mrs, 0 ≤ shr_m mrs → 0 ≤ shr_m (shr_1 mrs)).
  { intros mrs H. rewrite shr_1_m by done. apply Z.div_pos; lia. }
  induction n as [n IH|n IH|]; intros mrs Hm; simpl.
  - assert (E : 2 ^ Z.pos n~1 = 2 * 2 ^ Z.pos n * 2 ^ Z.pos n).
    { rewrite (Pos2Z.inj_xI n), Z.pow_add_r, Z.pow_mul_r, Z.pow_2_r by lia.
      rewrite Z.pow_mul_l. lia. }
    assert (0 < 2 ^ Z.pos n) by (apply Z.pow_pos_nonneg; lia).
    rewrite E, !IH, shr_1_m; try done.
    + rewrite !Z.div_div by lia. f_equal. lia.
    + by apply Hnn.
    + rewrite IH by (by apply Hnn). apply Z.div_pos; [by apply Hnn|lia].
  - assert (E : 2 ^ Z.pos n~0 = 2 ^ Z.pos n * 2 ^ Z.pos n).
    { rewrite (Pos2Z.inj_xO n), Z.pow_mul_r, Z.pow_2_r by lia.
      rewrite Z.pow_mul_l. lia. }
    assert (0 < 2 ^ Z.pos n) by (apply Z.pow_pos_nonneg; lia).
    rewrite E, !IH; try done.
    + rewrite !Z.div_div by lia. f_equal.
    + rewrite IH by done. apply Z.div_pos; [done|lia].
  - rewrite shr_1_m by done. done.
Qed.

Lemma shr_record_of_loc_m m l : shr_m (shr_record_of_loc m l) = m.
Proof. by destruct l as [|[]]. Qed.

Lemma fexp64 x : fexp prec emax x = Z.max (x - 53) (-1074).
Proof. reflexivity. Qed.

Lemma shr_fexp_pos m e l :
  0 < m → -1074 < Z.log2 m + 1 + e →
  ∃ mrs e', shr_fexp prec emax m e l = (mrs, e') ∧
            0 < shr_m mrs ∧ Z.log2 (shr_m mrs) + e' = Z.log2 m + e.
Proof.
  intros Hm Hmag. unfold shr_fexp, shr.
  rewrite Zdigits2_log2, fexp64 by done.
  destruct (Z.max (Z.log2 m + 1 + e - 53) (-1074) - e) as [|n|n] eqn:En.
  - eexists _, _. split; [done|]. by rewrite shr_record_of_loc_m.
  - eexists _, _. split; [done|].
    rewrite shr_iter_m, shr_record_of_loc_m by (rewrite shr_record_of_loc_m; lia).
    pose proof (Z.log2_nonneg m) as Hl.
    assert (Hn : Z.pos n ≤ Z.log2 m) by lia.
    rewrite <- Z.shiftr_div_pow2 by lia.
    assert (Hlog : Z.log2 (Z.shiftr m (Z.pos n)) = Z.log2 m - Z.pos n).
    { rewrite Z.log2_shiftr by done. lia. }
    split; [|lia].
    rewrite Z.shiftr_div_pow2 by lia.
    apply Z.div_str_pos. split; [apply Z.pow_pos_nonneg; lia|].
    transitivity (2 ^ Z.log2 m).
    + apply Z.pow_le_mono_r; lia.
    + apply Z.log2_spec. done.
  - eexists _, _. split; [done|]. by rewrite shr_record_of_loc_m.
Qed.

Lemma rne_bounds m l : m ≤ round_nearest_even m l ≤ m + 1.
Proof. destruct l as [|[]]; simpl; try lia. destruct (Z.even m); lia. Qed.

(** Rounding a positive significand whose magnitude is well inside the
    exponent range gives a positive finite number of the same magnitude or
    one more. *)
Lemma binary_round_aux_pos m e l :
  0 < m → -1074 < Z.log2 m + 1 + e → Z.log2 m + 1 + e ≤ 971 →
  ∃ m' e', binary_round_aux prec emax false m e l = S754_finite false m' e' ∧
           Z.log2 m + e ≤ Z.log2 (Z.pos m') + e' ≤ Z.log2 m + e + 1.
Proof.
  intros Hm Hlo Hhi. unfold binary_round_aux.
  destruct (shr_fexp_pos m e l Hm Hlo) as (mrs1 & e1 & -> & Hm1 & Hmag1).
  set (m2 := round_nearest_even (shr_m mrs1) (loc_of_shr_record mrs1)).
  pose proof (rne_bounds (shr_m mrs1) (loc_of_shr_record mrs1)) as Hm2.
  fold m2 in Hm2.
  assert (Hl2 : Z.log2 (shr_m mrs1) ≤ Z.log2 m2 ≤ Z.log2 (shr_m mrs1) + 1).
  { split; [apply Z.log2_le_mono; lia|].
    transitivity (Z.log2 (Z.succ (shr_m mrs1))).
    - apply Z.log2_le_mono. lia.
    - pose proof (Z.log2_succ_le (shr_m mrs1)). lia. }
  destruct (shr_fexp_pos m2 e1 loc_Exact) as (mrs3 & e3 & -> & Hm3 & Hmag3);
    [lia..|].
  destruct (shr_m mrs3) as [|m'|] eqn:E3; try lia.
  pose proof (Z.log2_nonneg (Z.pos m')).
  replace (e3 <=? emax - prec) with true.
  2:{ symmetry. apply Z.leb_le. unfold emax, prec. lia. }
  exists m', e3. split; [done|lia].
Qed.

(** A finite positive number whose magnitude (leading bit position) lies in
    [lo, hi]. *)
Definition pos_finite (lo hi : Z) (f : spec_float) : Prop :=
  ∃ m e, f = S754_finite false m e ∧ lo ≤ Z.log2 (Z.pos m) + e ≤ hi.

Lemma shl_align_mag mx ex ex' :
  Z.log2 (Z.pos (fst (shl_align mx ex ex'))) + snd (shl_align mx ex ex')
  = Z.log2 (Z.pos mx) + ex.
Proof.
  unfold shl_align. destruct (ex' - ex) as [|d|d] eqn:Ed; cbn [fst snd]; try done.
  assert (E : Z.pos (Pos.iter xO mx d) = Z.shiftl (Z.pos mx) (Z.pos d)).
  { unfold Z.shiftl. apply (Pos.iter_swap_gen _ _ Z.pos xO (Z.mul 2)). done. }
  rewrite E, Z.log2_shiftl by lia. lia.
Qed.

Lemma binary_normalize_pos z :
  0 < z → Z.log2 z ≤ 900 →
  pos_finite (Z.log2 z) (Z.log2 z + 1) (binary_normalize prec emax z 0 false).
Proof.
  intros Hz Hhi. destruct z as [|p|p]; try lia.
  unfold binary_normalize, binary_round.
  pose proof (shl_align_mag p 0 (fexp prec emax (Z.pos (digits2_pos p) + 0))) as Hs.
  destruct (shl_align p 0 _) as [mz ez]. cbn [fst snd] in Hs.
  pose proof (Z.log2_nonneg (Z.pos p)).
  destruct (binary_round_aux_pos (Z.pos mz) ez loc_Exact) as (m' & e' & -> & Hb);
    [lia..|].
  exists m', e'. split; [done|lia].
Qed.

Lemma of_uint63_pos z :
  0 < z < 2 ^ 63 →
  pos_finite (Z.log2 z) (Z.log2 z + 1) (Prim2SF (of_uint63 (Uint63.of_Z z))).
Proof.
  intros Hz. rewrite of_uint63_spec, Uint63.of_Z_spec.
  rewrite Z.mod_small by (change wB with (2 ^ 63); lia).
  apply binary_normalize_pos; [lia|].
  assert (Z.log2 z < 63) by (apply Z.log2_lt_pow2; lia). lia.
Qed.

Lemma SFmul_pos lo1 hi1 lo2 hi2 x y :
  pos_finite lo1 hi1 x → pos_finite lo2 hi2 y →
  -1074 < lo1 + lo2 → hi1 + hi2 ≤ 900 →
  pos_finite (lo1 + lo2) (hi1 + hi2 + 2) (SFmul prec emax x y).
Proof.
  intros (mx & ex & -> & Hx) (my & ey & -> & Hy) Hlo Hhi. simpl.
  pose proof (Z.log2_mul_below (Z.pos mx) (Z.pos my) eq_refl eq_refl) as Hb.
  pose proof (Z.log2_mul_above (Z.pos mx) (Z.pos my)) as Ha.
  rewrite Pos2Z.inj_mul.
  destruct (binary_round_aux_pos (Z.pos mx * Z.pos my) (ex + ey) loc_Exact)
    as (m' & e' & -> & Hr); [lia..|].
  exists m', e'. split; [done|lia].
Qed.

Lemma SFdiv_pos lo1 hi1 lo2 hi2 x y :
  pos_finite lo1 hi1 x → pos_finite lo2 hi2 y →
  -1000 < lo1 - hi2 → hi1 - lo2 ≤ 900 →
  pos_finite (lo1 - hi2 - 1) (hi1 - lo2 + 1) (SFdiv prec emax x y).
Proof.
  intros (mx & ex & -> & Hx) (my & ey & -> & Hy) Hlo Hhi. simpl.
  unfold SFdiv_core_binary. rewrite !Zdigits2_log2, fexp64 by lia.
  set (d1 := Z.log2 (Z.pos mx)) in *. set (d2 := Z.log2 (Z.pos my)) in *.
  set (e' := Z.min _ _).
  assert (He' : e' ≤ ex - ey ∧ e' ≤ d1 + ex - (d2 + ey) - 53 ∧
                (e' = ex - ey ∨ e' = d1 + ex - (d2 + ey) - 53)) by lia.
  set (s := ex - ey - e').
  assert (Hs : 0 ≤ s ∧ 53 - d1 + d2 ≤ s) by lia.
  set (m1 := match s with Z.pos _ => Z.shiftl (Z.pos mx) s | 0 => Z.pos mx
                     | Z.neg _ => 0 end).
  assert (Hm1 : m1 = Z.pos mx * 2 ^ s).
  { subst m1. destruct s eqn:Es; [lia| |lia]. by rewrite Z.shiftl_mul_pow2. }
  pose proof (Z.log2_spec (Z.pos mx) eq_refl) as Hsx. fold d1 in Hsx.
  pose proof (Z.log2_spec (Z.pos my) eq_refl) as Hsy. fold d2 in Hsy.
  pose proof (Z.log2_nonneg (Z.pos mx)) as Hd1. fold d1 in Hd1.
  pose proof (Z.log2_nonneg (Z.pos my)) as Hd2. fold d2 in Hd2.
  destruct (Z.div_eucl m1 (Z.pos my)) as [q r] eqn:Hqr.
  assert (Hq : q = m1 / Z.pos my) by (unfold Z.div; by rewrite Hqr).
  (* 2^(d1+s-d2-1) <= q < 2^(d1+s-d2+1) *)
  assert (Hk : 0 ≤ d1 + s - d2 - 1) by lia.
  assert (Hlow : 2 ^ (d1 + s - d2 - 1) ≤ q).
  { rewrite Hq. apply Z.div_le_lower_bound; [lia|].
    transitivity (2 ^ Z.succ d2 * 2 ^ (d1 + s - d2 - 1)).
    - apply Z.mul_le_mono_nonneg_r; [apply Z.pow_nonneg; lia|lia].
    - rewrite <- Z.pow_add_r by lia. rewrite Hm1.
      replace (Z.succ d2 + (d1 + s - d2 - 1)) with (d1 + s) by lia.
      rewrite Z.pow_add_r by lia.
      apply Z.mul_le_mono_nonneg_r; [apply Z.pow_nonneg; lia|lia]. }
  assert (Hupp : q < 2 ^ (d1 + s - d2 + 1)).
  { rewrite Hq. apply Z.div_lt_upper_bound; [lia|].
    apply Z.lt_le_trans with (2 ^ d2 * 2 ^ (d1 + s - d2 + 1)).
    - rewrite <- Z.pow_add_r by lia. rewrite Hm1.
      replace (d2 + (d1 + s - d2 + 1)) with (Z.succ d1 + s) by lia.
      rewrite Z.pow_add_r by lia.
      apply Z.mul_lt_mono_pos_r; [apply Z.pow_pos_nonneg; lia|lia].
    - apply Z.mul_le_mono_nonneg_r; [apply Z.pow_nonneg; lia|lia]. }
  assert (Hqpos : 0 < q).
  { apply Z.lt_le_trans with (2 ^ (d1 + s - d2 - 1)); [|done].
    apply Z.pow_pos_nonneg; lia. }
  assert (Hlq : d1 + s - d2 - 1 ≤ Z.log2 q ≤ d1 + s - d2).
  { split.
    - apply Z.log2_le_pow2; [done|done].
    - assert (Z.log2 q < d1 + s - d2 + 1); [|lia].
      apply Z.log2_lt_pow2; done. }
  destruct (binary_round_aux_pos q e' (new_location (Z.pos my) r)) as (m' & e'' & -> & Hr);
    [lia..|].
  exists m', e''. split; [done|lia].
Qed.

Lemma ltb_zero_pos lo hi x :
  pos_finite lo hi (Prim2SF x) → PrimFloat.ltb 0 x = true.
Proof.
  intros (m & e & Hx & _). rewrite FloatAxioms.ltb_spec, Hx. reflexivity.
Qed.

Lemma pos_finite_weaken lo hi lo' hi' f :
  pos_finite lo hi f → lo' ≤ lo → hi ≤ hi' → pos_finite lo' hi' f.
Proof. intros (m & e & -> & H) ? ?. exists m, e. split; [done|lia]. Qed.

Lemma int64_to_double_pos z :
  0 < z < 2 ^ 63 → pos_finite 0 63 (Prim2SF (int64_to_double z)).
Proof.
  intros Hz. unfold int64_to_double.
  destruct (0 <=? z) eqn:E; [|apply Z.leb_gt in E; lia].
  pose proof (Z.log2_nonneg z).
  assert (Z.log2 z < 63) by (apply Z.log2_lt_pow2; lia).
  eapply pos_finite_weaken; [by apply of_uint63_pos|lia..].
Qed.

(** ** The arbitrage detector *)

(** The specification's formula for a crossed book, bought at [p_buy] and
    sold at [p_sell], evaluated in [double] as the source does. *)
Definition crossed_profit_bps (p_sell p_buy : Z) : float :=
  (int64_to_double (p_sell - p_buy) / int64_to_double p_buy
   * int64_to_double 10000)%float.

(** One feed's bid is strictly above the other feed's ask, both prices
    positive: buy on A and sell on B, or buy on B and sell on A. *)
Definition crossed_buy_a (o : ArbitrageOpportunity) : Prop :=
  0 < feed_a_ask o ∧ 0 < feed_b_bid o ∧ feed_a_ask o < feed_b_bid o.

Definition crossed_buy_b (o : ArbitrageOpportunity) : Prop :=
  0 < feed_b_ask o ∧ 0 < feed_a_bid o ∧ feed_b_ask o < feed_a_bid o.

Definition int64 (x : Z) : Prop := - 2 ^ 63 ≤ x < 2 ^ 63.

Lemma crossed_profit_positive p_sell p_buy :
  0 < p_buy → p_buy < p_sell → p_sell < 2 ^ 63 →
  PrimFloat.ltb 0 (crossed_profit_bps p_sell p_buy) = true.
Proof.
  intros Hb Hlt Hs. unfold crossed_profit_bps.
  apply (ltb_zero_pos (-65 + 0) (64 + 63 + 2)).
  rewrite FloatAxioms.mul_spec, FloatAxioms.div_spec.
  apply SFmul_pos; [|apply int64_to_double_pos; lia|lia..].
  eapply pos_finite_weaken.
  - apply (SFdiv_pos 0 63 0 63); [apply int64_to_double_pos; lia..|lia|lia].
  - lia.
  - lia.
Qed.

Lemma profit_basis_points_cases o :
  profit_basis_points o =
  if decide (crossed_buy_a o)
  then crossed_profit_bps (feed_b_bid o) (feed_a_ask o)
  else if decide (crossed_buy_b o)
       then crossed_profit_bps (feed_a_bid o) (feed_b_ask o)
       else 0%float.
Proof.
  unfold profit_basis_points, crossed_buy_a, crossed_buy_b, crossed_profit_bps.
  repeat case_decide;
    repeat match goal with
           | |- context [?x <? ?y] =>
               let E := fresh in
               destruct (x <? y) eqn:E;
               [apply Z.ltb_lt in E|apply Z.ltb_ge in E]
           end; simpl; try done; lia.
Qed.

(** C7. For every opportunity record with [int64_t] prices: when feed B's
    bid is strictly above feed A's ask, both positive, the profit in basis
    points is [((P_sell - P_buy) / P_buy) * 10000] with [P_buy] that ask and
    [P_sell] that bid; otherwise, when feed A's bid is strictly above feed
    B's ask, both positive, it is the same formula on those two prices;
    otherwise it is 0.  The opportunity is profitable exactly when one of
    the two crossings holds, so an opportunity recorded for a mere
    disparity has profit 0.  The arithmetic is the binary64 arithmetic of
    the source. *)
Theorem profit_basis_points_crossed o :
  int64 (feed_a_bid o) → int64 (feed_a_ask o) →
  int64 (feed_b_bid o) → int64 (feed_b_ask o) →
  (crossed_buy_a o →
   profit_basis_points o = crossed_profit_bps (feed_b_bid o) (feed_a_ask o)) ∧
  (¬ crossed_buy_a o → crossed_buy_b o →
   profit_basis_points o = crossed_profit_bps (feed_a_bid o) (feed_b_ask o)) ∧
  (¬ crossed_buy_a o → ¬ crossed_buy_b o → profit_basis_points o = 0%float) ∧
  (is_profitable o = true ↔ crossed_buy_a o ∨ crossed_buy_b o).
Proof.
  intros Hab Haa Hbb Hba. unfold is_profitable.
  rewrite profit_basis_points_cases. unfold int64 in *.
  split_and!.
  - intros H. by rewrite decide_True.
  - intros H1 H2. by rewrite decide_False, decide_True.
  - intros H1 H2. by rewrite !decide_False.
  - destruct (decide (crossed_buy_a o)) as [Ha|Ha].
    { split; [auto|]. intros _. destruct Ha as (? & ? & ?).
      apply crossed_profit_positive; lia. }
    destruct (decide (crossed_buy_b o)) as [Hb|Hb].
    { split; [auto|]. intros _. destruct Hb as (? & ? & ?).
      apply crossed_profit_positive; lia. }
    split; [|tauto]. intros H. vm_compute in H. discriminate H.
Qed.

Lemma profit_basis_points_crossed_witness :
  int64 (feed_a_bid opportunity_crossed) ∧ int64 (feed_a_ask opportunity_crossed) ∧
  int64 (feed_b_bid opportunity_crossed) ∧ int64 (feed_b_ask opportunity_crossed) ∧
  (crossed_buy_a opportunity_crossed →
   profit_basis_points opportunity_crossed
   = crossed_profit_bps (feed_b_bid opportunity_crossed)
                        (feed_a_ask opportunity_crossed)) ∧
  (¬ crossed_buy_a opportunity_crossed → crossed_buy_b opportunity_crossed →
   profit_basis_points opportunity_crossed
   = crossed_profit_bps (feed_a_bid opportunity_crossed)
                        (feed_b_ask opportunity_crossed)) ∧
  (¬ crossed_buy_a opportunity_crossed → ¬ crossed_buy_b opportunity_crossed →
   profit_basis_points opportunity_crossed = 0%float) ∧
  (is_profitable opportunity_crossed = true ↔
   crossed_buy_a opportunity_crossed ∨ crossed_buy_b opportunity_crossed).
Proof.
  assert (H1 : int64 (feed_a_bid opportunity_crossed)) by (split; simpl; lia).
  assert (H2 : int64 (feed_a_ask opportunity_crossed)) by (split; simpl; lia).
  assert (H3 : int64 (feed_b_bid opportunity_crossed)) by (split; simpl; lia).
  assert (H4 : int64 (feed_b_ask opportunity_crossed)) by (split; simpl; lia).
  split; [exact H1|]. split; [exact H2|]. split; [exact H3|]. split; [exact H4|].
  exact (profit_basis_points_crossed opportunity_crossed H1 H2 H3 H4).
Defined.

(** Scenarios 7 and 8, through the detector: the quote of feed A, then the
    quote of feed B, records the opportunity. *)
Example scenario_crossed :
  let d1 := fst (process_quote ArbitrageDetector_new "A" quote_a 0) in
  let d2 := fst (process_quote d1 "B" quote_b_crossed 0) in
  recent_opportunities_ d2 = [opportunity_crossed] ∧
  is_profitable opportunity_crossed = true.
Proof. vm_compute. split; reflexivity. Qed.

Example scenario_disparity :
  let d1 := fst (process_quote ArbitrageDetector_new "A" quote_a 0) in
  let d2 := fst (process_quote d1 "B" quote_b_disparity 0) in
  recent_opportunities_ d2 = [opportunity_disparity] ∧
  profit_basis_points opportunity_disparity = 0%float.
Proof. vm_compute. split; reflexivity. Qed.

(** What [check_arbitrage] records carries the prices of the two quotes. *)
Lemma check_arbitrage_recorded d symbol_id state now d' opp :
  check_arbitrage d symbol_id state now = (d', [opp]) →
  feed_a_bid opp = bid_price (feed_a_quote state) ∧
  feed_a_ask opp = ask_price (feed_a_quote state) ∧
  feed_b_bid opp = bid_price (feed_b_quote state) ∧
  feed_b_ask opp = ask_price (feed_b_quote state).
Proof.
  unfold check_arbitrage. destruct (_ || _); [|done].
  destruct (arbitrage_callback_ d); [|done].
  by intros [= _ <-].
Qed.

(** * Further properties of the order book *)

(** ** Resting prices are positive *)

Definition prices_positive (b : OrderBookImpl) : Prop :=
  ∀ id o, order_map_ b !! id = Some o → 0 < price o.

Lemma prices_positive_cancel b id :
  prices_positive b → prices_positive (snd (cancel_order b id)).
Proof.
  intros Hb. unfold cancel_order.
  destruct (order_map_ b !! id) as [order|] eqn:Hid; [|done]. simpl.
  intros id' o. rewrite order_map_set_levels. simpl.
  rewrite lookup_delete_Some. intros [_ ?]. eauto.
Qed.

Lemma prices_positive_add b o :
  wf_book b → prices_positive b → prices_positive (snd (add_order b o)).
Proof.
  intros Hwf Hb. destruct (add_order_cases b o) as [->|(Hq & Hp & Hid)]; [done|].
  destruct (add_order_accepted b o Hq Hp Hid) as (b1 & o1 & ts & Hloop & ->).
  simpl.
  assert (Hb1 : prices_positive b1).
  { intros id x' Hx'.
    destruct (match_loop_index _ _ _ _ _ _ _ _ Hwf Hloop _ _ Hx')
      as (x & Hx & _ & _ & Hp').
    rewrite <- Hp'. eauto. }
  destruct (0 <? quantity o1); [|done].
  destruct (match_loop_incoming _ _ _ _ _ _ _ _ Hloop) as (_ & Hp1 & _).
  intros id x. unfold add_to_book. simpl. rewrite order_map_set_levels.
  rewrite lookup_insert_Some. intros [[_ <-]|[_ ?]]; [lia|eauto].
Qed.

Lemma reachable_prices_positive b : reachable b → prices_positive b.
Proof.
  induction 1 as [sym|b o Hr IH Ht|b id Hr IH|b id np nq now Hr IH Hq|b Hr IH].
  - intros id o H. simpl in H. by rewrite lookup_empty in H.
  - apply prices_positive_add; [by apply reachable_wf|done].
  - by apply prices_positive_cancel.
  - rewrite modify_order_eq. destruct (order_map_ b !! id); [|done]. simpl.
    apply prices_positive_add;
      [by apply wf_book_cancel, reachable_wf|by apply prices_positive_cancel].
  - intros id o H. simpl in H. by rewrite lookup_empty in H.
Qed.

(** X1. In every reachable book the index and the level queues agree: an
    indexed order is filed under its own id, has a positive price and a
    positive [uint32_t] quantity, and is queued in the level of its side
    and price; a level is stored under its own price, is never empty,
    queues no id twice, and every order it queues is the one the index
    holds for that id, with the level's side and price. *)
Theorem reachable_index_matches_levels b :
  reachable b →
  (∀ id o, order_map_ b !! id = Some o →
     order_id o = id ∧ 0 < price o ∧ 0 < quantity o < 2 ^ 32 ∧
     ∃ l, levels (side o) b !! price o = Some l ∧ o ∈ orders_ l) ∧
  (∀ s p l, levels s b !! p = Some l →
     price_ l = p ∧ orders_ l ≠ [] ∧ NoDup (order_id <$> orders_ l) ∧
     ∀ o, o ∈ orders_ l →
          order_map_ b !! order_id o = Some o ∧ side o = s ∧ price o = p).
Proof.
  intros Hr. pose proof (reachable_wf _ Hr) as [Hlv Hix].
  pose proof (reachable_prices_positive _ Hr) as Hpos. split.
  - intros id o Ho. destruct (Hix _ _ Ho) as [Hid (l & Hl & Hin)].
    destruct (wl_orders _ _ _ _ (Hlv _ _ _ Hl) o Hin) as (_ & _ & _ & ?).
    repeat split; [done|by eapply Hpos|lia|lia|by exists l].
  - intros s p l Hl. destruct (Hlv _ _ _ Hl) as [H1 H2 _ H4 H5].
    split_and!; try done. intros o Ho. destruct (H5 o Ho) as (?&?&?&_). done.
Qed.

Lemma reachable_index_matches_levels_witness :
  reachable (book_after [sell_1; buy_5]) ∧
  (∀ id o, order_map_ (book_after [sell_1; buy_5]) !! id = Some o →
     order_id o = id ∧ 0 < price o ∧ 0 < quantity o < 2 ^ 32 ∧
     ∃ l, levels (side o) (book_after [sell_1; buy_5]) !! price o = Some l ∧
          o ∈ orders_ l) ∧
  (∀ s p l, levels s (book_after [sell_1; buy_5]) !! p = Some l →
     price_ l = p ∧ orders_ l ≠ [] ∧ NoDup (order_id <$> orders_ l) ∧
     ∀ o, o ∈ orders_ l →
          order_map_ (book_after [sell_1; buy_5]) !! order_id o = Some o ∧
          side o = s ∧ price o = p).
Proof.
  assert (Hr : reachable (book_after [sell_1; buy_5])).
  { apply reachable_book_after. repeat constructor; simpl; lia. }
  split; [exact Hr|]. exact (reachable_index_matches_levels _ Hr).
Defined.

(** ** Level volumes *)

Definition sum_quantities (os : list Order) : Z :=
  foldr (λ o acc, quantity o + acc) 0 os.

Lemma sum_quantities_app os1 os2 :
  sum_quantities (os1 ++ os2) = sum_quantities os1 + sum_quantities os2.
Proof. induction os1 as [|o os1 IH]; simpl; lia. Qed.

Definition volumes_ok (b : OrderBookImpl) : Prop :=
  ∀ s p l, levels s b !! p = Some l →
           total_volume_ l = u32 (sum_quantities (orders_ l)).

Lemma u32_u32_add x y : u32 (u32 x + y) = u32 (x + y).
Proof. unfold u32. by rewrite Zplus_mod_idemp_l. Qed.

Lemma u32_u32_sub x y : u32 (u32 x - y) = u32 (x - y).
Proof. unfold u32. by rewrite Zminus_mod_idemp_l. Qed.

Lemma u32_idemp x : u32 (u32 x) = u32 x.
Proof. unfold u32. by rewrite Z.mod_mod. Qed.

Lemma remove_volume_sum id orders : ∀ tv,
  u32 (foldl (λ v o, if order_id o =? id then u32 (v - quantity o) else v)
             tv orders)
  = u32 (tv - (sum_quantities orders
               - sum_quantities (filter (not_id id) orders))).
Proof.
  induction orders as [|o orders IH]; intros tv; simpl.
  - f_equal. lia.
  - rewrite filter_cons. destruct (order_id o =? id) eqn:E.
    + apply Z.eqb_eq in E. rewrite decide_False by (unfold not_id; tauto).
      rewrite IH, u32_u32_sub. f_equal. lia.
    + apply Z.eqb_neq in E. rewrite decide_True by (unfold not_id; done).
      rewrite IH. simpl. f_equal. lia.
Qed.

Lemma remove_order_volume l id :
  0 ≤ total_volume_ l < 2 ^ 32 →
  total_volume_ l = u32 (sum_quantities (orders_ l)) →
  total_volume_ (snd (Level.remove_order l id))
  = u32 (sum_quantities (orders_ (snd (Level.remove_order l id)))).
Proof.
  intros Hr Hv. pose proof (remove_order_volume_range l id Hr) as Hr'.
  rewrite remove_order_orders.
  rewrite <- (u32_small _ Hr'). unfold Level.remove_order.
  rewrite remove_order_loop_spec. simpl.
  rewrite remove_volume_sum, Hv, u32_u32_sub. f_equal. lia.
Qed.

Lemma volumes_ok_cancel b id :
  wf_book b → volumes_ok b → volumes_ok (snd (cancel_order b id)).
Proof.
  intros Hwf Hv. unfold cancel_order.
  destruct (order_map_ b !! id) as [order|] eqn:Hid; [|done]. simpl.
  intros s p l. destruct (decide (s = side order)) as [->|Hne].
  2:{ rewrite levels_set_levels_ne, levels_set_order_map by done. apply Hv. }
  rewrite levels_set_levels, levels_set_order_map.
  destruct (levels (side order) b !! price order) as [l0|] eqn:Hl0; [|apply Hv].
  destruct (Level.empty _).
  - rewrite lookup_delete_Some. intros [_ ?]. by eapply Hv.
  - rewrite lookup_insert_Some. intros [[_ <-]|[_ ?]]; [|by eapply Hv].
    apply remove_order_volume; [|by eapply Hv].
    apply (wl_volume _ _ _ _ (wf_levels _ Hwf _ _ _ Hl0)).
Qed.

Lemma volumes_ok_add_to_book b o :
  volumes_ok b → volumes_ok (add_to_book b o).
Proof.
  intros Hv s p l. unfold add_to_book. rewrite levels_set_order_map.
  destruct (decide (s = side o)) as [->|Hne].
  2:{ rewrite levels_set_levels_ne by done. apply Hv. }
  rewrite levels_set_levels, lookup_insert_Some.
  intros [[_ <-]|[_ ?]]; [|by eapply Hv].
  unfold Level.add_order. simpl. rewrite sum_quantities_app. simpl.
  destruct (levels (side o) b !! price o) as [l0|] eqn:Hl0.
  - rewrite (Hv _ _ _ Hl0), u32_u32_add. f_equal. lia.
  - simpl. f_equal. lia.
Qed.

Lemma volumes_ok_iteration s b o b' o' ts :
  wf_book b → volumes_ok b → iteration_case s b o b' o' ts → volumes_ok b'.
Proof.
  intros Hwf Hv.
  destruct 1 as [p l Hq Hb Hn Ho | p l r rest m Hq Hb Hn Ho Hf
                | p l r rest m Hq Hb Hn Ho Hf];
    apply map_begin_Some in Hb as [Hl _];
    pose proof (wf_levels _ Hwf _ _ _ Hl) as Hwl.
  - by destruct (wl_nonempty _ _ _ _ Hwl).
  - destruct (wf_front _ _ _ _ _ _ Hwl Ho) as (_ & _ & _ & Hqr & _).
    assert (Hm : m = quantity r).
    { assert (0 < m ≤ quantity r) by (subst m; lia).
      rewrite u32_small in Hf by lia. lia. }
    intros s' k l'. destruct (decide ((s', k) = (opposite s, p))) as [[= -> ->]|Hne].
    2:{ rewrite levels_after_full_fill_ne by done. apply Hv. }
    rewrite levels_after_full_fill_opp.
    destruct rest as [|o1 rest1] eqn:Hrest; [by rewrite lookup_delete_eq|].
    rewrite <- Hrest in *. rewrite lookup_insert_eq. intros [= <-]. simpl.
    rewrite (Hv _ _ _ Hl), Ho, u32_u32_sub, Hm. simpl. f_equal. lia.
  - destruct (wf_front _ _ _ _ _ _ Hwl Ho) as (_ & _ & _ & Hqr & _).
    assert (Hm : 0 < m ≤ quantity r) by (subst m; lia).
    intros s' k l'. destruct (decide ((s', k) = (opposite s, p))) as [[= -> ->]|Hne].
    2:{ rewrite levels_after_partial_fill_ne by done. apply Hv. }
    rewrite levels_after_partial_fill_opp, lookup_insert_eq. intros [= <-]. simpl.
    rewrite (Hv _ _ _ Hl), Ho, u32_u32_sub. simpl.
    rewrite (u32_small (quantity r - m)) by lia. f_equal. lia.
Qed.

Lemma volumes_ok_add b o :
  wf_book b → volumes_ok b → volumes_ok (snd (add_order b o)).
Proof.
  intros Hwf Hv. destruct (add_order_cases b o) as [->|(Hq & Hp & Hid)]; [done|].
  destruct (add_order_accepted b o Hq Hp Hid) as (b1 & o1 & ts & Hloop & ->).
  simpl.
  assert (Hb1 : wf_book b1 ∧ volumes_ok b1).
  { revert Hloop.
    apply (match_loop_invariant (λ b1 _ _, wf_book b1 ∧ volumes_ok b1)); [|done].
    intros ?????? [? ?] Hc. split.
    - by eapply wf_book_iteration.
    - by eapply volumes_ok_iteration. }
  destruct (0 <? quantity o1); [|tauto].
  apply volumes_ok_add_to_book. tauto.
Qed.

Lemma reachable_volumes_ok b : reachable b → volumes_ok b.
Proof.
  induction 1 as [sym|b o Hr IH Ht|b id Hr IH|b id np nq now Hr IH Hq|b Hr IH].
  - intros s p l H. destruct s; simpl in H; by rewrite lookup_empty in H.
  - apply volumes_ok_add; [by apply reachable_wf|done].
  - apply volumes_ok_cancel; [by apply reachable_wf|done].
  - rewrite modify_order_eq. destruct (order_map_ b !! id); [|done]. simpl.
    apply volumes_ok_add;
      [by apply wf_book_cancel, reachable_wf
      |apply volumes_ok_cancel; [by apply reachable_wf|done]].
  - intros s p l H. destruct s; simpl in H; by rewrite lookup_empty in H.
Qed.

(** X2. In every reachable book, [volume_at_price] is the sum of the
    remaining quantities of the orders queued at that price on that side,
    and [order_count_at_price] is their number, each reduced to a
    [uint32_t]; both are 0 where no level exists. *)
Theorem volume_at_price_is_sum b p s :
  reachable b →
  let queued := match levels s b !! p with
                | Some l => orders_ l
                | None => []
                end in
  volume_at_price b p s = u32 (sum_quantities queued) ∧
  order_count_at_price b p s = u32 (Z.of_nat (length queued)).
Proof.
  intros Hr. unfold volume_at_price, order_count_at_price.
  destruct (levels s b !! p) as [l|] eqn:Hl; [|done].
  split; [|done]. by apply (reachable_volumes_ok _ Hr s p).
Qed.

Lemma volume_at_price_is_sum_witness :
  reachable (book_after [sell_1; sell_2]) ∧
  let queued := match levels SELL (book_after [sell_1; sell_2]) !! 100 with
                | Some l => orders_ l
                | None => []
                end in
  volume_at_price (book_after [sell_1; sell_2]) 100 SELL
    = u32 (sum_quantities queued) ∧
  order_count_at_price (book_after [sell_1; sell_2]) 100 SELL
    = u32 (Z.of_nat (length queued)).
Proof.
  assert (Hr : reachable (book_after [sell_1; sell_2])).
  { apply reachable_book_after. repeat constructor; simpl; lia. }
  split; [exact Hr|]. exact (volume_at_price_is_sum _ 100 SELL Hr).
Defined.

(** ** Price-time priority *)

Lemma key_le_antisym s k k' : key_le s k k' → key_le s k' k → k = k'.
Proof. destruct s; simpl; lia. Qed.

Lemma map_begin_best s (m : gmap Z PriceLevelImpl) p l :
  m !! p = Some l → (∀ k, is_Some (m !! k) → key_le s p k) →
  map_begin (key_before s) m = Some (p, l).
Proof.
  intros Hl Hbest. pose proof (map_begin_inv s m) as H.
  destruct (map_begin (key_before s) m) as [[k v]|].
  - destruct H as [Hk Hmin].
    assert (k = p) as ->
      by (apply (key_le_antisym s); [apply Hmin|apply Hbest]; eauto).
    rewrite Hl in Hk. by injection Hk as ->.
  - rewrite H in Hl. by rewrite lookup_empty in Hl.
Qed.

Lemma match_iteration_front s b o p l r rest :
  0 < quantity o →
  map_begin (key_before (opposite s)) (levels (opposite s) b) = Some (p, l) →
  orders_ l = r :: rest →
  no_match s (price o) p = false →
  ∃ b' o',
    match_iteration s b o
    = Some (b', o',
            [Trade_new (next_trade_id_ b) o r p (Z.min (quantity o) (quantity r))]).
Proof.
  intros Hq Hb Hl Hn. unfold match_iteration.
  apply Z.ltb_lt in Hq. rewrite Hq, Hb, Hn. cbn [negb].
  unfold Level.peek_front. rewrite Hl. cbn [head generate_trade].
  destruct (_ =? 0); eauto.
Qed.

Lemma match_loop_first s fuel b o t b1 o1 :
  match_iteration s b o = Some (b1, o1, [t]) →
  ∃ more, snd (match_loop s (S fuel) b o []) = t :: more.
Proof.
  intros Hit. cbn [match_loop]. rewrite Hit.
  destruct (match_loop s fuel b1 o1 ([] ++ [t])) as [[b2 o2] ts] eqn:Hloop.
  destruct (match_loop_acc _ _ _ _ _ _ _ _ Hloop) as [more ->]. by exists more.
Qed.

(** X3. Price-time priority of the first fill.  When an accepted order
    reaches the best opposite price, the first trade [add_order] returns is
    against the order at the front of the queue of that best level, at the
    level's price (not the incoming order's), for the smaller of the two
    quantities, and carries the book's next trade id. *)
Theorem add_order_first_trade b o p l r rest :
  0 < quantity o → 0 < price o → order_map_ b !! order_id o = None →
  levels (opposite (side o)) b !! p = Some l →
  (∀ k, is_Some (levels (opposite (side o)) b !! k) →
        key_le (opposite (side o)) p k) →
  orders_ l = r :: rest →
  no_match (side o) (price o) p = false →
  ∃ more,
    fst (add_order b o)
    = Trade_new (next_trade_id_ b) o r p (Z.min (quantity o) (quantity r)) :: more.
Proof.
  intros Hq Hp Hid Hl Hbest Hr Hn.
  destruct (add_order_accepted b o) as (b1 & o1 & ts & Hloop & ->); [lia|done|done|].
  pose proof (map_begin_best _ _ _ _ Hl Hbest) as Hb.
  destruct (match_iteration_front _ _ _ _ _ _ _ Hq Hb Hr Hn) as (b' & o' & Hit).
  destruct (match_loop_first _ (levels_weight (levels (opposite (side o)) b))
              _ _ _ _ _ Hit) as [more Hmore].
  exists more. unfold match_fuel in Hloop. rewrite Hloop in Hmore. done.
Qed.

Lemma add_order_first_trade_witness :
  0 < quantity buy_4 ∧ 0 < price buy_4 ∧
  order_map_ (book_after [sell_1; sell_2; sell_3]) !! order_id buy_4 = None ∧
  levels (opposite (side buy_4)) (book_after [sell_1; sell_2; sell_3]) !! 100
    = Some (mkLevel 100 [sell_1; sell_2] 25) ∧
  (∀ k, is_Some (levels (opposite (side buy_4))
                        (book_after [sell_1; sell_2; sell_3]) !! k) →
        key_le (opposite (side buy_4)) 100 k) ∧
  no_match (side buy_4) (price buy_4) 100 = false ∧
  ∃ more,
    fst (add_order (book_after [sell_1; sell_2; sell_3]) buy_4)
    = Trade_new (next_trade_id_ (book_after [sell_1; sell_2; sell_3]))
                buy_4 sell_1 100 (Z.min (quantity buy_4) (quantity sell_1))
      :: more.
Proof.
  assert (Hbest : ∀ k, is_Some (levels (opposite (side buy_4))
                                  (book_after [sell_1; sell_2; sell_3]) !! k) →
                       key_le (opposite (side buy_4)) 100 k).
  { intros k [v Hk]. change (100 ≤ k).
    change (levels (opposite (side buy_4)) (book_after [sell_1; sell_2; sell_3]))
      with (sell_levels_ (book_after [sell_1; sell_2; sell_3])) in Hk.
    assert (Hm : sell_levels_ (book_after [sell_1; sell_2; sell_3])
                 = <[100 := mkLevel 100 [sell_1; sell_2] 25]>
                     (<[101 := mkLevel 101 [sell_3] 20]> ∅))
      by (vm_compute; reflexivity).
    rewrite Hm in Hk. apply lookup_insert_Some in Hk as [[<- _]|[_ Hk]]; [lia|].
    apply lookup_insert_Some in Hk as [[<- _]|[_ Hk]]; [lia|].
    by rewrite lookup_empty in Hk. }
  split_and!; [done|done|done|done|exact Hbest|done|].
  by apply (add_order_first_trade (book_after [sell_1; sell_2; sell_3]) buy_4 100
              (mkLevel 100 [sell_1; sell_2] 25) sell_1 [sell_2]).
Defined.

(** ** When an order trades, and what is left of it *)

Lemma match_loop_stops s fuel b o acc :
  match_iteration s b o = None → match_loop s fuel b o acc = (b, o, acc).
Proof. intros H. destruct fuel; simpl; [done|by rewrite H]. Qed.

Lemma add_order_trades_nonempty b o :
  wf_book b → order_typed o →
  quantity o ≠ 0 → 0 < price o → order_map_ b !! order_id o = None →
  fst (add_order b o) ≠ [] ↔
  ∃ p l, map_begin (key_before (opposite (side o))) (levels (opposite (side o)) b)
         = Some (p, l) ∧
         no_match (side o) (price o) p = false.
Proof.
  intros Hwf Ht Hq Hp Hid.
  destruct (add_order_accepted b o Hq Hp Hid) as (b1 & o1 & ts & Hloop & ->).
  cbn [fst]. assert (Hq' : 0 < quantity o) by (unfold order_typed in Ht; lia).
  split.
  - intros Hne.
    destruct (map_begin (key_before (opposite (side o)))
                (levels (opposite (side o)) b)) as [[p l]|] eqn:Hb.
    + destruct (no_match (side o) (price o) p) eqn:Hn; [|by eauto].
      rewrite match_loop_stops in Hloop; [by injection Hloop as _ _ <-|].
      unfold match_iteration. apply Z.ltb_lt in Hq'. by rewrite Hq', Hb, Hn.
    + rewrite match_loop_stops in Hloop; [by injection Hloop as _ _ <-|].
      apply match_iteration_no_levels. by eapply map_begin_None.
  - intros (p & l & Hb & Hn).
    pose proof Hb as Hb'. apply map_begin_Some in Hb' as [Hl _].
    pose proof (wf_levels _ Hwf _ _ _ Hl) as Hwl.
    destruct (orders_ l) as [|r rest] eqn:Ho; [by destruct (wl_nonempty _ _ _ _ Hwl)|].
    destruct (match_iteration_front _ _ _ _ _ _ _ Hq' Hb Ho Hn) as (b' & o' & Hit).
    destruct (match_loop_first _ (levels_weight (levels (opposite (side o)) b))
                _ _ _ _ _ Hit) as [more Hmore].
    unfold match_fuel in Hloop. rewrite Hloop in Hmore. simpl in Hmore. by subst ts.
Qed.

(** X4. An accepted order trades exactly when it reaches the opposite best
    price: a buy returns at least one trade iff the book has a best ask at
    or below the buy's price, a sell iff the book has a best bid at or above
    the sell's price. *)
Theorem add_order_trades_iff_crossing b o :
  reachable b → order_typed o →
  quantity o ≠ 0 → 0 < price o → order_map_ b !! order_id o = None →
  fst (add_order b o) ≠ [] ↔
  match side o with
  | BUY => ∃ ask, best_ask b = Some ask ∧ ask ≤ price o
  | SELL => ∃ bid, best_bid b = Some bid ∧ price o ≤ bid
  end.
Proof.
  intros Hr Ht Hq Hp Hid.
  rewrite (add_order_trades_nonempty b o (reachable_wf _ Hr) Ht Hq Hp Hid).
  unfold best_ask, best_bid. destruct (side o); simpl.
  - split.
    + intros (p & l & -> & Hn). exists p. split; [done|]. by apply Z.ltb_ge.
    + intros (p & Hb & Hn).
      destruct (map_begin Z.ltb (sell_levels_ b)) as [[p' l]|]; [|done].
      injection Hb as ->. exists p, l. split; [done|]. by apply Z.ltb_ge.
  - split.
    + intros (p & l & -> & Hn). exists p. split; [done|].
      rewrite Z.gtb_ltb in Hn. by apply Z.ltb_ge.
    + intros (p & Hb & Hn).
      destruct (map_begin Z.gtb (buy_levels_ b)) as [[p' l]|]; [|done].
      injection Hb as ->. exists p, l. split; [done|].
      rewrite Z.gtb_ltb. by apply Z.ltb_ge.
Qed.

Lemma add_order_trades_iff_crossing_witness :
  reachable (book_after [sell_1]) ∧ order_typed buy_6 ∧
  quantity buy_6 ≠ 0 ∧ 0 < price buy_6 ∧
  order_map_ (book_after [sell_1]) !! order_id buy_6 = None ∧
  (fst (add_order (book_after [sell_1]) buy_6) ≠ [] ↔
   match side buy_6 with
   | BUY => ∃ ask, best_ask (book_after [sell_1]) = Some ask ∧ ask ≤ price buy_6
   | SELL => ∃ bid, best_bid (book_after [sell_1]) = Some bid ∧ price buy_6 ≤ bid
   end).
Proof.
  assert (Hr : reachable (book_after [sell_1])).
  { apply reachable_book_after. repeat constructor; simpl; lia. }
  assert (Ht : order_typed buy_6) by (unfold order_typed; simpl; lia).
  split_and!; [exact Hr|exact Ht|done|done|done|].
  apply (add_order_trades_iff_crossing _ buy_6 Hr Ht); done.
Defined.

(** ** The remainder of an incoming order *)

Lemma with_quantity_same o : with_quantity o (quantity o) = o.
Proof. by destruct o. Qed.

Lemma with_quantity_twice o q q' :
  with_quantity (with_quantity o q) q' = with_quantity o q'.
Proof. done. Qed.

Lemma iteration_incoming_fields s b o b' o' ts :
  iteration_case s b o b' o' ts → o' = with_quantity o (quantity o').
Proof. destruct 1; [by rewrite with_quantity_same|done|done]. Qed.

Lemma match_loop_incoming_fields s fuel b o acc b' o' ts :
  match_loop s fuel b o acc = (b', o', ts) → o' = with_quantity o (quantity o').
Proof.
  apply (match_loop_invariant (λ _ o1 _, o1 = with_quantity o (quantity o1)));
    [|by rewrite with_quantity_same].
  intros b1 o1 acc1 b2 o2 ts2 H1 Hc. apply iteration_incoming_fields in Hc.
  rewrite Hc, H1. done.
Qed.

Definition queue_at (s : Side) (p : Z) (b : OrderBookImpl) : list Order :=
  match levels s b !! p with
  | Some l => orders_ l
  | None => []
  end.

Lemma add_order_residual_wf b o :
  wf_book b → order_typed o →
  quantity o ≠ 0 → 0 < price o → order_map_ b !! order_id o = None →
  let trades := fst (add_order b o) in
  let b' := snd (add_order b o) in
  let residual := quantity o - total_quantity trades in
  0 ≤ residual ∧
  if 0 <? residual
  then order_map_ b' !! order_id o = Some (with_quantity o residual) ∧
       queue_at (side o) (price o) b'
       = queue_at (side o) (price o) b ++ [with_quantity o residual]
  else order_map_ b' !! order_id o = None ∧
       levels (side o) b' = levels (side o) b.
Proof.
  intros Hwf Ht Hq Hp Hid.
  destruct (add_order_accepted b o Hq Hp Hid) as (b1 & o1 & ts & Hloop & ->).
  cbn [fst snd].
  pose proof (trades_inv_loop (side o) b o eq_refl Hwf _ _ _ _ _ _ _
                (trades_inv_init _ _ _ Hwf Ht) Hloop) as Hinv.
  pose proof (ti_quantity _ _ _ _ _ _ Hinv) as Hsum.
  pose proof (ti_typed _ _ _ _ _ _ Hinv) as Ht1.
  pose proof (match_loop_incoming_fields _ _ _ _ _ _ _ _ Hloop) as Ho1.
  pose proof (match_loop_same_side _ _ _ _ _ _ _ _ Hloop) as Hsame.
  destruct (match_loop_incoming _ _ _ _ _ _ _ _ Hloop) as (Hid1 & Hp1 & Hs1 & _).
  assert (Hfresh : order_map_ b1 !! order_id o = None).
  { destruct (order_map_ b1 !! order_id o) as [x'|] eqn:Hx'; [|done].
    destruct (match_loop_index _ _ _ _ _ _ _ _ Hwf Hloop _ _ Hx') as (x & Hx & _).
    by rewrite Hid in Hx. }
  replace (quantity o - total_quantity ts) with (quantity o1) by lia.
  unfold order_typed in Ht1. split; [lia|].
  destruct (0 <? quantity o1) eqn:E; [|by rewrite Hsame].
  rewrite <- Ho1. unfold queue_at, add_to_book.
  rewrite order_map_set_levels. cbn [order_map_ set_order_map].
  rewrite levels_set_order_map, Hs1, levels_set_levels, Hp1, Hsame.
  rewrite <- Hid1, !lookup_insert_eq. split; [done|].
  by destruct (levels (side o) b !! price o).
Qed.

(** X5. What is left of an accepted order rests at the back of its queue.
    With [residual] the order's quantity less the quantities of the trades
    returned, [residual] is never negative; if it is positive the order is
    indexed with that quantity, every other field as submitted, and is
    appended behind the orders already queued at its price on its side; if
    it is zero the order is not indexed and its own side is left as it
    was. *)
Theorem add_order_residual b o :
  reachable b → order_typed o →
  quantity o ≠ 0 → 0 < price o → order_map_ b !! order_id o = None →
  let trades := fst (add_order b o) in
  let b' := snd (add_order b o) in
  let residual := quantity o - total_quantity trades in
  0 ≤ residual ∧
  if 0 <? residual
  then order_map_ b' !! order_id o = Some (with_quantity o residual) ∧
       queue_at (side o) (price o) b'
       = queue_at (side o) (price o) b ++ [with_quantity o residual]
  else order_map_ b' !! order_id o = None ∧
       levels (side o) b' = levels (side o) b.
Proof. intros Hr. apply add_order_residual_wf. by apply reachable_wf. Qed.

Lemma add_order_residual_witness :
  reachable (book_after [sell_1]) ∧ order_typed buy_4 ∧
  quantity buy_4 ≠ 0 ∧ 0 < price buy_4 ∧
  order_map_ (book_after [sell_1]) !! order_id buy_4 = None ∧
  let trades := fst (add_order (book_after [sell_1]) buy_4) in
  let b' := snd (add_order (book_after [sell_1]) buy_4) in
  let residual := quantity buy_4 - total_quantity trades in
  0 ≤ residual ∧
  if 0 <? residual
  then order_map_ b' !! order_id buy_4 = Some (with_quantity buy_4 residual) ∧
       queue_at (side buy_4) (price buy_4) b'
       = queue_at (side buy_4) (price buy_4) (book_after [sell_1])
         ++ [with_quantity buy_4 residual]
  else order_map_ b' !! order_id buy_4 = None ∧
       levels (side buy_4) b' = levels (side buy_4) (book_after [sell_1]).
Proof.
  assert (Hr : reachable (book_after [sell_1])).
  { apply reachable_book_after. repeat constructor; simpl; lia. }
  assert (Ht : order_typed buy_4) by (unfold order_typed; simpl; lia).
  split_and!; [exact Hr|exact Ht|done|done|done|].
  apply (add_order_residual _ buy_4 Hr Ht); done.
Defined.

(** ** Conservation of resting quantity *)

(** The quantity traded against the resting order [id] in a list of
    trades; the passive order's id is stored in [sell_order_id]. *)
Definition filled_against (id : Z) (ts : list Trade) : Z :=
  total_quantity (filter (λ t, sell_order_id t = id) ts).

Lemma filled_against_snoc id acc t :
  filled_against id (acc ++ [t])
  = filled_against id acc
    + (if decide (sell_order_id t = id) then trade_quantity t else 0).
Proof.
  unfold filled_against. rewrite filter_app, total_quantity_app, filter_cons.
  destruct (decide (sell_order_id t = id)); simpl; lia.
Qed.

Definition fills_accounted (b0 b : OrderBookImpl) (acc : list Trade) : Prop :=
  ∀ id x, order_map_ b0 !! id = Some x →
    match order_map_ b !! id with
    | Some x' => x' = with_quantity x (quantity x') ∧
                 quantity x' = quantity x - filled_against id acc
    | None => filled_against id acc = quantity x
    end.

Lemma fills_accounted_init b : fills_accounted b b [].
Proof.
  intros id x Hx. rewrite Hx. unfold filled_against. simpl.
  rewrite with_quantity_same. split; [done|lia].
Qed.

Lemma fills_accounted_step b0 s b o acc b' o' ts :
  wf_book b → fills_accounted b0 b acc → iteration_case s b o b' o' ts →
  fills_accounted b0 b' (acc ++ ts).
Proof.
  intros Hwf Hacc.
  destruct 1 as [p l Hq Hb Hn Ho | p l r rest m Hq Hb Hn Ho Hf
                | p l r rest m Hq Hb Hn Ho Hf].
  - rewrite app_nil_r. intros id x Hx. rewrite order_map_set_levels.
    by apply Hacc.
  - apply map_begin_Some in Hb as [Hl _].
    destruct (wf_front _ _ _ _ _ _ (wf_levels _ Hwf _ _ _ Hl) Ho)
      as (Hr & _ & _ & Hqr & _).
    assert (Hm : m = quantity r).
    { assert (0 < m ≤ quantity r) by (subst m; lia).
      rewrite u32_small in Hf by lia. lia. }
    intros id x Hx. specialize (Hacc id x Hx).
    rewrite order_map_after_full_fill, filled_against_snoc. simpl.
    destruct (decide (order_id r = id)) as [<-|Hne].
    + rewrite lookup_delete_eq. rewrite Hr in Hacc. lia.
    + rewrite lookup_delete_ne by done.
      destruct (order_map_ b !! id); [|lia].
      destruct Hacc as [? ?]. split; [done|lia].
  - apply map_begin_Some in Hb as [Hl _].
    destruct (wf_front _ _ _ _ _ _ (wf_levels _ Hwf _ _ _ Hl) Ho)
      as (Hr & _ & _ & Hqr & _).
    assert (Hm : 0 < m ≤ quantity r) by (subst m; lia).
    intros id x Hx. specialize (Hacc id x Hx).
    rewrite order_map_after_partial_fill, filled_against_snoc. simpl.
    destruct (decide (order_id r = id)) as [<-|Hne].
    + rewrite lookup_alter_eq. rewrite Hr in Hacc |- *. simpl.
      destruct Hacc as [Hx' Hqx]. rewrite u32_small by lia. split; [|lia].
      rewrite Hx'. done.
    + rewrite lookup_alter_ne by done.
      destruct (order_map_ b !! id); [|lia].
      destruct Hacc as [? ?]. split; [done|lia].
Qed.

Lemma fills_accounted_loop s fuel b o b' o' ts :
  wf_book b → match_loop s fuel b o [] = (b', o', ts) →
  wf_book b' ∧ fills_accounted b b' ts.
Proof.
  intros Hwf.
  apply (match_loop_invariant (λ b1 _ acc, wf_book b1 ∧ fills_accounted b b1 acc)).
  - intros b1 o1 acc b2 o2 ts2 [Hwf1 Hacc] Hc. split.
    + by eapply wf_book_iteration.
    + by eapply fills_accounted_step.
  - split; [done|apply fills_accounted_init].
Qed.

(** X6. [add_order] changes a resting order only through fills.  For an
    order [x] indexed under [id] before the call: if it is still indexed
    afterwards, it differs from [x] in its quantity alone, which is positive
    and is [x]'s quantity less the quantities of the returned trades that
    name [id] as passive order; if it is no longer indexed, those trades add
    up to exactly [x]'s quantity. *)
Theorem add_order_resting_fills b o id x :
  reachable b → order_typed o → order_map_ b !! id = Some x →
  let trades := fst (add_order b o) in
  match order_map_ (snd (add_order b o)) !! id with
  | Some x' => x' = with_quantity x (quantity x') ∧
               0 < quantity x' ∧
               quantity x' = quantity x - filled_against id trades
  | None => filled_against id trades = quantity x
  end.
Proof.
  intros Hr Ht Hx. pose proof (reachable_wf _ Hr) as Hwf.
  assert (Hpos : ∀ b1 x1, wf_book b1 → order_map_ b1 !! id = Some x1 →
                          0 < quantity x1).
  { intros b1 x1 Hwf1 Hx1. destruct (wf_index _ Hwf1 _ _ Hx1) as (_ & l & Hl & Hin).
    destruct (wl_orders _ _ _ _ (wf_levels _ Hwf1 _ _ _ Hl) _ Hin) as (_&_&_&?).
    lia. }
  destruct (add_order_cases b o) as [->|(Hq & Hp & Hid)].
  { cbn [fst snd]. rewrite Hx. unfold filled_against. simpl.
    rewrite with_quantity_same. split_and!; [done|by eapply Hpos|lia]. }
  destruct (add_order_accepted b o Hq Hp Hid) as (b1 & o1 & ts & Hloop & ->).
  cbn [fst snd].
  destruct (fills_accounted_loop _ _ _ _ _ _ _ Hwf Hloop) as [Hwf1 Hacc].
  specialize (Hacc id x Hx).
  destruct (match_loop_incoming _ _ _ _ _ _ _ _ Hloop) as (Hid1 & _).
  assert (Hne : order_id o1 ≠ id) by (intros <-; rewrite Hid1, Hid in Hx; done).
  assert (Heq : order_map_ (if 0 <? quantity o1 then add_to_book b1 o1 else b1) !! id
                = order_map_ b1 !! id).
  { destruct (0 <? quantity o1); [|done]. unfold add_to_book.
    cbn [order_map_ set_order_map]. rewrite order_map_set_levels.
    by rewrite lookup_insert_ne. }
  rewrite Heq. destruct (order_map_ b1 !! id) as [x'|] eqn:Hx'; [|done].
  destruct Hacc as [? ?]. split_and!; [done|by eapply Hpos|done].
Qed.

Lemma add_order_resting_fills_witness :
  reachable (book_after [sell_1; sell_2]) ∧ order_typed buy_6 ∧
  order_map_ (book_after [sell_1; sell_2]) !! 2 = Some sell_2 ∧
  let trades := fst (add_order (book_after [sell_1; sell_2]) buy_6) in
  match order_map_ (snd (add_order (book_after [sell_1; sell_2]) buy_6)) !! 2 with
  | Some x' => x' = with_quantity sell_2 (quantity x') ∧
               0 < quantity x' ∧
               quantity x' = quantity sell_2 - filled_against 2 trades
  | None => filled_against 2 trades = quantity sell_2
  end.
Proof.
  assert (Hr : reachable (book_after [sell_1; sell_2])).
  { apply reachable_book_after. repeat constructor; simpl; lia. }
  assert (Ht : order_typed buy_6) by (unfold order_typed; simpl; lia).
  split_and!; [exact Hr|exact Ht|done|].
  apply (add_order_resting_fills _ buy_6 2 sell_2 Hr Ht). done.
Defined.

(** ** Trade identifiers *)

Lemma u64_range x : 0 ≤ u64 x < 2 ^ 64.
Proof. unfold u64. apply Z.mod_pos_bound. lia. Qed.

Lemma u64_small x : 0 ≤ x < 2 ^ 64 → u64 x = x.
Proof. intros. unfold u64. by apply Z.mod_small. Qed.

Lemma u64_u64_add x y : u64 (u64 x + y) = u64 (x + y).
Proof. unfold u64. by rewrite Zplus_mod_idemp_l. Qed.

Lemma next_trade_id_set_levels s m b :
  next_trade_id_ (set_levels s m b) = next_trade_id_ b.
Proof. by destruct s. Qed.

Lemma next_trade_id_add_to_book b o :
  next_trade_id_ (add_to_book b o) = next_trade_id_ b.
Proof. unfold add_to_book. simpl. apply next_trade_id_set_levels. Qed.

Lemma next_trade_id_cancel b id :
  next_trade_id_ (snd (cancel_order b id)) = next_trade_id_ b.
Proof.
  unfold cancel_order. destruct (order_map_ b !! id); [|done]. simpl.
  by rewrite next_trade_id_set_levels.
Qed.

Definition ids_consecutive (n0 : Z) (o0 : Order) (b : OrderBookImpl)
    (acc : list Trade) : Prop :=
  (∀ (i : nat) t, acc !! i = Some t →
     trade_id t = u64 (n0 + Z.of_nat i) ∧ buy_order_id t = order_id o0 ∧
     trade_symbol_id t = symbol_id o0) ∧
  next_trade_id_ b = u64 (n0 + Z.of_nat (length acc)).

Lemma ids_consecutive_step n0 o0 s b o acc b' o' ts :
  order_id o = order_id o0 → symbol_id o = symbol_id o0 →
  ids_consecutive n0 o0 b acc → iteration_case s b o b' o' ts →
  ids_consecutive n0 o0 b' (acc ++ ts).
Proof.
  intros Hid Hsym [Hacc Hnext].
  assert (Hsnoc : ∀ r p m,
    ids_consecutive n0 o0
      (set_next_trade_id (u64 (next_trade_id_ b + 1)) b)
      (acc ++ [Trade_new (next_trade_id_ b) o r p m])).
  { intros r p m. split.
    - intros i t. rewrite lookup_app_Some. intros [Hi|[Hlen Hi]]; [by apply Hacc|].
      destruct (i - length acc)%nat as [|j] eqn:Hj; [|done].
      injection Hi as <-. simpl. rewrite Hnext, Hid, Hsym.
      split_and!; [|done|done]. f_equal. lia.
    - simpl. rewrite Hnext, u64_u64_add, length_app. simpl. f_equal. lia. }
  destruct 1 as [p l Hq Hb Hn Ho | p l r rest m Hq Hb Hn Ho Hf
                | p l r rest m Hq Hb Hn Ho Hf].
  - rewrite app_nil_r. split; [done|]. by rewrite next_trade_id_set_levels.
  - destruct (Hsnoc r p m) as [H1 H2]. split; [done|].
    unfold after_full_fill. by rewrite next_trade_id_set_levels.
  - destruct (Hsnoc r p m) as [H1 H2]. split; [done|].
    unfold after_partial_fill. by rewrite next_trade_id_set_levels.
Qed.

Lemma ids_consecutive_add b o :
  0 ≤ next_trade_id_ b < 2 ^ 64 →
  ids_consecutive (next_trade_id_ b) o (snd (add_order b o)) (fst (add_order b o)).
Proof.
  intros Hn.
  assert (H0 : ids_consecutive (next_trade_id_ b) o b []).
  { split; [done|]. simpl. rewrite Z.add_0_r. by rewrite u64_small. }
  destruct (add_order_cases b o) as [->|(Hq & Hp & Hid)]; [done|].
  destruct (add_order_accepted b o Hq Hp Hid) as (b1 & o1 & ts & Hloop & ->).
  cbn [fst snd].
  assert (H1 : (order_id o1 = order_id o ∧ symbol_id o1 = symbol_id o) ∧
               ids_consecutive (next_trade_id_ b) o b1 ts).
  { revert Hloop.
    apply (match_loop_invariant
             (λ b1 o1 acc, (order_id o1 = order_id o ∧ symbol_id o1 = symbol_id o) ∧
                           ids_consecutive (next_trade_id_ b) o b1 acc));
      [|done].
    intros b2 o2 acc b3 o3 ts3 [[? ?] Hc] Hit. split.
    - apply iteration_incoming in Hit as (?&?&?&?). split; congruence.
    - by eapply ids_consecutive_step. }
  destruct H1 as [_ [Hacc Hnext]]. split; [done|].
  destruct (0 <? quantity o1); [|done]. by rewrite next_trade_id_add_to_book.
Qed.

Lemma reachable_next_trade_id b : reachable b → 0 ≤ next_trade_id_ b < 2 ^ 64.
Proof.
  induction 1 as [sym|b o Hr IH Ht|b id Hr IH|b id np nq now Hr IH Hq|b Hr IH].
  - simpl. lia.
  - destruct (ids_consecutive_add b o IH) as [_ ->]. apply u64_range.
  - by rewrite next_trade_id_cancel.
  - rewrite modify_order_eq. destruct (order_map_ b !! id); [|done]. simpl.
    assert (H : 0 ≤ next_trade_id_ (snd (cancel_order b id)) < 2 ^ 64)
      by (by rewrite next_trade_id_cancel).
    match goal with
    | |- context [add_order ?b1 ?o1] =>
        destruct (ids_consecutive_add b1 o1 H) as [_ ->]
    end.
    apply u64_range.
  - done.
Qed.

(** X7. The trades of one [add_order] are numbered consecutively from the
    book's [next_trade_id_] (modulo 2^64), which afterwards has advanced by
    the number of trades; each trade carries the incoming order's symbol
    and, whichever side the incoming order is on, the incoming order's id
    in [buy_order_id]. *)
Theorem add_order_trade_ids b o :
  reachable b →
  let trades := fst (add_order b o) in
  (∀ (i : nat) t, trades !! i = Some t →
     trade_id t = u64 (next_trade_id_ b + Z.of_nat i) ∧
     buy_order_id t = order_id o ∧
     trade_symbol_id t = symbol_id o) ∧
  next_trade_id_ (snd (add_order b o)) = u64 (next_trade_id_ b + Z.of_nat (length trades)).
Proof.
  intros Hr. apply ids_consecutive_add. by apply reachable_next_trade_id.
Qed.

Lemma add_order_trade_ids_witness :
  reachable (book_after [buy_5; buy_6]) ∧
  let trades := fst (add_order (book_after [buy_5; buy_6])
                               (Order_new 9 1 99 20 SELL 0 0)) in
  (∀ (i : nat) t, trades !! i = Some t →
     trade_id t = u64 (next_trade_id_ (book_after [buy_5; buy_6]) + Z.of_nat i) ∧
     buy_order_id t = order_id (Order_new 9 1 99 20 SELL 0 0) ∧
     trade_symbol_id t = symbol_id (Order_new 9 1 99 20 SELL 0 0)) ∧
  next_trade_id_ (snd (add_order (book_after [buy_5; buy_6])
                                 (Order_new 9 1 99 20 SELL 0 0)))
  = u64 (next_trade_id_ (book_after [buy_5; buy_6]) + Z.of_nat (length trades)).
Proof.
  assert (Hr : reachable (book_after [buy_5; buy_6])).
  { apply reachable_book_after. repeat constructor; simpl; lia. }
  split; [exact Hr|]. exact (add_order_trade_ids _ _ Hr).
Defined.

(** ** Cancelling a resting order *)

Lemma filter_all {A} (P : A → Prop) `{!∀ x, Decision (P x)} (l : list A) :
  (∀ x, x ∈ l → P x) → filter P l = l.
Proof.
  induction l as [|a l IH]; intros Hall; [done|].
  rewrite filter_cons, decide_True by (apply Hall; by left).
  f_equal. apply IH. intros x Hx. apply Hall. by right.
Qed.

Lemma filter_not_id_split before o after :
  NoDup (order_id <$> before ++ o :: after) →
  filter (not_id (order_id o)) (before ++ o :: after) = before ++ after.
Proof.
  rewrite fmap_app, fmap_cons. intros Hnd.
  apply NoDup_app in Hnd as (_ & Hdisj & Hnd).
  apply NoDup_cons in Hnd as [Hafter _].
  rewrite filter_app, filter_cons, decide_False by (unfold not_id; tauto).
  rewrite !filter_all; [done| |].
  - intros x Hx Heq. apply Hafter. rewrite <- Heq. by apply list_elem_of_fmap_2.
  - intros x Hx Heq. apply (Hdisj (order_id x)).
    + by apply list_elem_of_fmap_2.
    + rewrite Heq. by left.
Qed.

Lemma cancel_queue_at b id o before after :
  wf_book b → order_map_ b !! id = Some o →
  queue_at (side o) (price o) b = before ++ o :: after →
  queue_at (side o) (price o) (snd (cancel_order b id)) = before ++ after.
Proof.
  intros Hwf Ho Hsplit.
  destruct (wf_index _ Hwf _ _ Ho) as (Hid & l & Hl & Hin).
  pose proof (wf_levels _ Hwf _ _ _ Hl) as Hwl.
  unfold queue_at in Hsplit. rewrite Hl in Hsplit.
  rewrite (cancel_order_found _ _ _ Ho). cbn [snd]. unfold queue_at.
  rewrite levels_set_levels, Hl. cbn zeta.
  pose proof (remove_order_orders l id) as Hrem.
  rewrite Hsplit, <- Hid, filter_not_id_split in Hrem
    by (rewrite <- Hsplit; apply (wl_nodup _ _ _ _ Hwl)).
  rewrite <- Hid.
  destruct (Level.empty _) eqn:E.
  - apply level_empty_true in E. rewrite lookup_delete_eq. congruence.
  - by rewrite lookup_insert_eq.
Qed.

(** X8. Cancelling a resting order.  For an order [o] indexed under [id]
    in a reachable book, [cancel_order] returns true, drops exactly [id]
    from the index, takes [o] out of the queue of its price and side while
    keeping the others in their order, lowers that level's volume by [o]'s
    quantity and leaves every other level and the trade-id counter alone. *)
Theorem cancel_order_resting b id o :
  reachable b → order_map_ b !! id = Some o →
  let b' := snd (cancel_order b id) in
  fst (cancel_order b id) = true ∧
  order_map_ b' = delete id (order_map_ b) ∧
  (∃ before after,
     queue_at (side o) (price o) b = before ++ o :: after ∧
     queue_at (side o) (price o) b' = before ++ after) ∧
  volume_at_price b' (price o) (side o)
  = u32 (volume_at_price b (price o) (side o) - quantity o) ∧
  (∀ s p, (s, p) ≠ (side o, price o) → levels s b' !! p = levels s b !! p) ∧
  next_trade_id_ b' = next_trade_id_ b.
Proof.
  intros Hr Ho b'.
  pose proof (reachable_wf _ Hr) as Hwf.
  assert (Hr' : reachable b') by (by apply reach_cancel).
  destruct (wf_index _ Hwf _ _ Ho) as (Hid & l & Hl & Hin).
  pose proof (wf_levels _ Hwf _ _ _ Hl) as Hwl.
  apply list_elem_of_split in Hin as (before & after & Hsplit).
  assert (Hq' : queue_at (side o) (price o) b' = before ++ after).
  { apply cancel_queue_at; [done|done|]. unfold queue_at. by rewrite Hl. }
  split_and!.
  - subst b'. by rewrite (cancel_order_found _ _ _ Ho).
  - subst b'. rewrite (cancel_order_found _ _ _ Ho). cbn [snd].
    by rewrite order_map_set_levels.
  - exists before, after. split; [|done]. unfold queue_at. by rewrite Hl.
  - pose proof (reachable_volumes_ok _ Hr) as Hv.
    pose proof (reachable_volumes_ok _ Hr') as Hv'.
    unfold volume_at_price, Level.volume. rewrite Hl, (Hv _ _ _ Hl), Hsplit.
    rewrite u32_u32_sub, sum_quantities_app. cbn [sum_quantities foldr].
    fold (sum_quantities after).
    unfold queue_at in Hq'.
    destruct (levels (side o) b' !! price o) as [l'|] eqn:Hl'.
    + rewrite (Hv' _ _ _ Hl'), Hq', sum_quantities_app. f_equal. lia.
    + symmetry in Hq'. apply app_eq_nil in Hq' as [-> ->]. simpl.
      replace (0 + (quantity o + 0) - quantity o) with 0 by lia. done.
  - intros s p Hne. subst b'. rewrite (cancel_order_found _ _ _ Ho). cbn [snd].
    destruct (decide (s = side o)) as [->|Hs].
    2:{ by rewrite levels_set_levels_ne, levels_set_order_map. }
    rewrite levels_set_levels, Hl. cbn zeta.
    assert (p ≠ price o) by congruence.
    destruct (Level.empty _).
    + by rewrite lookup_delete_ne.
    + by rewrite lookup_insert_ne.
  - apply next_trade_id_cancel.
Qed.

Lemma cancel_order_resting_witness :
  reachable (book_after [sell_1; sell_2]) ∧
  order_map_ (book_after [sell_1; sell_2]) !! 1 = Some sell_1 ∧
  let b' := snd (cancel_order (book_after [sell_1; sell_2]) 1) in
  fst (cancel_order (book_after [sell_1; sell_2]) 1) = true ∧
  order_map_ b' = delete 1 (order_map_ (book_after [sell_1; sell_2])) ∧
  (∃ before after,
     queue_at (side sell_1) (price sell_1) (book_after [sell_1; sell_2])
     = before ++ sell_1 :: after ∧
     queue_at (side sell_1) (price sell_1) b' = before ++ after) ∧
  volume_at_price b' (price sell_1) (side sell_1)
  = u32 (volume_at_price (book_after [sell_1; sell_2]) (price sell_1) (side sell_1)
         - quantity sell_1) ∧
  (∀ s p, (s, p) ≠ (side sell_1, price sell_1) →
          levels s b' !! p = levels s (book_after [sell_1; sell_2]) !! p) ∧
  next_trade_id_ b' = next_trade_id_ (book_after [sell_1; sell_2]).
Proof.
  assert (Hr : reachable (book_after [sell_1; sell_2])).
  { apply reachable_book_after. repeat constructor; simpl; lia. }
  split_and!; [exact Hr|done|].
  apply (cancel_order_resting _ 1 sell_1 Hr). done.
Defined.

(** ** Best prices *)

Lemma best_price_meaning s b :
  wf_book b →
  match map_begin (key_before s) (levels s b) with
  | Some (p, _) =>
      (∃ o, order_map_ b !! order_id o = Some o ∧ side o = s ∧ price o = p) ∧
      (∀ id o, order_map_ b !! id = Some o → side o = s → key_le s p (price o))
  | None => ∀ id o, order_map_ b !! id = Some o → side o ≠ s
  end.
Proof.
  intros Hwf. pose proof (map_begin_inv s (levels s b)) as H.
  destruct (map_begin (key_before s) (levels s b)) as [[p l]|].
  - destruct H as [Hl Hmin]. pose proof (wf_levels _ Hwf _ _ _ Hl) as Hwl. split.
    + destruct (orders_ l) as [|r rest] eqn:Ho; [by destruct (wl_nonempty _ _ _ _ Hwl)|].
      destruct (wf_front _ _ _ _ _ _ Hwl Ho) as (?&?&?&_). by exists r.
    + intros id o Ho <-. destruct (wf_index _ Hwf _ _ Ho) as (_ & l' & Hl' & _).
      apply Hmin. by exists l'.
  - intros id o Ho <-. destruct (wf_index _ Hwf _ _ Ho) as (_ & l' & Hl' & _).
    rewrite H in Hl'. by rewrite lookup_empty in Hl'.
Qed.

(** X9. In a reachable book [best_bid] is the highest price of a resting
    buy order and [best_ask] the lowest price of a resting sell order: each
    is the price of some indexed order of its side and no indexed order of
    that side has a better price; each is empty exactly when no order of
    its side is indexed. *)
Theorem best_prices_are_extremes b :
  reachable b →
  match best_bid b with
  | Some bid =>
      (∃ o, order_map_ b !! order_id o = Some o ∧ side o = BUY ∧ price o = bid) ∧
      (∀ id o, order_map_ b !! id = Some o → side o = BUY → price o ≤ bid)
  | None => ∀ id o, order_map_ b !! id = Some o → side o ≠ BUY
  end ∧
  match best_ask b with
  | Some ask =>
      (∃ o, order_map_ b !! order_id o = Some o ∧ side o = SELL ∧ price o = ask) ∧
      (∀ id o, order_map_ b !! id = Some o → side o = SELL → ask ≤ price o)
  | None => ∀ id o, order_map_ b !! id = Some o → side o ≠ SELL
  end.
Proof.
  intros Hr. pose proof (reachable_wf _ Hr) as Hwf.
  pose proof (best_price_meaning BUY b Hwf) as Hb.
  pose proof (best_price_meaning SELL b Hwf) as Ha.
  split.
  - unfold best_bid. change (buy_levels_ b) with (levels BUY b).
    destruct (map_begin (key_before BUY) (levels BUY b)) as [[p l]|]; exact Hb.
  - unfold best_ask. change (sell_levels_ b) with (levels SELL b).
    destruct (map_begin (key_before SELL) (levels SELL b)) as [[p l]|]; exact Ha.
Qed.

Lemma best_prices_are_extremes_witness :
  reachable (book_after [buy_5; sell_1; sell_3]) ∧
  match best_bid (book_after [buy_5; sell_1; sell_3]) with
  | Some bid =>
      (∃ o, order_map_ (book_after [buy_5; sell_1; sell_3]) !! order_id o = Some o ∧
            side o = BUY ∧ price o = bid) ∧
      (∀ id o, order_map_ (book_after [buy_5; sell_1; sell_3]) !! id = Some o →
               side o = BUY → price o ≤ bid)
  | None => ∀ id o, order_map_ (book_after [buy_5; sell_1; sell_3]) !! id = Some o →
                    side o ≠ BUY
  end ∧
  match best_ask (book_after [buy_5; sell_1; sell_3]) with
  | Some ask =>
      (∃ o, order_map_ (book_after [buy_5; sell_1; sell_3]) !! order_id o = Some o ∧
            side o = SELL ∧ price o = ask) ∧
      (∀ id o, order_map_ (book_after [buy_5; sell_1; sell_3]) !! id = Some o →
               side o = SELL → ask ≤ price o)
  | None => ∀ id o, order_map_ (book_after [buy_5; sell_1; sell_3]) !! id = Some o →
                    side o ≠ SELL
  end.
Proof.
  assert (Hr : reachable (book_after [buy_5; sell_1; sell_3])).
  { apply reachable_book_after. repeat constructor; simpl; lia. }
  split; [exact Hr|]. exact (best_prices_are_extremes _ Hr).
Defined.

(** ** A modification gives up time priority *)

Lemma same_price_no_trades b id o nq now :
  wf_book b → no_cross b → prices_positive b →
  order_map_ b !! id = Some o → 0 < nq < 2 ^ 32 →
  let new_order :=
    with_timestamp_ns (with_quantity (with_price o (price o)) nq) now in
  fst (add_order (snd (cancel_order b id)) new_order) = [].
Proof.
  intros Hwf Hnc Hpos Ho Hnq new_order.
  destruct (wf_index _ Hwf _ _ Ho) as (Hid & l & Hl & _).
  set (b1 := snd (cancel_order b id)).
  assert (Hgone : order_map_ b1 !! order_id new_order = None).
  { subst b1. rewrite (cancel_order_found _ _ _ Ho). cbn [snd].
    rewrite order_map_set_levels. simpl. rewrite Hid. apply lookup_delete_eq. }
  destruct (fst (add_order b1 new_order)) as [|t ts] eqn:Htr; [done|exfalso].
  assert (Hne : fst (add_order b1 new_order) ≠ []) by (by rewrite Htr).
  apply add_order_trades_nonempty in Hne as (p & lv & Hb & Hn).
  - apply map_begin_Some in Hb as [Hlv _].
    assert (Hopp : is_Some (levels (opposite (side o)) b !! p)).
    { apply (cancel_order_keys b id). by exists lv. }
    pose proof (proj1 (no_cross_side (side o) b) Hnc (price o) p
                  ltac:(by exists l) Hopp) as Hlt.
    simpl in Hn. destruct (side o); simpl in Hlt, Hn.
    + apply Z.ltb_ge in Hn. lia.
    + rewrite Z.gtb_ltb in Hn. apply Z.ltb_ge in Hn. lia.
  - by apply wf_book_cancel.
  - unfold order_typed. simpl. lia.
  - simpl. lia.
  - simpl. by eapply Hpos.
  - done.
Qed.

(** X25. A modification that keeps the price still gives up time
    priority.  For an order [o] resting under [id] in a reachable book,
    with [before] the orders queued ahead of it at its price and [after]
    those behind, [modify_order(id, o.price, new_quantity)] with a
    positive quantity trades nothing, returns [o] with the new quantity and
    a new timestamp, indexes it under [id], and queues it behind every
    order that was at that price, whether the quantity went up or down. *)
Theorem modify_same_price_requeues b id o before after new_quantity now :
  reachable b → order_map_ b !! id = Some o →
  queue_at (side o) (price o) b = before ++ o :: after →
  0 < new_quantity < 2 ^ 32 →
  let new_order :=
    with_timestamp_ns (with_quantity (with_price o (price o)) new_quantity) now in
  let b' := snd (modify_order b id (price o) new_quantity now) in
  fst (modify_order b id (price o) new_quantity now) = Some new_order ∧
  order_map_ b' !! id = Some new_order ∧
  queue_at (side o) (price o) b' = before ++ after ++ [new_order] ∧
  next_trade_id_ b' = next_trade_id_ b.
Proof.
  intros Hr Ho Hsplit Hnq new_order b'.
  pose proof (reachable_wf _ Hr) as Hwf.
  destruct (wf_index _ Hwf _ _ Ho) as (Hid & _).
  pose proof (same_price_no_trades b id o new_quantity now Hwf
                (reachable_no_cross _ Hr) (reachable_prices_positive _ Hr) Ho Hnq)
    as Htr.
  fold new_order in Htr. cbv zeta in Htr.
  subst b'. rewrite modify_order_eq, Ho. cbn [fst snd]. fold new_order.
  set (b1 := snd (cancel_order b id)) in *.
  assert (Hgone : order_map_ b1 !! order_id new_order = None).
  { subst b1. rewrite (cancel_order_found _ _ _ Ho). cbn [snd].
    rewrite order_map_set_levels. simpl. rewrite Hid. apply lookup_delete_eq. }
  pose proof (add_order_residual_wf b1 new_order) as Hres.
  cbv zeta in Hres. rewrite Htr in Hres. cbn [total_quantity foldr] in Hres.
  destruct Hres as [_ Hres].
  - by apply wf_book_cancel.
  - unfold order_typed. simpl. lia.
  - simpl. lia.
  - simpl. by eapply reachable_prices_positive.
  - done.
  - rewrite Z.sub_0_r in Hres.
    replace (0 <? quantity new_order) with true in Hres
      by (symmetry; apply Z.ltb_lt; simpl; lia).
    rewrite with_quantity_same in Hres. destruct Hres as [Hix Hqueue].
    change (order_id new_order) with (order_id o) in Hix. rewrite Hid in Hix.
    change (side new_order) with (side o) in Hqueue.
    change (price new_order) with (price o) in Hqueue.
    split_and!; [done|done| |].
    + rewrite Hqueue. subst b1.
      rewrite (cancel_queue_at b id o before after Hwf Ho Hsplit).
      by rewrite <- app_assoc.
    + destruct (ids_consecutive_add b1 new_order) as [_ Hnext].
      { subst b1. rewrite next_trade_id_cancel. by apply reachable_next_trade_id. }
      rewrite Hnext, Htr. simpl. rewrite Z.add_0_r. subst b1.
      rewrite next_trade_id_cancel. apply u64_small.
      by apply reachable_next_trade_id.
Qed.

Lemma modify_same_price_requeues_witness :
  reachable (book_after [sell_1; sell_2]) ∧
  order_map_ (book_after [sell_1; sell_2]) !! 1 = Some sell_1 ∧
  queue_at (side sell_1) (price sell_1) (book_after [sell_1; sell_2])
  = [] ++ sell_1 :: [sell_2] ∧
  0 < 4 < 2 ^ 32 ∧
  let new_order :=
    with_timestamp_ns (with_quantity (with_price sell_1 (price sell_1)) 4) 9 in
  let b' := snd (modify_order (book_after [sell_1; sell_2]) 1 (price sell_1) 4 9) in
  fst (modify_order (book_after [sell_1; sell_2]) 1 (price sell_1) 4 9)
  = Some new_order ∧
  order_map_ b' !! 1 = Some new_order ∧
  queue_at (side sell_1) (price sell_1) b' = [] ++ [sell_2] ++ [new_order] ∧
  next_trade_id_ b' = next_trade_id_ (book_after [sell_1; sell_2]).
Proof.
  assert (Hr : reachable (book_after [sell_1; sell_2])).
  { apply reachable_book_after. repeat constructor; simpl; lia. }
  split_and!; [exact Hr|done|done|lia|lia|].
  apply (modify_same_price_requeues _ 1 sell_1 [] [sell_2] 4 9 Hr); [done|done|lia].
Defined.

(** ** Market data snapshots *)

Lemma best_level s b :
  reachable b →
  match map_begin (key_before s) (levels s b) with
  | Some (p, _) =>
      queue_at s p b ≠ [] ∧
      volume_at_price b p s = u32 (sum_quantities (queue_at s p b)) ∧
      order_count_at_price b p s = u32 (Z.of_nat (length (queue_at s p b)))
  | None => ∀ p, queue_at s p b = []
  end.
Proof.
  intros Hr. pose proof (map_begin_inv s (levels s b)) as H.
  destruct (map_begin (key_before s) (levels s b)) as [[p l]|].
  - destruct H as [Hl _]. unfold queue_at, volume_at_price, order_count_at_price.
    rewrite Hl. split_and!; [|by apply (reachable_volumes_ok _ Hr s p)|done].
    apply (wl_nonempty _ _ _ _ (wf_levels _ (reachable_wf _ Hr) _ _ _ Hl)).
  - intros p. unfold queue_at. rewrite H. by rewrite lookup_empty.
Qed.

(** X27. A [MarketDataSnapshot] of a reachable book is consistent.  When
    it reports a best bid, some order is queued at that price, and
    [bid_volume] and [bid_orders] are the summed quantity and the number of
    the buy orders queued there (each as a [uint32_t]); when it reports
    none, no buy order is queued anywhere and both are 0.  The same holds
    for the ask fields, and a reported bid is below a reported ask. *)
Theorem snapshot_consistent b now :
  reachable b →
  let s := MarketDataSnapshot_new b now in
  snapshot_symbol_id s = symbol_id_ b ∧
  match snapshot_best_bid s with
  | Some p =>
      queue_at BUY p b ≠ [] ∧
      bid_volume s = u32 (sum_quantities (queue_at BUY p b)) ∧
      bid_orders s = u32 (Z.of_nat (length (queue_at BUY p b)))
  | None => bid_volume s = 0 ∧ bid_orders s = 0 ∧ ∀ p, queue_at BUY p b = []
  end ∧
  match snapshot_best_ask s with
  | Some p =>
      queue_at SELL p b ≠ [] ∧
      ask_volume s = u32 (sum_quantities (queue_at SELL p b)) ∧
      ask_orders s = u32 (Z.of_nat (length (queue_at SELL p b)))
  | None => ask_volume s = 0 ∧ ask_orders s = 0 ∧ ∀ p, queue_at SELL p b = []
  end ∧
  (∀ bid ask, snapshot_best_bid s = Some bid → snapshot_best_ask s = Some ask →
              bid < ask).
Proof.
  intros Hr. pose proof (best_level BUY b Hr) as Hb.
  pose proof (best_level SELL b Hr) as Ha.
  unfold MarketDataSnapshot_new. cbn [snapshot_symbol_id snapshot_best_bid
    snapshot_best_ask bid_volume ask_volume bid_orders ask_orders].
  unfold best_bid, best_ask.
  change (buy_levels_ b) with (levels BUY b).
  change (sell_levels_ b) with (levels SELL b).
  pose proof (map_begin_inv BUY (levels BUY b)) as Hb'.
  pose proof (map_begin_inv SELL (levels SELL b)) as Ha'.
  destruct (map_begin (key_before BUY) (levels BUY b)) as [[pb lb]|];
    destruct (map_begin (key_before SELL) (levels SELL b)) as [[pa la]|];
    cbn [fmap option_fmap option_map fst]; split_and!; try tauto; try done.
  intros bid ask [= <-] [= <-]. apply (reachable_no_cross _ Hr).
  - exists lb. apply Hb'.
  - exists la. apply Ha'.
Qed.

Lemma snapshot_consistent_witness :
  reachable (book_after [buy_5; sell_1; sell_2]) ∧
  let b := book_after [buy_5; sell_1; sell_2] in
  let s := MarketDataSnapshot_new b 0 in
  snapshot_symbol_id s = symbol_id_ b ∧
  match snapshot_best_bid s with
  | Some p =>
      queue_at BUY p b ≠ [] ∧
      bid_volume s = u32 (sum_quantities (queue_at BUY p b)) ∧
      bid_orders s = u32 (Z.of_nat (length (queue_at BUY p b)))
  | None => bid_volume s = 0 ∧ bid_orders s = 0 ∧ ∀ p, queue_at BUY p b = []
  end ∧
  match snapshot_best_ask s with
  | Some p =>
      queue_at SELL p b ≠ [] ∧
      ask_volume s = u32 (sum_quantities (queue_at SELL p b)) ∧
      ask_orders s = u32 (Z.of_nat (length (queue_at SELL p b)))
  | None => ask_volume s = 0 ∧ ask_orders s = 0 ∧ ∀ p, queue_at SELL p b = []
  end ∧
  (∀ bid ask, snapshot_best_bid s = Some bid → snapshot_best_ask s = Some ask →
              bid < ask).
Proof.
  assert (Hr : reachable (book_after [buy_5; sell_1; sell_2])).
  { apply reachable_book_after. repeat constructor; simpl; lia. }
  split; [exact Hr|]. exact (snapshot_consistent _ 0 Hr).
Defined.

(** * Further properties of the matching engine *)

(** ** Books stay with their symbol *)

Definition symbols_ok (sym : Z) (b : OrderBookImpl) : Prop :=
  symbol_id_ b = sym ∧
  ∀ id o, order_map_ b !! id = Some o → symbol_id o = sym.

Lemma symbol_id_set_levels s m b : symbol_id_ (set_levels s m b) = symbol_id_ b.
Proof. by destruct s. Qed.

Lemma symbol_id_iteration s b o b' o' ts :
  iteration_case s b o b' o' ts → symbol_id_ b' = symbol_id_ b.
Proof.
  destruct 1; unfold after_full_fill, after_partial_fill;
    by rewrite symbol_id_set_levels.
Qed.

Lemma symbol_id_match_loop s fuel b o acc b' o' ts :
  match_loop s fuel b o acc = (b', o', ts) → symbol_id_ b' = symbol_id_ b.
Proof.
  apply (match_loop_invariant (λ b1 _ _, symbol_id_ b1 = symbol_id_ b)); [|done].
  intros ?????? H Hc. apply symbol_id_iteration in Hc. congruence.
Qed.

Lemma symbols_ok_new sym : symbols_ok sym (OrderBookImpl_new sym).
Proof. split; [done|]. intros id o H. simpl in H. by rewrite lookup_empty in H. Qed.

Lemma symbols_ok_clear sym b : symbols_ok sym b → symbols_ok sym (clear b).
Proof.
  intros [Hs _]. split; [done|]. intros id o Hid. simpl in Hid.
  by rewrite lookup_empty in Hid.
Qed.

Lemma symbols_ok_cancel sym b id :
  symbols_ok sym b → symbols_ok sym (snd (cancel_order b id)).
Proof.
  intros [Hs Ho]. unfold cancel_order.
  destruct (order_map_ b !! id) as [order|]; [|done]. simpl. split.
  - by rewrite symbol_id_set_levels.
  - intros id' o. rewrite order_map_set_levels. simpl.
    rewrite lookup_delete_Some. intros [_ ?]. eauto.
Qed.

Lemma symbols_ok_add sym b o :
  wf_book b → symbol_id o = sym →
  symbols_ok sym b → symbols_ok sym (snd (add_order b o)).
Proof.
  intros Hwf Hsym [Hs Ho].
  destruct (add_order_cases b o) as [->|(Hq & Hp & Hid)]; [done|].
  destruct (add_order_accepted b o Hq Hp Hid) as (b1 & o1 & ts & Hloop & ->).
  cbn [snd].
  assert (H1 : symbols_ok sym b1).
  { split; [by rewrite (symbol_id_match_loop _ _ _ _ _ _ _ _ Hloop)|].
    intros id x' Hx'.
    destruct (match_loop_index _ _ _ _ _ _ _ _ Hwf Hloop _ _ Hx') as (x & Hx & _).
    destruct (fills_accounted_loop _ _ _ _ _ _ _ Hwf Hloop) as [_ Hacc].
    specialize (Hacc id x Hx). rewrite Hx' in Hacc. destruct Hacc as [-> _].
    simpl. eauto. }
  destruct (0 <? quantity o1); [|done]. destruct H1 as [Hs1 Ho1]. split.
  - unfold add_to_book. simpl. by rewrite symbol_id_set_levels.
  - intros id x. unfold add_to_book. cbn [order_map_ set_order_map].
    rewrite order_map_set_levels, lookup_insert_Some.
    intros [[_ <-]|[_ ?]]; [|eauto].
    destruct (match_loop_incoming _ _ _ _ _ _ _ _ Hloop) as (_&_&_&?). congruence.
Qed.

Lemma symbols_ok_modify sym b id np nq now :
  wf_book b → symbols_ok sym b →
  symbols_ok sym (snd (modify_order b id np nq now)).
Proof.
  intros Hwf Hok. rewrite modify_order_eq.
  destruct (order_map_ b !! id) as [old|] eqn:Hold; [|done]. cbn [snd].
  apply symbols_ok_add.
  - by apply wf_book_cancel.
  - simpl. by apply (proj2 Hok id).
  - by apply symbols_ok_cancel.
Qed.

(** ** Engines reachable through the interface *)

Definition request_typed (request : OrderRequest) : Prop :=
  match request with
  | NEW_ORDER order => order_typed order
  | CANCEL_ORDER _ _ => True
  | MODIFY_ORDER _ _ _ new_quantity => 0 ≤ new_quantity < 2 ^ 32
  end.

Inductive engine_reachable : MatchingEngineImpl → Prop :=
| er_new : engine_reachable MatchingEngineImpl_new
| er_register e sym :
    engine_reachable e → engine_reachable (snd (register_symbol e sym))
| er_unregister e sym :
    engine_reachable e → engine_reachable (snd (unregister_symbol e sym))
| er_clear_all_books e :
    engine_reachable e → engine_reachable (clear_all_books e)
| er_set_trade_callback e :
    engine_reachable e → engine_reachable (set_trade_callback e)
| er_set_order_callback e :
    engine_reachable e → engine_reachable (set_order_callback e)
| er_request e now request :
    engine_reachable e → request_typed request →
    engine_reachable (fst (process_order_request e now request)).

Definition stats_typed (st : MatchingEngineStats) : Prop :=
  0 ≤ total_orders st < 2 ^ 64 ∧ 0 ≤ total_trades st < 2 ^ 64 ∧
  0 ≤ total_volume st < 2 ^ 64 ∧ 0 ≤ rejected_orders st < 2 ^ 64 ∧
  0 ≤ cancelled_orders st < 2 ^ 64 ∧ 0 ≤ modified_orders st < 2 ^ 64.

Definition engine_ok (e : MatchingEngineImpl) : Prop :=
  stats_typed (stats_ e) ∧
  ∀ sym book, order_books_ e !! sym = Some book →
              reachable book ∧ symbols_ok sym book.

Ltac solve_stats_typed :=
  unfold stats_typed in *; simpl in *;
  repeat match goal with
         | |- context [u64 ?x] =>
             generalize (u64_range x); generalize (u64 x); intros
         end;
  lia.

Lemma process_trades_typed cb trades : ∀ st,
  stats_typed st → stats_typed (fst (process_trades cb trades st)).
Proof.
  induction trades as [|t trades IH]; intros st Hst; [done|]. simpl.
  specialize (IH (add_total_volume (trade_quantity t) (add_total_trades 1 st))).
  destruct (process_trades cb trades _) as [st2 evs]. simpl in *. apply IH.
  solve_stats_typed.
Qed.

Lemma engine_ok_request e now request :
  engine_ok e → request_typed request →
  engine_ok (fst (process_order_request e now request)).
Proof.
  intros [Hst Hbooks] Hty. destruct request as [order|sym id|sym id np nq]; simpl.
  - unfold process_new_order. simpl.
    assert (Hst1 : stats_typed (add_total_orders 1 (stats_ e))).
    { solve_stats_typed. }
    destruct (order_books_ e !! symbol_id order) as [book|] eqn:Hb.
    + destruct (Hbooks _ _ Hb) as [Hr Hok].
      destruct (add_order book order) as [trades book'] eqn:Hadd. simpl.
      pose proof (process_trades_typed (trade_callback_ e) trades _ Hst1) as Hst2.
      destruct (process_trades _ trades _) as [st evs]. simpl. split; [done|].
      intros sym b. cbn [order_books_ set_stats set_order_books].
      rewrite lookup_insert_Some. intros [[<- <-]|[_ ?]]; [|eauto].
      replace book' with (snd (add_order book order)) by (by rewrite Hadd). split.
      * by apply reach_add.
      * apply symbols_ok_add; [by apply reachable_wf|done|done].
    + simpl. split; [|done]. clear Hst. solve_stats_typed.
  - unfold process_cancel_order.
    destruct (order_books_ e !! sym) as [book|] eqn:Hb; [|done].
    destruct (Hbooks _ _ Hb) as [Hr Hok].
    destruct (cancel_order book id) as [c book'] eqn:Hc.
    assert (Hnew : ∀ sym' b, <[sym := book']> (order_books_ e) !! sym' = Some b →
                             reachable b ∧ symbols_ok sym' b).
    { intros sym' b. rewrite lookup_insert_Some. intros [[<- <-]|[_ ?]]; [|eauto].
      replace book' with (snd (cancel_order book id)) by (by rewrite Hc). split.
      - by apply reach_cancel.
      - by apply symbols_ok_cancel. }
    destruct c; simpl; (split; [|done]); [|done].
    solve_stats_typed.
  - unfold process_modify_order.
    destruct (order_books_ e !! sym) as [book|] eqn:Hb; [|done].
    destruct (Hbooks _ _ Hb) as [Hr Hok].
    destruct (modify_order book id np nq now) as [m book'] eqn:Hm.
    assert (Hnew : ∀ sym' b, <[sym := book']> (order_books_ e) !! sym' = Some b →
                             reachable b ∧ symbols_ok sym' b).
    { intros sym' b. rewrite lookup_insert_Some. intros [[<- <-]|[_ ?]]; [|eauto].
      replace book' with (snd (modify_order book id np nq now))
        by (by rewrite Hm).
      split.
      - by apply reach_modify.
      - apply symbols_ok_modify; [by apply reachable_wf|done]. }
    destruct m; simpl; (split; [|done]); [|done].
    solve_stats_typed.
Qed.

Lemma engine_reachable_ok e : engine_reachable e → engine_ok e.
Proof.
  induction 1 as [|e sym Hr [Hst IH]|e sym Hr [Hst IH]|e Hr [Hst IH]
                 |e Hr [Hst IH]|e Hr [Hst IH]|e now request Hr IH Hty].
  - split; [unfold stats_typed; simpl; lia|].
    intros sym b H. simpl in H. by rewrite lookup_empty in H.
  - unfold register_symbol. destruct (order_books_ e !! sym) eqn:Hb; [done|].
    cbn [snd]. split; [done|]. intros sym' b.
    cbn [order_books_ set_order_books].
    rewrite lookup_insert_Some. intros [[<- <-]|[_ ?]]; [|eauto].
    split; [constructor|apply symbols_ok_new].
  - unfold unregister_symbol. destruct (order_books_ e !! sym) eqn:Hb; [|done].
    cbn [snd]. split; [done|]. intros sym' b.
    cbn [order_books_ set_order_books].
    rewrite lookup_delete_Some. intros [Hne Hl].
    rewrite lookup_insert_ne in Hl by done. eauto.
  - split; [done|]. intros sym b. unfold clear_all_books. simpl.
    rewrite lookup_fmap. destruct (order_books_ e !! sym) as [b0|] eqn:Hb; [|done].
    intros [= <-]. destruct (IH _ _ Hb). split.
    + by apply reach_clear.
    + by apply symbols_ok_clear.
  - done.
  - done.
  - by apply engine_ok_request.
Qed.

(** X10. In an engine driven through its interface (symbols registered and
    unregistered, callbacks set, books cleared, requests of any kind
    processed), the book stored for a symbol is a book of that symbol
    reachable by book operations, every order resting in it carries that
    symbol, its best bid is below its best ask, and each counter is a
    [uint64_t] value. *)
Theorem engine_books_consistent e sym book :
  engine_reachable e → get_order_book e sym = Some book →
  symbol_id_ book = sym ∧
  reachable book ∧
  (∀ id o, order_map_ book !! id = Some o → symbol_id o = sym ∧ order_id o = id) ∧
  (∀ bid ask, best_bid book = Some bid → best_ask book = Some ask → bid < ask) ∧
  stats_typed (get_stats e).
Proof.
  intros Hr Hb. destruct (engine_reachable_ok _ Hr) as [Hst Hbooks].
  destruct (Hbooks _ _ Hb) as [Hrb [Hs Ho]].
  split_and!; try done.
  - intros id o Hid. split; [by eapply Ho|].
    by destruct (wf_index _ (reachable_wf _ Hrb) _ _ Hid).
  - intros bid ask Hbid Hask. apply (reachable_no_cross _ Hrb).
    + unfold best_bid in Hbid.
      destruct (map_begin (key_before BUY) (buy_levels_ book)) as [[k v]|] eqn:E;
        [|done].
      injection Hbid as <-. apply map_begin_Some in E as [E _]. by exists v.
    + unfold best_ask in Hask.
      destruct (map_begin (key_before SELL) (sell_levels_ book)) as [[k v]|] eqn:E;
        [|done].
      injection Hask as <-. apply map_begin_Some in E as [E _]. by exists v.
Qed.

Lemma engine_books_consistent_witness :
  engine_reachable (fst (process_order_request engine_1 0 (NEW_ORDER sell_1))) ∧
  get_order_book (fst (process_order_request engine_1 0 (NEW_ORDER sell_1))) 1
    = Some (book_after [sell_1]) ∧
  symbol_id_ (book_after [sell_1]) = 1 ∧
  reachable (book_after [sell_1]) ∧
  (∀ id o, order_map_ (book_after [sell_1]) !! id = Some o →
           symbol_id o = 1 ∧ order_id o = id) ∧
  (∀ bid ask, best_bid (book_after [sell_1]) = Some bid →
              best_ask (book_after [sell_1]) = Some ask → bid < ask) ∧
  stats_typed (get_stats (fst (process_order_request engine_1 0 (NEW_ORDER sell_1)))).
Proof.
  assert (Hr : engine_reachable
                 (fst (process_order_request engine_1 0 (NEW_ORDER sell_1)))).
  { apply er_request; [|unfold request_typed, order_typed; simpl; lia].
    apply er_set_order_callback, er_set_trade_callback, er_register, er_new. }
  split; [exact Hr|]. split; [done|].
  by apply (engine_books_consistent _ 1 (book_after [sell_1]) Hr).
Defined.

(** ** Trade accounting *)

Lemma u64_idemp x : u64 (u64 x) = u64 x.
Proof. unfold u64. by rewrite Z.mod_mod. Qed.

Lemma process_trades_totals cb trades : ∀ st,
  let st' := fst (process_trades cb trades st) in
  u64 (total_trades st') = u64 (total_trades st + Z.of_nat (length trades)) ∧
  u64 (total_volume st') = u64 (total_volume st + total_quantity trades).
Proof.
  induction trades as [|t trades IH]; intros st; simpl.
  - split; f_equal; lia.
  - specialize (IH (add_total_volume (trade_quantity t) (add_total_trades 1 st))).
    destruct (process_trades cb trades _) as [st2 evs]. simpl in *.
    destruct IH as [-> ->]. rewrite !u64_u64_add. split; f_equal; lia.
Qed.

(** X11. Trade accounting of a new order.  When the order's symbol is
    registered, [process_new_order] stores the book [add_order] returns,
    raises [total_trades] by the number of trades returned and
    [total_volume] by the sum of their quantities (modulo 2^64), and leaves
    the books of other symbols and the rejected, cancelled and modified
    counters as they were. *)
Theorem process_new_order_accounting e order book :
  engine_reachable e → order_books_ e !! symbol_id order = Some book →
  let trades := fst (add_order book order) in
  let e' := fst (process_new_order e order) in
  order_books_ e' = <[symbol_id order := snd (add_order book order)]> (order_books_ e) ∧
  total_trades (stats_ e') = u64 (total_trades (stats_ e) + Z.of_nat (length trades)) ∧
  total_volume (stats_ e') = u64 (total_volume (stats_ e) + total_quantity trades) ∧
  rejected_orders (stats_ e') = rejected_orders (stats_ e) ∧
  cancelled_orders (stats_ e') = cancelled_orders (stats_ e) ∧
  modified_orders (stats_ e') = modified_orders (stats_ e).
Proof.
  intros Hr Hb trades e'.
  assert (Hty : stats_typed (stats_ e')).
  { destruct (engine_reachable_ok e Hr) as [Hst _].
    subst e'. unfold process_new_order. simpl. rewrite Hb.
    destruct (add_order book order) as [ts book'].
    pose proof (process_trades_typed (trade_callback_ e) ts
                  (add_total_orders 1 (stats_ e))) as Hpt.
    destruct (process_trades _ ts _) as [st evs]. simpl in *. apply Hpt.
    solve_stats_typed. }
  subst e' trades. unfold process_new_order in *. simpl in *. rewrite Hb in *.
  destruct (add_order book order) as [ts book'] eqn:Hadd. simpl in *.
  pose proof (process_trades_totals (trade_callback_ e) ts
                (add_total_orders 1 (stats_ e))) as Htot.
  pose proof (process_trades_other_counters (trade_callback_ e) ts
                (add_total_orders 1 (stats_ e))) as Hoth.
  destruct (process_trades _ ts _) as [st evs]. simpl in *.
  destruct Htot as [Ht Hv]. destruct Hoth as (_ & ? & ? & ?).
  destruct Hty as (_ & Hty1 & Hty2 & _).
  rewrite (u64_small _ Hty1) in Ht. rewrite (u64_small _ Hty2) in Hv.
  split_and!; done.
Qed.

Lemma process_new_order_accounting_witness :
  engine_reachable (fst (process_new_order engine_1 sell_1)) ∧
  order_books_ (fst (process_new_order engine_1 sell_1)) !! symbol_id buy_6
    = Some (book_after [sell_1]) ∧
  let e := fst (process_new_order engine_1 sell_1) in
  let trades := fst (add_order (book_after [sell_1]) buy_6) in
  let e' := fst (process_new_order e buy_6) in
  order_books_ e'
    = <[symbol_id buy_6 := snd (add_order (book_after [sell_1]) buy_6)]>
        (order_books_ e) ∧
  total_trades (stats_ e') = u64 (total_trades (stats_ e) + Z.of_nat (length trades)) ∧
  total_volume (stats_ e') = u64 (total_volume (stats_ e) + total_quantity trades) ∧
  rejected_orders (stats_ e') = rejected_orders (stats_ e) ∧
  cancelled_orders (stats_ e') = cancelled_orders (stats_ e) ∧
  modified_orders (stats_ e') = modified_orders (stats_ e).
Proof.
  assert (Hr : engine_reachable (fst (process_new_order engine_1 sell_1))).
  { apply (er_request engine_1 0 (NEW_ORDER sell_1));
      [|unfold request_typed, order_typed; simpl; lia].
    apply er_set_order_callback, er_set_trade_callback, er_register, er_new. }
  split; [exact Hr|]. split; [done|].
  by apply (process_new_order_accounting _ buy_6 (book_after [sell_1]) Hr).
Defined.

(** ** Cancel and modify requests *)

Definition is_resting (e : MatchingEngineImpl) (symbol_id order_id : Z) : bool :=
  match order_books_ e !! symbol_id with
  | Some book => bool_decide (is_Some (order_map_ book !! order_id))
  | None => false
  end.

Lemma cancel_order_fst b id :
  fst (cancel_order b id) = bool_decide (is_Some (order_map_ b !! id)).
Proof. unfold cancel_order. by destruct (order_map_ b !! id). Qed.

Lemma modify_order_fst b id np nq now :
  is_Some (fst (modify_order b id np nq now)) ↔ is_Some (order_map_ b !! id).
Proof.
  rewrite modify_order_eq. destruct (order_map_ b !! id); simpl; [by split; eauto|].
  split; by intros [? ?].
Qed.

(** X12. Cancel and modify requests are silent.  Processing one fires no
    callback and leaves [total_orders], [total_trades], [total_volume] and
    [rejected_orders] untouched, also when a modification re-enters the book
    and trades there.  A cancel raises [cancelled_orders] by one exactly
    when the order rests in the book of a registered symbol, and never
    touches [modified_orders]; a modify does the converse. *)
Theorem cancel_and_modify_requests e now request :
  engine_reachable e →
  match request with NEW_ORDER _ => False | _ => True end →
  let e' := fst (process_order_request e now request) in
  let st := stats_ e in
  let st' := stats_ e' in
  snd (process_order_request e now request) = [] ∧
  total_orders st' = total_orders st ∧ total_trades st' = total_trades st ∧
  total_volume st' = total_volume st ∧ rejected_orders st' = rejected_orders st ∧
  match request with
  | NEW_ORDER _ => True
  | CANCEL_ORDER symbol_id order_id =>
      cancelled_orders st'
      = (if is_resting e symbol_id order_id
         then u64 (cancelled_orders st + 1) else cancelled_orders st) ∧
      modified_orders st' = modified_orders st ∧
      is_resting e' symbol_id order_id = false
  | MODIFY_ORDER symbol_id order_id _ _ =>
      modified_orders st'
      = (if is_resting e symbol_id order_id
         then u64 (modified_orders st + 1) else modified_orders st) ∧
      cancelled_orders st' = cancelled_orders st
  end.
Proof.
  intros Hr Hreq. destruct request as [order|sym id|sym id np nq]; [done| |]; simpl.
  - unfold process_cancel_order, is_resting.
    destruct (order_books_ e !! sym) as [book|] eqn:Hb.
    2:{ rewrite Hb. done. }
    pose proof (cancel_order_fst book id) as Hc.
    assert (Hgone : order_map_ (snd (cancel_order book id)) !! id = None).
    { unfold cancel_order. destruct (order_map_ book !! id) eqn:E; [|done].
      simpl. rewrite order_map_set_levels. simpl. apply lookup_delete_eq. }
    destruct (cancel_order book id) as [c book']. simpl in Hc, Hgone. subst c.
    destruct (bool_decide _); simpl; rewrite lookup_insert_eq, Hgone; done.
  - unfold process_modify_order, is_resting.
    destruct (order_books_ e !! sym) as [book|] eqn:Hb; [|done].
    pose proof (modify_order_fst book id np nq now) as Hm.
    destruct (modify_order book id np nq now) as [m book']. simpl in Hm.
    destruct m as [o|]; simpl.
    + rewrite bool_decide_eq_true_2 by (apply Hm; eauto). done.
    + rewrite bool_decide_eq_false_2; [done|].
      intros H. apply Hm in H. by destruct H.
Qed.

Lemma cancel_and_modify_requests_witness :
  engine_reachable (fst (process_new_order engine_1 sell_1)) ∧
  let e := fst (process_new_order engine_1 sell_1) in
  let request := CANCEL_ORDER 1 1 in
  let e' := fst (process_order_request e 0 request) in
  let st := stats_ e in
  let st' := stats_ e' in
  snd (process_order_request e 0 request) = [] ∧
  total_orders st' = total_orders st ∧ total_trades st' = total_trades st ∧
  total_volume st' = total_volume st ∧ rejected_orders st' = rejected_orders st ∧
  cancelled_orders st'
  = (if is_resting e 1 1 then u64 (cancelled_orders st + 1) else cancelled_orders st) ∧
  modified_orders st' = modified_orders st ∧
  is_resting e' 1 1 = false.
Proof.
  assert (Hr : engine_reachable (fst (process_new_order engine_1 sell_1))).
  { apply (er_request engine_1 0 (NEW_ORDER sell_1));
      [|unfold request_typed, order_typed; simpl; lia].
    apply er_set_order_callback, er_set_trade_callback, er_register, er_new. }
  split; [exact Hr|].
  exact (cancel_and_modify_requests _ 0 (CANCEL_ORDER 1 1) Hr I).
Defined.

(** ** The symbol registry *)

Lemma set_order_books_same e : set_order_books (order_books_ e) e = e.
Proof. by destruct e. Qed.

(** X13. Registering and unregistering a symbol.  Registering a symbol
    that has no book succeeds and installs an empty book of that symbol;
    registering it again fails and changes nothing; unregistering it then
    succeeds and gives back the engine as it was before the registration;
    unregistering a symbol that has no book fails and changes nothing. *)
Theorem register_then_unregister e sym :
  get_order_book e sym = None →
  let e1 := snd (register_symbol e sym) in
  fst (register_symbol e sym) = true ∧
  get_order_book e1 sym = Some (OrderBookImpl_new sym) ∧
  (∀ sym', sym' ≠ sym → get_order_book e1 sym' = get_order_book e sym') ∧
  register_symbol e1 sym = (false, e1) ∧
  unregister_symbol e1 sym = (true, e) ∧
  unregister_symbol e sym = (false, e).
Proof.
  unfold get_order_book. intros Hb. unfold register_symbol. rewrite Hb. simpl.
  split_and!.
  - done.
  - apply lookup_insert_eq.
  - intros sym' Hne. by rewrite lookup_insert_ne.
  - by rewrite lookup_insert_eq.
  - unfold unregister_symbol. simpl. rewrite lookup_insert_eq. f_equal.
    unfold set_order_books. simpl.
    rewrite insert_insert_eq, delete_insert_id by done. by destruct e.
  - unfold unregister_symbol. by rewrite Hb.
Qed.

Lemma register_then_unregister_witness :
  get_order_book engine_1 2 = None ∧
  let e1 := snd (register_symbol engine_1 2) in
  fst (register_symbol engine_1 2) = true ∧
  get_order_book e1 2 = Some (OrderBookImpl_new 2) ∧
  (∀ sym', sym' ≠ 2 → get_order_book e1 sym' = get_order_book engine_1 sym') ∧
  register_symbol e1 2 = (false, e1) ∧
  unregister_symbol e1 2 = (true, engine_1) ∧
  unregister_symbol engine_1 2 = (false, engine_1).
Proof. split; [done|]. by apply (register_then_unregister engine_1 2). Defined.

(** ** The worker processes every request, in submission order *)

(** Processing a list of requests one after the other, each with the clock
    reading of its turn. *)
Fixpoint process_all (e : MatchingEngineImpl) (work : list (Z * OrderRequest))
  : MatchingEngineImpl * list CallbackEvent :=
  match work with
  | [] => (e, [])
  | (now, request) :: rest =>
      let '(e1, events) := process_order_request e now request in
      let '(e2, events') := process_all e1 rest in
      (e2, events ++ events')
  end.

Lemma process_all_app e work1 work2 :
  process_all e (work1 ++ work2)
  = let '(e1, events1) := process_all e work1 in
    let '(e2, events2) := process_all e1 work2 in
    (e2, events1 ++ events2).
Proof.
  revert e. induction work1 as [|[now r] work1 IH]; intros e; simpl.
  - by destruct (process_all e work2).
  - destruct (process_order_request e now r) as [e1 ev]. rewrite IH.
    destruct (process_all e1 work1) as [e2 ev2].
    destruct (process_all e2 work2) as [e3 ev3]. by rewrite app_assoc.
Qed.

Lemma enqueue_retry_holds fuel q (vs : list OrderRequest) r :
  holds q vs →
  ∃ q', enqueue_retry (S fuel) q r = Some q' ∧ holds q' (vs ++ [r]).
Proof.
  intros Hq. destruct (enqueue_holds q vs r Hq) as (q' & Henq & Hq').
  exists q'. simpl. by rewrite Henq.
Qed.

Lemma drain_holds (vs : list OrderRequest) : ∀ fuel clock q e,
  holds q vs → (length vs < fuel)%nat →
  ∃ q' nows,
    drain fuel clock q e
    = Some (q', fst (process_all e (zip nows vs)), snd (process_all e (zip nows vs))) ∧
    length nows = length vs ∧
    holds q' [].
Proof.
  induction vs as [|v vs IH]; intros fuel clock q e Hq Hfuel;
    (destruct fuel as [|fuel]; [simpl in Hfuel; lia|]);
    destruct (dequeue_holds q _ Hq) as (q1 & Hdeq & Hq1); simpl in Hdeq, Hq1.
  - exists q1, []. simpl. by rewrite Hdeq.
  - simpl. rewrite Hdeq.
    destruct (process_order_request e (clock O) v) as [e1 ev] eqn:Hp.
    destruct (IH fuel (λ k, clock (S k)) q1 e1 Hq1) as (q' & nows & Hd & Hlen & Hq');
      [simpl in Hfuel; lia|].
    exists q', (clock O :: nows). rewrite Hd. simpl. rewrite Hp.
    destruct (process_all e1 (zip nows vs)) as [e2 ev2]. simpl.
    split_and!; [done|by rewrite Hlen|done].
Qed.

(** A run of a started engine: the producer submits requests and the
    worker takes turns, in any interleaving.  [submitted] lists the
    requests submitted so far, [processed] the requests the worker has
    processed with the clock reading of each, [events] the callbacks
    fired. *)
Inductive engine_run (e0 : MatchingEngineImpl) (default_request : OrderRequest)
  : EngineState → list OrderRequest → list (Z * OrderRequest) →
    list CallbackEvent → Prop :=
| run_start s :
    start (mkEngineState e0 (SPSCQueue.create default_request) false) = Returned s →
    engine_run e0 default_request s [] [] []
| run_submit s submitted processed events fuel request s' :
    engine_run e0 default_request s submitted processed events →
    submit_request fuel s request = Returned s' →
    engine_run e0 default_request s' (submitted ++ [request]) processed events
| run_worker_turn s submitted processed events now s' events' :
    engine_run e0 default_request s submitted processed events →
    worker_turn s now = Some (s', events') →
    engine_run e0 default_request s' submitted
      (processed ++ match SPSCQueue.dequeue (order_queue_ s) with
                    | Some (Some request, _) => [(now, request)]
                    | _ => []
                    end)
      (events ++ events').

Lemma engine_run_inv e0 d s submitted processed events :
  engine_run e0 d s submitted processed events →
  running_ s = true ∧
  process_all e0 processed = (impl_ s, events) ∧
  ∃ pending, submitted = processed.*2 ++ pending ∧ holds (order_queue_ s) pending.
Proof.
  induction 1 as [s Hs|s submitted processed events fuel request s' Hrun IH Hsub
                 |s submitted processed events now s' events' Hrun IH Hturn].
  - injection Hs as <-. simpl. split_and!; [done|done|].
    exists []. split; [done|]. apply holds_create.
  - destruct IH as (Hrunning & Hproc & pending & -> & Hq).
    unfold submit_request in Hsub. rewrite Hrunning in Hsub. simpl in Hsub.
    destruct fuel as [|fuel]; [done|].
    destruct (enqueue_retry_holds fuel _ _ request Hq) as (q' & Henq & Hq').
    rewrite Henq in Hsub. injection Hsub as <-. simpl. split_and!; [done|done|].
    exists (pending ++ [request]). by rewrite app_assoc.
  - destruct IH as (Hrunning & Hproc & pending & -> & Hq).
    unfold worker_turn in Hturn.
    destruct (dequeue_holds _ _ Hq) as (q' & Hdeq & Hq'). rewrite Hdeq in *.
    destruct pending as [|r pending]; simpl in *.
    + injection Hturn as <- <-. simpl. rewrite !app_nil_r.
      split_and!; [done|done|]. exists []. by rewrite app_nil_r.
    + destruct (process_order_request (impl_ s) now r) as [e' ev] eqn:Hp.
      injection Hturn as <- <-. simpl. split_and!; [done| |].
      * rewrite process_all_app, Hproc. simpl. rewrite Hp. by rewrite app_nil_r.
      * exists pending. rewrite fmap_app. simpl. by rewrite <- app_assoc.
Qed.

(** X14. No request is lost or reordered.  Take an engine started on an
    empty queue, any interleaving of submissions ([submit_order],
    [cancel_order], [modify_order] of the engine) and worker turns, and then
    [stop], whose loop is given more turns than there are requests.  Every
    submission returned without throwing; [stop] returns with the engine no
    longer running and the queue empty; and the engine state and the
    callbacks fired, in order, are those of processing the submitted
    requests one by one in submission order. *)
Theorem stop_processes_all_submitted e0 default_request s submitted processed
    events fuel clock :
  engine_run e0 default_request s submitted processed events →
  (length submitted < fuel)%nat →
  ∃ s' events' nows,
    stop fuel clock s = Some (s', events') ∧
    is_running s' = false ∧
    SPSCQueue.empty (order_queue_ s') = Some true ∧
    length nows = length submitted ∧
    process_all e0 (zip nows submitted) = (impl_ s', events ++ events').
Proof.
  intros Hrun Hfuel.
  destruct (engine_run_inv _ _ _ _ _ _ Hrun)
    as (Hrunning & Hproc & pending & -> & Hq).
  rewrite length_app in Hfuel.
  destruct (drain_holds pending fuel clock (order_queue_ s) (impl_ s) Hq)
    as (q' & nows & Hd & Hlen & Hq'); [lia|].
  exists (mkEngineState (fst (process_all (impl_ s) (zip nows pending))) q' false),
         (snd (process_all (impl_ s) (zip nows pending))),
         (processed.*1 ++ nows).
  unfold stop. rewrite Hrunning, Hd. simpl. split_and!; [done|done| | |].
  - destruct Hq' as (d & cells & Hchain & _ & Hvs & _).
    destruct cells; [|done]. simpl in Hchain. unfold SPSCQueue.empty.
    by rewrite Hchain.
  - rewrite !length_app, !length_fmap. lia.
  - rewrite zip_with_app by (by rewrite !length_fmap).
    rewrite process_all_app.
    replace (zip processed.*1 processed.*2) with processed
      by (symmetry; apply zip_fst_snd).
    rewrite Hproc. by destruct (process_all (impl_ s) (zip nows pending)).
Qed.

Lemma stop_processes_all_submitted_witness :
  engine_run engine_1 (CANCEL_ORDER 0 0)
    (mkEngineState engine_1
       (snd (default (true, SPSCQueue.create (CANCEL_ORDER 0 0))
               (SPSCQueue.enqueue (SPSCQueue.create (CANCEL_ORDER 0 0))
                  (NEW_ORDER sell_1))))
       true)
    [NEW_ORDER sell_1] [] [] ∧
  (length [NEW_ORDER sell_1] < 2)%nat ∧
  ∃ s' events' nows,
    stop 2 (λ _, 0)
      (mkEngineState engine_1
         (snd (default (true, SPSCQueue.create (CANCEL_ORDER 0 0))
                 (SPSCQueue.enqueue (SPSCQueue.create (CANCEL_ORDER 0 0))
                    (NEW_ORDER sell_1))))
         true)
    = Some (s', events') ∧
    is_running s' = false ∧
    SPSCQueue.empty (order_queue_ s') = Some true ∧
    length nows = length [NEW_ORDER sell_1] ∧
    process_all engine_1 (zip nows [NEW_ORDER sell_1]) = (impl_ s', [] ++ events').
Proof.
  assert (Hrun : engine_run engine_1 (CANCEL_ORDER 0 0)
    (mkEngineState engine_1
       (snd (default (true, SPSCQueue.create (CANCEL_ORDER 0 0))
               (SPSCQueue.enqueue (SPSCQueue.create (CANCEL_ORDER 0 0))
                  (NEW_ORDER sell_1))))
       true)
    [NEW_ORDER sell_1] [] []).
  { apply (run_submit engine_1 (CANCEL_ORDER 0 0)
             (mkEngineState engine_1 (SPSCQueue.create (CANCEL_ORDER 0 0)) true)
             [] [] [] 1%nat (NEW_ORDER sell_1)).
    - by apply run_start.
    - reflexivity. }
  split; [exact Hrun|]. split; [simpl; lia|].
  apply (stop_processes_all_submitted _ _ _ _ _ _ 2%nat (λ _, 0) Hrun).
  simpl. lia.
Defined.

(** ** One order callback per new order *)

(** The new orders among the requests, each with whether its symbol is
    registered in [e0]. *)
Definition new_orders (e0 : MatchingEngineImpl) (work : list (Z * OrderRequest))
  : list (Order * bool) :=
  omap (λ w, match snd w with
             | NEW_ORDER o =>
                 Some (o, bool_decide (is_Some (order_books_ e0 !! symbol_id o)))
             | _ => None
             end) work.

Definition registered (e e' : MatchingEngineImpl) : Prop :=
  ∀ sym, is_Some (order_books_ e' !! sym) ↔ is_Some (order_books_ e !! sym).

Lemma process_trades_order_calls cb trades : ∀ st,
  order_calls (snd (process_trades cb trades st)) = [].
Proof.
  induction trades as [|t trades IH]; intros st; [done|]. simpl.
  specialize (IH (add_total_volume (trade_quantity t) (add_total_trades 1 st))).
  destruct (process_trades cb trades _) as [st2 evs]. simpl in *.
  destruct cb; simpl; done.
Qed.

Lemma registered_insert e sym b :
  is_Some (order_books_ e !! sym) →
  ∀ sym', is_Some (<[sym := b]> (order_books_ e) !! sym')
          ↔ is_Some (order_books_ e !! sym').
Proof.
  intros Hs sym'. destruct (decide (sym' = sym)) as [->|Hne].
  - rewrite lookup_insert_eq. split; eauto.
  - by rewrite lookup_insert_ne.
Qed.

Lemma request_step e now request :
  stats_typed (stats_ e) →
  let e' := fst (process_order_request e now request) in
  let events := snd (process_order_request e now request) in
  order_callback_ e' = order_callback_ e ∧ registered e e' ∧
  stats_typed (stats_ e') ∧
  match request with
  | NEW_ORDER o =>
      let known := bool_decide (is_Some (order_books_ e !! symbol_id o)) in
      order_calls events = (if order_callback_ e then [(o, known)] else []) ∧
      total_orders (stats_ e') = u64 (total_orders (stats_ e) + 1) ∧
      rejected_orders (stats_ e')
      = (if known then rejected_orders (stats_ e)
         else u64 (rejected_orders (stats_ e) + 1))
  | _ =>
      events = [] ∧ total_orders (stats_ e') = total_orders (stats_ e) ∧
      rejected_orders (stats_ e') = rejected_orders (stats_ e)
  end.
Proof.
  intros Hst. destruct request as [o|sym id|sym id np nq]; simpl.
  - unfold process_new_order. simpl.
    destruct (order_books_ e !! symbol_id o) as [book|] eqn:Hb.
    + destruct (add_order book o) as [trades book']. simpl.
      pose proof (process_trades_order_calls (trade_callback_ e) trades
                    (add_total_orders 1 (stats_ e))) as Hcalls.
      pose proof (process_trades_other_counters (trade_callback_ e) trades
                    (add_total_orders 1 (stats_ e))) as Hoth.
      pose proof (process_trades_typed (trade_callback_ e) trades
                    (add_total_orders 1 (stats_ e))) as Hty.
      destruct (process_trades _ trades _) as [st evs]. simpl in *.
      destruct Hoth as (H1 & H2 & _).
      split_and!; try done.
      * intros sym'. cbn [order_books_ set_stats set_order_books].
        apply registered_insert. by rewrite Hb.
      * apply Hty. solve_stats_typed.
      * unfold order_calls in *. rewrite omap_app, Hcalls.
        destruct (order_callback_ e); done.
    + simpl. split_and!; try done.
      * solve_stats_typed.
      * destruct (order_callback_ e); done.
  - unfold process_cancel_order.
    destruct (order_books_ e !! sym) as [book|] eqn:Hb; [|done].
    destruct (cancel_order book id) as [c book'].
    assert (Hreg : registered e (set_order_books (<[sym := book']> (order_books_ e)) e)).
    { intros sym'. cbn [order_books_ set_order_books].
      apply registered_insert. by rewrite Hb. }
    destruct c; simpl; split_and!; try done. solve_stats_typed.
  - unfold process_modify_order.
    destruct (order_books_ e !! sym) as [book|] eqn:Hb; [|done].
    destruct (modify_order book id np nq now) as [m book'].
    assert (Hreg : registered e (set_order_books (<[sym := book']> (order_books_ e)) e)).
    { intros sym'. cbn [order_books_ set_order_books].
      apply registered_insert. by rewrite Hb. }
    destruct m; simpl; split_and!; try done. solve_stats_typed.
Qed.

Lemma new_orders_registered e e' work :
  registered e e' → new_orders e' work = new_orders e work.
Proof.
  intros Hreg. induction work as [|[now r] work IH]; [done|].
  unfold new_orders in *. cbn [omap list_omap snd]. rewrite IH.
  destruct r as [o| |]; try done.
  by rewrite (bool_decide_ext _ _ (Hreg (symbol_id o))).
Qed.

Lemma order_calls_app evs1 evs2 :
  order_calls (evs1 ++ evs2) = order_calls evs1 ++ order_calls evs2.
Proof. unfold order_calls. apply omap_app. Qed.

Lemma new_orders_cons e now r work :
  new_orders e ((now, r) :: work)
  = match r with
    | NEW_ORDER o =>
        (o, bool_decide (is_Some (order_books_ e !! symbol_id o)))
          :: new_orders e work
    | _ => new_orders e work
    end.
Proof. by destruct r. Qed.

(** X26. Every new order gets its order callback, once and in order.
    Processing a list of requests with an order callback set calls it once
    for each new order of the list, in the order of the list, with
    [accepted] telling whether the order's symbol was registered, and never
    for a cancel or a modify; [total_orders] grows by the number of new
    orders and [rejected_orders] by the number of those whose symbol is not
    registered (modulo 2^64); the set of registered symbols stays as it
    was. *)
Theorem process_all_order_callbacks e work :
  stats_typed (stats_ e) → order_callback_ e = true →
  let e' := fst (process_all e work) in
  let events := snd (process_all e work) in
  order_calls events = new_orders e work ∧
  total_orders (stats_ e')
  = u64 (total_orders (stats_ e) + Z.of_nat (length (new_orders e work))) ∧
  rejected_orders (stats_ e')
  = u64 (rejected_orders (stats_ e)
         + Z.of_nat (length (filter (λ c, snd c = false) (new_orders e work)))) ∧
  (∀ sym, is_Some (get_order_book e' sym) ↔ is_Some (get_order_book e sym)).
Proof.
  revert e. induction work as [|[now r] work IH]; intros e Hst Hcb.
  { simpl. destruct Hst as (? & _ & _ & ? & _).
    rewrite !Z.add_0_r, !u64_small by done. done. }
  cbn [process_all].
  pose proof (request_step e now r Hst) as Hstep. cbv zeta in Hstep.
  destruct (process_order_request e now r) as [e1 ev]. cbn [fst snd] in Hstep.
  destruct Hstep as (Hcb1 & Hreg1 & Hst1 & Hreq).
  specialize (IH e1 Hst1 ltac:(congruence)). cbv zeta in IH.
  destruct (process_all e1 work) as [e2 ev2]. cbn [fst snd] in *.
  destruct IH as (Hcalls & Htot & Hrej & Hreg2).
  rewrite (new_orders_registered e e1 work Hreg1) in Hcalls, Htot, Hrej.
  assert (Hreg : ∀ sym, is_Some (get_order_book e2 sym)
                        ↔ is_Some (get_order_book e sym)).
  { intros sym. rewrite Hreg2. apply Hreg1. }
  rewrite order_calls_app, new_orders_cons, Hcalls, Htot, Hrej.
  destruct r as [o|sym id|sym id np nq].
  - destruct Hreq as (Hev & Ht1 & Hr1). rewrite Hcb in Hev.
    rewrite Hev, Ht1, Hr1. cbn [app length]. rewrite filter_cons. cbn [snd].
    split_and!; [done| | |done].
    + rewrite u64_u64_add. f_equal. lia.
    + destruct (bool_decide (is_Some (order_books_ e !! symbol_id o))).
      * by rewrite decide_False by done.
      * rewrite decide_True by done. rewrite u64_u64_add. cbn [length].
        f_equal. lia.
  - destruct Hreq as (-> & Ht1 & Hr1). by rewrite Ht1, Hr1.
  - destruct Hreq as (-> & Ht1 & Hr1). by rewrite Ht1, Hr1.
Qed.

Lemma process_all_order_callbacks_witness :
  stats_typed (stats_ engine_1) ∧ order_callback_ engine_1 = true ∧
  let work := [(0, NEW_ORDER sell_1); (0, CANCEL_ORDER 1 1);
               (0, NEW_ORDER (Order_new 8 5 100 10 BUY 0 0))] in
  let e' := fst (process_all engine_1 work) in
  let events := snd (process_all engine_1 work) in
  order_calls events = new_orders engine_1 work ∧
  total_orders (stats_ e')
  = u64 (total_orders (stats_ engine_1)
         + Z.of_nat (length (new_orders engine_1 work))) ∧
  rejected_orders (stats_ e')
  = u64 (rejected_orders (stats_ engine_1)
         + Z.of_nat (length (filter (λ c, snd c = false)
                                    (new_orders engine_1 work)))) ∧
  (∀ sym, is_Some (get_order_book e' sym)
          ↔ is_Some (get_order_book engine_1 sym)).
Proof.
  assert (Hst : stats_typed (stats_ engine_1))
    by (repeat split; vm_compute; first [reflexivity|discriminate]).
  split; [exact Hst|]. split; [done|].
  exact (process_all_order_callbacks engine_1 _ Hst eq_refl).
Defined.

(** * The bounded MPMC queue, used from one thread *)







Section MPMC.
Context {T : Type}.
Variables (Size : Z) (k : Z).
Hypothesis Hk : 1 ≤ k ≤ 62.
Hypothesis HSize : Size = 2 ^ k.

Local Abbreviation queue := (MPMCQueue.t T).
Local Abbreviation index := (MPMCQueue.index Size).
Local Abbreviation mkCell := (@MPMCQueue.mkCell T).
Local Abbreviation buffer_ := (@MPMCQueue.buffer_ T).
Local Abbreviation enqueue_pos_ := (@MPMCQueue.enqueue_pos_ T).
Local Abbreviation dequeue_pos_ := (@MPMCQueue.dequeue_pos_ T).



















End MPMC.



(** X19. A queue of one cell is broken.  [Size = 1] passes the
    [static_assert], but the stamp of a written cell and the stamp of a
    cell free for the next lap then coincide: a second [try_enqueue] into
    the full queue returns true and overwrites the pending value, and a
    [try_dequeue] after that never leaves its loop, however many turns it
    is given. *)
Theorem mpmc_one_cell_overwrites {T} (default_value v1 v2 : T) fuel1 fuel2 :
  ∃ q1 q2,
    MPMCQueue.try_enqueue 1 (S fuel1) (MPMCQueue.create 1 default_value) v1
    = Some (true, q1) ∧
    MPMCQueue.try_enqueue 1 (S fuel2) q1 v2 = Some (true, q2) ∧
    MPMCQueue.data <$> MPMCQueue.buffer_ q2 = [v2] ∧
    ∀ fuel, MPMCQueue.try_dequeue 1 fuel q2 = None.
Proof.
  exists (MPMCQueue.mkQueue [MPMCQueue.mkCell 1 v1] 1 0),
         (MPMCQueue.mkQueue [MPMCQueue.mkCell 2 v2] 2 0).
  split_and!; [reflexivity|reflexivity|reflexivity|].
  intros fuel. unfold MPMCQueue.try_dequeue.
  induction fuel as [|fuel IH]; [done|].
  cbn [MPMCQueue.try_dequeue_loop]. exact IH.
Qed.

(** * Further properties of the arbitrage detector and of the feed statistics *)

(** ** The history of detected opportunities *)

(** Quotes fed to the detector one after the other, each with the feed it
    came from and the clock reading at its processing; the opportunities
    passed to the callback are collected in order. *)
Fixpoint feed_quotes (d : ArbitrageDetector) (updates : list (ascii * Quote * Z))
  : ArbitrageDetector * list ArbitrageOpportunity :=
  match updates with
  | [] => (d, [])
  | (feed, quote, now) :: rest =>
      let '(d1, found) := process_quote d feed quote now in
      let '(d2, found') := feed_quotes d1 rest in
      (d2, found ++ found')
  end.

Definition keep_last {A} (n : nat) (l : list A) : list A :=
  drop (length l - n) l.

Lemma keep_last_snoc {A} (n : nat) (l : list A) x :
  (if (S n <? length (keep_last (S n) l ++ [x]))%nat
   then tail (keep_last (S n) l ++ [x])
   else keep_last (S n) l ++ [x])
  = keep_last (S n) (l ++ [x]).
Proof.
  unfold keep_last. rewrite !length_app, length_drop. simpl.
  destruct (decide (length l ≤ n)%nat) as [Hle|Hgt].
  - replace (length l - S n)%nat with O by lia.
    replace (length l + 1 - S n)%nat with O by lia.
    rewrite Nat.sub_0_r, !drop_0.
    destruct (S n <? length l + 1)%nat eqn:E; [apply Nat.ltb_lt in E; lia|done].
  - destruct (S n <? length l - (length l - S n) + 1)%nat eqn:E;
      [|apply Nat.ltb_ge in E; lia].
    replace (length l + 1 - S n)%nat with (length l - S n + 1)%nat by lia.
    rewrite (drop_app_le l [x] (length l - S n + 1)) by lia.
    rewrite <- (drop_drop l 1 (length l - S n)).
    destruct (drop (length l - S n) l) as [|y rest] eqn:Hd; [|done].
    apply (f_equal length) in Hd. rewrite length_drop in Hd. simpl in Hd. lia.
Qed.

Definition latencies (h : list ArbitrageOpportunity) : list Z :=
  latency_difference_ns <$> h.

Record history_ok (d : ArbitrageDetector) (h : list ArbitrageOpportunity)
  : Prop := {
  ho_recent : recent_opportunities_ d = keep_last 1000 h;
  ho_detected :
    opportunities_detected (arbitrage_stats_ d) = u64 (Z.of_nat (length h));
  ho_profitable :
    profitable_opportunities (arbitrage_stats_ d)
    = u64 (Z.of_nat (length (filter (λ o, is_profitable o = true) h)));
  ho_missed : missed_opportunities (arbitrage_stats_ d) = 0;
  ho_max : max_latency_diff_ns (arbitrage_stats_ d) = foldr Z.max 0 (latencies h);
  ho_total :
    total_latency_diff_ns (arbitrage_stats_ d) = u64 (foldr Z.add 0 (latencies h))
}.

Lemma foldr_max_snoc l x : foldr Z.max 0 (l ++ [x]) = Z.max (foldr Z.max 0 l) x.
Proof. induction l as [|y l IH]; simpl; [lia|rewrite IH; lia]. Qed.

Lemma foldr_add_snoc l x : foldr Z.add 0 (l ++ [x]) = foldr Z.add 0 l + x.
Proof. induction l as [|y l IH]; simpl; [lia|rewrite IH; lia]. Qed.

Lemma history_ok_record d h sym state now d' found :
  arbitrage_callback_ d = true → history_ok d h →
  check_arbitrage d sym state now = (d', found) →
  history_ok d' (h ++ found) ∧ arbitrage_callback_ d' = true ∧
  symbol_states_ d' = symbol_states_ d.
Proof.
  intros Hcb [H1 H2 H3 H4 H5 H6]. unfold check_arbitrage. rewrite Hcb.
  destruct (_ || _).
  2:{ intros [= <- <-]. rewrite app_nil_r. done. }
  intros [= <- <-]. split; [|done].
  match goal with
  | |- history_ok _ (h ++ [?o]) => generalize o; intros opp
  end.
  split; cbn [recent_opportunities_ arbitrage_stats_ record_opportunity
              opportunities_detected profitable_opportunities
              missed_opportunities max_latency_diff_ns total_latency_diff_ns].
  - rewrite H1. apply (keep_last_snoc 999).
  - rewrite H2, u64_u64_add, length_app. simpl. f_equal. lia.
  - rewrite filter_app, filter_cons, filter_nil, H3.
    destruct (is_profitable opp) eqn:E.
    + rewrite decide_True by done. rewrite u64_u64_add, length_app. simpl.
      f_equal. lia.
    + rewrite decide_False by done. by rewrite app_nil_r.
  - done.
  - unfold latencies. rewrite fmap_app. simpl. by rewrite foldr_max_snoc, H5.
  - unfold latencies. rewrite fmap_app. simpl.
    by rewrite foldr_add_snoc, H6, u64_u64_add.
Qed.

Lemma history_ok_quote d h feed quote now d' found :
  arbitrage_callback_ d = true → history_ok d h →
  process_quote d feed quote now = (d', found) →
  history_ok d' (h ++ found) ∧ arbitrage_callback_ d' = true.
Proof.
  intros Hcb Hh. unfold process_quote.
  match goal with
  | |- context [has_both_feeds ?s] => destruct (has_both_feeds s)
  end.
  - intros Hc.
    apply (history_ok_record _ h) in Hc as (? & ? & _); [done|done|].
    by destruct Hh.
  - intros [= <- <-]. rewrite app_nil_r. split; [|done]. by destruct Hh.
Qed.

Lemma history_ok_feed updates : ∀ d h d' found,
  arbitrage_callback_ d = true → history_ok d h →
  feed_quotes d updates = (d', found) → history_ok d' (h ++ found).
Proof.
  induction updates as [|[[feed quote] now] updates IH]; intros d h d' found Hcb Hh.
  - intros [= <- <-]. by rewrite app_nil_r.
  - simpl. destruct (process_quote d feed quote now) as [d1 f1] eqn:Hq.
    destruct (feed_quotes d1 updates) as [d2 f2] eqn:Hf. intros [= <- <-].
    destruct (history_ok_quote _ _ _ _ _ _ _ Hcb Hh Hq) as [Hh1 Hcb1].
    rewrite app_assoc. by eapply IH.
Qed.

(** X22. The detector's record of opportunities.  Feed a fresh detector
    with a callback any sequence of quotes, and let [found] be the
    opportunities passed to the callback, in order.  Then
    [recent_opportunities_] holds the last 1000 of them, in the same order,
    so never more than 1000, and [get_recent_opportunities(count)] returns
    the last [count] of those; [opportunities_detected] counts all of
    them, [profitable_opportunities] those with a positive profit,
    [max_latency_diff_ns] and [total_latency_diff_ns] are the maximum and
    the sum (modulo 2^64) of their latency differences, and quotes never
    count a missed opportunity. *)
Theorem detector_history updates count :
  let d0 := set_arbitrage_callback ArbitrageDetector_new in
  let d := fst (feed_quotes d0 updates) in
  let found := snd (feed_quotes d0 updates) in
  let stats := get_arbitrage_stats d in
  recent_opportunities_ d = keep_last 1000 found ∧
  (length (recent_opportunities_ d) ≤ 1000)%nat ∧
  get_recent_opportunities d count = keep_last (Nat.min count 1000) found ∧
  opportunities_detected stats = u64 (Z.of_nat (length found)) ∧
  profitable_opportunities stats
  = u64 (Z.of_nat (length (filter (λ o, is_profitable o = true) found))) ∧
  max_latency_diff_ns stats = foldr Z.max 0 (latency_difference_ns <$> found) ∧
  total_latency_diff_ns stats
  = u64 (foldr Z.add 0 (latency_difference_ns <$> found)) ∧
  missed_opportunities stats = 0.
Proof.
  intros d0 d found stats.
  assert (H0 : history_ok d0 []) by (by split).
  destruct (feed_quotes d0 updates) as [d' found'] eqn:Hf.
  pose proof (history_ok_feed updates d0 [] d' found' eq_refl H0 Hf)
    as [H1 H2 H3 H4 H5 H6].
  subst d found stats. cbn [fst snd app] in *.
  assert (Hlen : (length (recent_opportunities_ d') ≤ 1000)%nat).
  { rewrite H1. unfold keep_last. rewrite length_drop. lia. }
  split_and!; try done.
  unfold get_recent_opportunities. rewrite H1. unfold keep_last in *.
  rewrite length_drop, drop_drop.
  destruct (count <? _)%nat eqn:E;
    [apply Nat.ltb_lt in E|apply Nat.ltb_ge in E]; f_equal; lia.
Qed.

(** ** Feed statistics *)

Lemma foldr_min_snoc l x m :
  foldr Z.min m (l ++ [x]) = Z.min (foldr Z.min m l) x.
Proof. induction l as [|y l IH]; simpl; [lia|rewrite IH; lia]. Qed.

Lemma update_latency_fold latencies :
  let st := foldl update_latency FeedStats_new latencies in
  messages_received st = u64 (Z.of_nat (length latencies)) ∧
  latency_sum_ns st = u64 (foldr Z.add 0 latencies) ∧
  latency_min_ns st = foldr Z.min UINT64_MAX latencies ∧
  latency_max_ns st = foldr Z.max 0 latencies ∧
  messages_dropped st = 0 ∧ jitter_events st = 0.
Proof.
  induction latencies as [|x l IH] using rev_ind; [done|].
  rewrite foldl_app. cbn [foldl]. destruct IH as (H1 & H2 & H3 & H4 & H5 & H6).
  cbn [update_latency messages_received latency_sum_ns latency_min_ns
       latency_max_ns messages_dropped jitter_events].
  rewrite H1, H2, H3, H4, !u64_u64_add, length_app,
    foldr_add_snoc, foldr_min_snoc, foldr_max_snoc.
  simpl. split_and!; try done. f_equal. lia.
Qed.

(** X23. [FeedStats::update_latency] folded over latency samples.  For
    samples that are [uint64_t] values, starting from a fresh [FeedStats]:
    [messages_received] is their number and [latency_sum_ns] their sum
    (modulo 2^64); if there is at least one sample, [latency_min_ns] and
    [latency_max_ns] are samples, no sample is below the first or above
    the second, and the minimum is at most the maximum; with no sample the
    minimum stays [UINT64_MAX] and the maximum 0. *)
Theorem update_latency_summary latencies :
  Forall (λ x, 0 ≤ x < 2 ^ 64) latencies →
  let st := foldl update_latency FeedStats_new latencies in
  messages_received st = u64 (Z.of_nat (length latencies)) ∧
  latency_sum_ns st = u64 (foldr Z.add 0 latencies) ∧
  (∀ x, x ∈ latencies → latency_min_ns st ≤ x ≤ latency_max_ns st) ∧
  (latencies ≠ [] →
   latency_min_ns st ∈ latencies ∧ latency_max_ns st ∈ latencies ∧
   latency_min_ns st ≤ latency_max_ns st) ∧
  (latencies = [] → latency_min_ns st = UINT64_MAX ∧ latency_max_ns st = 0).
Proof.
  intros Hty. cbv zeta.
  destruct (update_latency_fold latencies) as (H1 & H2 & H3 & H4 & _).
  cbv zeta in H1, H2, H3, H4. rewrite H1, H2, H3, H4. clear H1 H2 H3 H4.
  assert (Hbounds : ∀ x, x ∈ latencies →
            foldr Z.min UINT64_MAX latencies ≤ x ≤ foldr Z.max 0 latencies).
  { induction latencies as [|y l IH]; intros x Hx; [by apply elem_of_nil in Hx|].
    apply Forall_cons in Hty as [Hy Hl]. simpl.
    apply elem_of_cons in Hx as [->|Hx]; [lia|]. specialize (IH Hl x Hx). lia. }
  assert (Hin : latencies ≠ [] →
            foldr Z.min UINT64_MAX latencies ∈ latencies ∧
            foldr Z.max 0 latencies ∈ latencies).
  { clear Hbounds. induction latencies as [|y l IH]; intros Hne; [done|].
    apply Forall_cons in Hty as [Hy Hl]. simpl.
    destruct l as [|z l'].
    - simpl. unfold UINT64_MAX.
      rewrite Z.min_l, Z.max_l by lia. split; by left.
    - destruct (IH Hl) as [Hmin Hmax]; [done|].
      split.
      + destruct (Z.min_spec y (foldr Z.min UINT64_MAX (z :: l'))) as [[_ ->]|[_ ->]];
          [by left|by right].
      + destruct (Z.max_spec y (foldr Z.max 0 (z :: l'))) as [[_ ->]|[_ ->]];
          [by right|by left]. }
  split_and!; try done.
  - intros Hne. destruct (Hin Hne) as [Hmin Hmax]. split_and!; try done.
    destruct (Hbounds _ Hmin). lia.
  - by intros ->.
Qed.

Lemma update_latency_summary_witness :
  Forall (λ x, 0 ≤ x < 2 ^ 64) [5000; 1200; 7300] ∧
  let st := foldl update_latency FeedStats_new [5000; 1200; 7300] in
  messages_received st = u64 (Z.of_nat (length [5000; 1200; 7300])) ∧
  latency_sum_ns st = u64 (foldr Z.add 0 [5000; 1200; 7300]) ∧
  (∀ x, x ∈ [5000; 1200; 7300] → latency_min_ns st ≤ x ≤ latency_max_ns st) ∧
  ([5000; 1200; 7300] ≠ [] →
   latency_min_ns st ∈ [5000; 1200; 7300] ∧
   latency_max_ns st ∈ [5000; 1200; 7300] ∧
   latency_min_ns st ≤ latency_max_ns st) ∧
  ([5000; 1200; 7300] = [] → latency_min_ns st = UINT64_MAX ∧ latency_max_ns st = 0).
Proof.
  assert (Hty : Forall (λ x, 0 ≤ x < 2 ^ 64) [5000; 1200; 7300])
    by (repeat constructor; lia).
  split; [exact Hty|]. exact (update_latency_summary _ Hty).
Defined.

(** ** When the detector records, and what *)

Definition quotes_differ (a b : Quote) : Prop :=
  bid_price a ≠ bid_price b ∨ ask_price a ≠ ask_price b.

Definition quotes_cross (a b : Quote) : Prop :=
  (0 < ask_price a ∧ 0 < bid_price b ∧ ask_price a < bid_price b) ∨
  (0 < ask_price b ∧ 0 < bid_price a ∧ ask_price b < bid_price a).

Definition prices_bounded (q : Quote) : Prop :=
  - 2 ^ 62 < bid_price q < 2 ^ 62 ∧ - 2 ^ 62 < ask_price q < 2 ^ 62.

#[global] Instance quotes_differ_dec a b : Decision (quotes_differ a b).
Proof. unfold quotes_differ. apply _. Defined.

#[global] Instance quotes_cross_dec a b : Decision (quotes_cross a b).
Proof. unfold quotes_cross. apply _. Defined.

Lemma s64_id x : - 2 ^ 63 ≤ x < 2 ^ 63 → s64 x = x.
Proof. intros. unfold s64. rewrite Z.mod_small; lia. Qed.

Lemma abs64_diff x y :
  - 2 ^ 62 < x < 2 ^ 62 → - 2 ^ 62 < y < 2 ^ 62 →
  abs64 (s64 (x - y)) = Z.abs (x - y).
Proof. intros. unfold abs64. rewrite (s64_id (x - y)) by lia. apply s64_id. lia. Qed.

Lemma is_profitable_crossed o :
  feed_a_bid o < 2 ^ 63 → feed_b_bid o < 2 ^ 63 →
  is_profitable o = true ↔ crossed_buy_a o ∨ crossed_buy_b o.
Proof.
  intros Ha Hb. unfold is_profitable. rewrite profit_basis_points_cases.
  destruct (decide (crossed_buy_a o)) as [Hca|Hca].
  { split; [auto|]. intros _. destruct Hca as (? & ? & ?).
    apply crossed_profit_positive; lia. }
  destruct (decide (crossed_buy_b o)) as [Hcb|Hcb].
  { split; [auto|]. intros _. destruct Hcb as (? & ? & ?).
    apply crossed_profit_positive; lia. }
  split; [|tauto]. intros H. vm_compute in H. discriminate H.
Qed.

(** X24. What [check_arbitrage] records for the two stored quotes [a] and
    [b] of a symbol, with prices between -2^62 and 2^62.  If the quotes
    agree in bid and ask and do not cross, nothing changes and no callback
    fires.  Otherwise exactly one opportunity is recorded, appended to
    [recent_opportunities_] and passed to the callback if one is set: it
    names A as the fast feed only when A's timestamp is strictly the
    smaller (a tie names B), its latency difference is the distance of the
    two timestamps, its price difference the larger of the bid and ask
    distances; [opportunities_detected] grows by one, and
    [profitable_opportunities] grows by one exactly when the quotes
    cross. *)
Theorem check_arbitrage_records d sym state now :
  let a := feed_a_quote state in
  let b := feed_b_quote state in
  prices_bounded a → prices_bounded b →
  let d' := fst (check_arbitrage d sym state now) in
  let found := snd (check_arbitrage d sym state now) in
  if decide (quotes_differ a b ∨ quotes_cross a b)
  then ∃ opp,
      last (recent_opportunities_ d') = Some opp ∧
      found = (if arbitrage_callback_ d then [opp] else []) ∧
      opp_symbol_id opp = sym ∧ opp_timestamp_ns opp = now ∧
      fast_feed opp
      = (if quote_timestamp_ns a <? quote_timestamp_ns b
         then "A"%char else "B"%char) ∧
      slow_feed opp
      = (if quote_timestamp_ns a <? quote_timestamp_ns b
         then "B"%char else "A"%char) ∧
      latency_difference_ns opp
      = Z.abs (quote_timestamp_ns a - quote_timestamp_ns b) ∧
      price_difference opp
      = Z.max (Z.abs (bid_price a - bid_price b))
              (Z.abs (ask_price a - ask_price b)) ∧
      opportunities_detected (arbitrage_stats_ d')
      = u64 (opportunities_detected (arbitrage_stats_ d) + 1) ∧
      profitable_opportunities (arbitrage_stats_ d')
      = (if decide (quotes_cross a b)
         then u64 (profitable_opportunities (arbitrage_stats_ d) + 1)
         else profitable_opportunities (arbitrage_stats_ d))
  else d' = d ∧ found = [].
Proof.
  intros a b [Hab Haa] [Hbb Hba] d' found. subst d' found.
  unfold check_arbitrage. fold a b.
  rewrite !abs64_diff by done.
  set (has_opportunity :=
         if (0 <? ask_price a) && (0 <? bid_price b) && (ask_price a <? bid_price b)
         then true
         else if (0 <? ask_price b) && (0 <? bid_price a)
                 && (ask_price b <? bid_price a)
              then true else false).
  assert (Hcross : has_opportunity = bool_decide (quotes_cross a b)).
  { subst has_opportunity. unfold quotes_cross.
    repeat match goal with
           | |- context [?x <? ?y] =>
               let E := fresh in
               destruct (x <? y) eqn:E;
               [apply Z.ltb_lt in E|apply Z.ltb_ge in E]
           end; simpl; symmetry;
      first [apply bool_decide_eq_true_2; lia
            |apply bool_decide_eq_false_2; lia]. }
  assert (Hcond : (0 <? Z.abs (bid_price a - bid_price b))
                  || (0 <? Z.abs (ask_price a - ask_price b)) || has_opportunity
                  = bool_decide (quotes_differ a b ∨ quotes_cross a b)).
  { rewrite Hcross. unfold quotes_differ.
    destruct (0 <? Z.abs (bid_price a - bid_price b)) eqn:E1;
      [apply Z.ltb_lt in E1|apply Z.ltb_ge in E1];
      (destruct (0 <? Z.abs (ask_price a - ask_price b)) eqn:E2;
       [apply Z.ltb_lt in E2|apply Z.ltb_ge in E2]); simpl;
      try (symmetry; apply bool_decide_eq_true_2; lia).
    apply bool_decide_ext. split; [by right|]. intros [?|?]; [lia|done]. }
  rewrite Hcond. clear Hcond.
  destruct (decide (quotes_differ a b ∨ quotes_cross a b)) as [Hrec|Hrec].
  2:{ by rewrite bool_decide_eq_false_2. }
  rewrite bool_decide_eq_true_2 by done. cbn [fst snd].
  eexists. cbn [recent_opportunities_ arbitrage_stats_].
  split.
  { destruct (1000 <? _)%nat eqn:E; [|apply last_snoc].
    apply Nat.ltb_lt in E. rewrite length_app in E. simpl in E.
    destruct (recent_opportunities_ d) as [|y l]; [simpl in E; lia|].
    simpl. apply last_snoc. }
  cbn [opp_symbol_id opp_timestamp_ns fast_feed slow_feed latency_difference_ns
       price_difference record_opportunity opportunities_detected
       profitable_opportunities].
  split_and!; try done.
  - destruct (quote_timestamp_ns a <? quote_timestamp_ns b) eqn:E;
      [apply Z.ltb_lt in E|apply Z.ltb_ge in E]; lia.
  - match goal with
    | |- context [is_profitable ?o] =>
        pose proof (is_profitable_crossed o) as Hp
    end.
    cbn [feed_a_bid feed_b_bid] in Hp.
    specialize (Hp ltac:(lia) ltac:(lia)).
    destruct (is_profitable _);
      unfold crossed_buy_a, crossed_buy_b in Hp;
      cbn [feed_a_bid feed_a_ask feed_b_bid feed_b_ask] in Hp.
    + rewrite decide_True; [done|]. by apply Hp.
    + rewrite decide_False; [done|]. intros Hc. apply Hp in Hc. done.
Qed.

Lemma check_arbitrage_records_witness :
  prices_bounded quote_a ∧ prices_bounded quote_b_crossed ∧
  let state := mkSymbolState quote_a quote_b_crossed true true in
  let a := quote_a in
  let b := quote_b_crossed in
  let d := ArbitrageDetector_new in
  let d' := fst (check_arbitrage d 1 state 0) in
  let found := snd (check_arbitrage d 1 state 0) in
  if decide (quotes_differ a b ∨ quotes_cross a b)
  then ∃ opp,
      last (recent_opportunities_ d') = Some opp ∧
      found = (if arbitrage_callback_ d then [opp] else []) ∧
      opp_symbol_id opp = 1 ∧ opp_timestamp_ns opp = 0 ∧
      fast_feed opp
      = (if quote_timestamp_ns a <? quote_timestamp_ns b
         then "A"%char else "B"%char) ∧
      slow_feed opp
      = (if quote_timestamp_ns a <? quote_timestamp_ns b
         then "B"%char else "A"%char) ∧
      latency_difference_ns opp
      = Z.abs (quote_timestamp_ns a - quote_timestamp_ns b) ∧
      price_difference opp
      = Z.max (Z.abs (bid_price a - bid_price b))
              (Z.abs (ask_price a - ask_price b)) ∧
      opportunities_detected (arbitrage_stats_ d')
      = u64 (opportunities_detected (arbitrage_stats_ d) + 1) ∧
      profitable_opportunities (arbitrage_stats_ d')
      = (if decide (quotes_cross a b)
         then u64 (profitable_opportunities (arbitrage_stats_ d) + 1)
         else profitable_opportunities (arbitrage_stats_ d))
  else d' = d ∧ found = [].
Proof.
  assert (Ha : prices_bounded quote_a) by (unfold prices_bounded; simpl; lia).
  assert (Hb : prices_bounded quote_b_crossed)
    by (unfold prices_bounded; simpl; lia).
  split; [exact Ha|]. split; [exact Hb|].
  exact (check_arbitrage_records ArbitrageDetector_new 1
           (mkSymbolState quote_a quote_b_crossed true true) 0 Ha Hb).
Defined.

(** * The member functions of [Order] *)

Lemma can_match_sym a b : can_match a b = can_match b a.
Proof.
  unfold can_match, is_buy. rewrite (Z.eqb_sym (symbol_id b)).
  destruct (symbol_id a =? symbol_id b); [|done]. simpl.
  destruct (side a), (side b); done.
Qed.

Lemma can_match_no_match o r :
  symbol_id r = symbol_id o → side r = opposite (side o) →
  can_match o r = negb (no_match (side o) (price o) (price r)).
Proof.
  intros Hsym Hside. unfold can_match, is_buy. rewrite Hsym, Z.eqb_refl, Hside.
  destruct (side o); simpl.
  - by rewrite Z.leb_antisym.
  - by rewrite Z.gtb_ltb, Z.leb_antisym.
Qed.

(** X20. The engine only trades orders that [Order::can_match] allows.
    The matching loop never calls [can_match], and never compares symbols;
    yet in an engine driven through its interface, every trade returned
    for an order sent to the book of its symbol names as passive order an
    order resting there that [can_match] the incoming one, in both
    directions of the test. *)
Theorem engine_trades_can_match e o book t :
  engine_reachable e → order_typed o →
  get_order_book e (symbol_id o) = Some book →
  t ∈ fst (add_order book o) →
  ∃ resting,
    order_map_ book !! sell_order_id t = Some resting ∧
    can_match o resting = true ∧ can_match resting o = true.
Proof.
  intros He Ht Hb Hin.
  destruct (engine_reachable_ok _ He) as [_ Hbooks].
  destruct (Hbooks _ _ Hb) as [Hr [_ Hsym]].
  destruct (add_order_cases book o) as [Hrej|(Hq & Hp & Hid)].
  { rewrite Hrej in Hin. by apply elem_of_nil in Hin. }
  destruct (add_order_trades_wf book o (reachable_wf _ Hr) Ht Hq Hp Hid)
    as (Hall & _).
  rewrite Forall_forall in Hall.
  destruct (Hall t Hin) as [_ _ Hreach _ (r & l & Hr1 & _ & _ & Hside & Hprice)].
  exists r. split; [done|].
  rewrite (can_match_sym r o), can_match_no_match, Hprice, Hreach; [done| |done].
  by apply (Hsym _ _ Hr1).
Qed.

Lemma engine_trades_can_match_witness :
  engine_reachable (fst (process_new_order engine_1 sell_1)) ∧
  order_typed buy_6 ∧
  get_order_book (fst (process_new_order engine_1 sell_1)) (symbol_id buy_6)
    = Some (book_after [sell_1]) ∧
  Trade_new 1 buy_6 sell_1 100 10 ∈ fst (add_order (book_after [sell_1]) buy_6) ∧
  ∃ resting,
    order_map_ (book_after [sell_1])
      !! sell_order_id (Trade_new 1 buy_6 sell_1 100 10) = Some resting ∧
    can_match buy_6 resting = true ∧ can_match resting buy_6 = true.
Proof.
  assert (Hr : engine_reachable (fst (process_new_order engine_1 sell_1))).
  { apply (er_request engine_1 0 (NEW_ORDER sell_1));
      [|unfold request_typed, order_typed; simpl; lia].
    apply er_set_order_callback, er_set_trade_callback, er_register, er_new. }
  assert (Ht : order_typed buy_6) by (unfold order_typed; simpl; lia).
  assert (Hin : Trade_new 1 buy_6 sell_1 100 10
                ∈ fst (add_order (book_after [sell_1]) buy_6))
    by (vm_compute; left).
  split_and!; [exact Hr|exact Ht|done|exact Hin|].
  exact (engine_trades_can_match _ buy_6 (book_after [sell_1]) _ Hr Ht eq_refl Hin).
Defined.

(** X21. [Order::execute] on an order that is not over-executed, with a
    fill no larger than what remains: the remaining quantity drops by the
    fill, the order becomes [FILLED] exactly when the fill takes all that
    remained and [PARTIALLY_FILLED] otherwise, [is_filled] agrees with the
    status, and the result is again not over-executed, so fills compose. *)
Theorem execute_fill o fill :
  0 ≤ executed_quantity o ≤ quantity o → quantity o < 2 ^ 32 →
  0 ≤ fill ≤ remaining_quantity o →
  let o' := execute o fill in
  remaining_quantity o' = remaining_quantity o - fill ∧
  executed_quantity o' = executed_quantity o + fill ∧
  0 ≤ executed_quantity o' ≤ quantity o' ∧ quantity o' = quantity o ∧
  is_filled o' = bool_decide (fill = remaining_quantity o) ∧
  status o' = (if bool_decide (fill = remaining_quantity o)
               then FILLED else PARTIALLY_FILLED).
Proof.
  intros Hex Hq Hfill. unfold remaining_quantity in *.
  rewrite u32_small in Hfill by lia.
  rewrite (u32_small (quantity o - executed_quantity o)) by lia.
  unfold execute, is_filled. simpl.
  rewrite !(u32_small (executed_quantity o + fill)) by lia.
  rewrite u32_small by lia.
  assert (Hb : (quantity o <=? executed_quantity o + fill)
               = bool_decide (fill = quantity o - executed_quantity o)).
  { case_bool_decide; [apply Z.leb_le|apply Z.leb_gt]; lia. }
  rewrite Hb. split_and!; try done; lia.
Qed.

Lemma execute_fill_witness :
  0 ≤ executed_quantity sell_1 ≤ quantity sell_1 ∧ quantity sell_1 < 2 ^ 32 ∧
  0 ≤ 4 ≤ remaining_quantity sell_1 ∧
  let o' := execute sell_1 4 in
  remaining_quantity o' = remaining_quantity sell_1 - 4 ∧
  executed_quantity o' = executed_quantity sell_1 + 4 ∧
  0 ≤ executed_quantity o' ≤ quantity o' ∧ quantity o' = quantity sell_1 ∧
  is_filled o' = bool_decide (4 = remaining_quantity sell_1) ∧
  status o' = (if bool_decide (4 = remaining_quantity sell_1)
               then FILLED else PARTIALLY_FILLED).
Proof.
  split; [simpl; lia|]. split; [simpl; lia|]. split; [vm_compute; split; discriminate|].
  apply (execute_fill sell_1 4); [simpl; lia|simpl; lia|].
  vm_compute; split; discriminate.
Defined.

(** * Further properties of the SPSC queue *)

Section SPSCMore.
Context {T : Type}.
Implicit Types (q : SPSCQueue.t T) (h : gmap nat (SPSCQueue.Node T)).




(** ** Memory *)








End SPSCMore.


